(** * traces.TimeSeries: a shallow embedding of [src/traces/timeseries.py]

    The module models the step-function engine of the [traces] package:
    the sorted time -> value dictionary behind a [TimeSeries], point reads
    and writes, the period iterator, interval writes and deletes, [compact],
    the n-ary merge and the intersection of [Domain]s.

    Conventions.
    - Times are any totally ordered type with two infinite sentinels
      (class [TimeType]); Python's [<] is [tlt].
    - Python values are the inductive [value]; Python's [==] is [py_eq].
    - A raised exception is [Raise e]; a normal return is [Ok x].
    - Objects are mutable in Python; here every mutating method returns the
      new [TimeSeries].  A generator that reads the object between two
      [yield]s is modelled so that it reads the object as the loop body
      left it, and so does the iterator of [islice] that the generator
      walks (see [iterperiods_loop]). *)

From Stdlib Require Import List Bool Arith ZArith Lia QArith Qcanon.
From Equations Require Import Equations.
Import ListNotations.
Local Close Scope Qc_scope.
Local Close Scope Q_scope.

(* ------------------------------------------------------------------ *)
(** ** Times *)

(** [tlt] is Python's [<] on times.  [neg_inf] and [pos_inf] are the
    [-inf] and [inf] of the [infinity] package, which compare below and
    above every other time. *)
Class TimeType (T : Type) : Type := {
  tlt : T -> T -> bool;
  neg_inf : T;
  pos_inf : T;
  tlt_irrefl : forall x, tlt x x = false;
  tlt_trans : forall x y z, tlt x y = true -> tlt y z = true -> tlt x z = true;
  tlt_total : forall x y, tlt x y = false -> tlt y x = false -> x = y;
  neg_inf_least : forall x, tlt x neg_inf = false;
  pos_inf_greatest : forall x, tlt pos_inf x = false
}.

(** Python's [<=], [>=] and [==] on a total order. *)
Definition tle {T} `{TimeType T} (x y : T) : bool := negb (tlt y x).
Definition tge {T} `{TimeType T} (x y : T) : bool := negb (tlt x y).
Definition teqb {T} `{TimeType T} (x y : T) : bool :=
  negb (tlt x y) && negb (tlt y x).

(** [max(a, b)] and [min(a, b)] of Python: the first argument wins a tie. *)
Definition tmax {T} `{TimeType T} (a b : T) : T := if tlt a b then b else a.
Definition tmin {T} `{TimeType T} (a b : T) : T := if tlt b a then b else a.

(* ------------------------------------------------------------------ *)
(** ** Values *)

Local Unset Elimination Schemes.
Inductive value : Type :=
| VNone
| VBool (b : bool)
| VInt (z : Z)
| VList (l : list value).
Local Set Elimination Schemes.

(** Python's [==]: [bool] is a subclass of [int], so [True == 1]; lists
    compare element by element; values of unrelated types differ. *)
Fixpoint py_eq (x y : value) {struct x} : bool :=
  match x, y with
  | VNone, VNone => true
  | VBool a, VBool b => Bool.eqb a b
  | VBool a, VInt z => Z.eqb (Z.b2z a) z
  | VInt z, VBool a => Z.eqb z (Z.b2z a)
  | VInt a, VInt b => Z.eqb a b
  | VList l1, VList l2 =>
      (fix all2 (l1 l2 : list value) {struct l1} : bool :=
         match l1, l2 with
         | [], [] => true
         | a :: l1', b :: l2' => py_eq a b && all2 l1' l2'
         | _, _ => false
         end) l1 l2
  | _, _ => false
  end.

Definition py_ne (x y : value) : bool := negb (py_eq x y).

(** Truth value of a Python object. *)
Definition truthy (x : value) : bool :=
  match x with
  | VNone => false
  | VBool b => b
  | VInt z => negb (Z.eqb z 0)
  | VList l => match l with [] => false | _ => true end
  end.

(** [x and y] returns [x] when [x] is false, else [y]. *)
Definition py_and (x y : value) : value := if truthy x then y else x.

(* ------------------------------------------------------------------ *)
(** ** Exceptions *)

Inductive exn : Type :=
  KeyError | ValueError | IndexError | TypeError | NameError.

Inductive result (A : Type) : Type :=
| Ok (a : A)
| Raise (e : exn).
Arguments Ok {A} a.
Arguments Raise {A} e.

Definition bind {A B} (m : result A) (f : A -> result B) : result B :=
  match m with
  | Ok a => f a
  | Raise e => Raise e
  end.

Notation "x <- m ;; k" := (bind m (fun x => k))
  (at level 61, m at next level, right associativity).
Notation "' p <- m ;; k" := (bind m (fun p => k))
  (at level 61, p pattern, m at next level, right associativity).

Definition is_ok {A} (m : result A) : bool :=
  match m with Ok _ => true | Raise _ => false end.

(* ------------------------------------------------------------------ *)
(** ** The sorted dictionary (sortedcontainers.SortedDict)

    The dictionary is an external collaborator; it is modelled by its
    contract: a list of (key, value) pairs in strictly ascending key
    order.  [bisect_right] is the number of keys [<= t].  [islice] is
    lazy: it hands out ranks, and the key at a rank is read from the
    dictionary as it is when the iterator is asked for it. *)

Section SortedDict.
Context {T : Type} `{TimeType T}.

Definition SortedDict : Type := list (T * value).

Definition keys (d : SortedDict) : list T := map fst d.

Fixpoint sorted_keys (d : SortedDict) : bool :=
  match d with
  | [] => true
  | (k, _) :: d' =>
      match d' with
      | [] => true
      | (k', _) :: _ => tlt k k' && sorted_keys d'
      end
  end.

Fixpoint bisect_right (d : SortedDict) (t : T) : nat :=
  match d with
  | [] => 0
  | (k, _) :: d' => if tlt t k then 0 else S (bisect_right d' t)
  end.

Fixpoint bisect_left (d : SortedDict) (t : T) : nat :=
  match d with
  | [] => 0
  | (k, _) :: d' => if tlt k t then S (bisect_left d' t) else 0
  end.

(** [d.iloc[i]] for a non-negative rank. *)
Definition iloc (d : SortedDict) (i : nat) : result T :=
  match nth_error (keys d) i with
  | Some k => Ok k
  | None => Raise IndexError
  end.

(** [d[k]] *)
Fixpoint getitem (d : SortedDict) (k : T) : result value :=
  match d with
  | [] => Raise KeyError
  | (k', v) :: d' => if teqb k k' then Ok v else getitem d' k
  end.

(** [d[k] = v] *)
Fixpoint setitem (d : SortedDict) (k : T) (v : value) : SortedDict :=
  match d with
  | [] => [(k, v)]
  | (k', v') :: d' =>
      if tlt k k' then (k, v) :: d
      else if tlt k' k then (k', v') :: setitem d' k v
      else (k', v) :: d'
  end.

(** [del d[k]] *)
Fixpoint delitem (d : SortedDict) (k : T) : result SortedDict :=
  match d with
  | [] => Raise KeyError
  | (k', v') :: d' =>
      if teqb k k' then Ok d'
      else d'' <- delitem d' k ;; Ok ((k', v') :: d'')
  end.

(** [d.islice(i, j)] does not copy the keys: sortedcontainers returns
    [map(_lists[0].__getitem__, range(i, j))], an iterator over the
    ranks [i] to [j - 1] of the list that holds the keys.  [islice] is
    that range; [islice_next d r] is one step of the iterator on the
    dictionary as it is at that moment: the key that has rank [r] now,
    or the [IndexError] of [list.__getitem__] when the list has become
    shorter.  (sortedcontainers keeps the keys in one list up to a
    thousand keys, and splits it into several beyond; the model is that
    of the single list.  No difference shows when every key is read
    before the first insertion or deletion.) *)
Definition islice (d : SortedDict) (i j : nat) : list nat := seq i (j - i).

Definition islice_next (d : SortedDict) (r : nat) : result T :=
  match nth_error (keys d) r with
  | Some k => Ok k
  | None => Raise IndexError
  end.

(** [d.peekitem(0)] and [d.peekitem(-1)]. *)
Definition peek_first (d : SortedDict) : result (T * value) :=
  match d with
  | [] => Raise IndexError
  | kv :: _ => Ok kv
  end.

Definition peek_last (d : SortedDict) : result (T * value) :=
  match rev d with
  | [] => Raise IndexError
  | kv :: _ => Ok kv
  end.

(** [SortedDict(data)]: later pairs win at equal keys. *)
Definition from_items (data : list (T * value)) : SortedDict :=
  fold_left (fun d kv => setitem d (fst kv) (snd kv)) data [].

End SortedDict.

(* ------------------------------------------------------------------ *)
(** ** TimeSeries *)

(** The [default] argument of the constructor: the module-level sentinel
    [EXTEND_BACK] or an explicit value. *)
Inductive Default : Type :=
| EXTEND_BACK
| Explicit (v : value).

Record TimeSeries (T : Type) : Type := mkTS {
  _d : list (T * value);
  _default : Default
}.
Arguments mkTS {T} _d _default.
Arguments _d {T} t.
Arguments _default {T} t.

(** The [value] argument of [iterperiods]: [None], a callable, or a
    constant to compare with. *)
Inductive value_arg (T : Type) : Type :=
| NoFilter
| Callable (f : T -> T -> value -> bool)
| Constant (c : value).
Arguments NoFilter {T}.
Arguments Callable {T} f.
Arguments Constant {T} c.

Inductive bound : Type := Lower | Upper.

Section TimeSeries.
Context {T : Type} `{TimeType T}.

Local Abbreviation TS := (TimeSeries T).
Local Abbreviation period := (T * T * value)%type.

Definition with_d (ts : TS) (d : SortedDict) : TS := mkTS d (_default ts).

Definition len (ts : TS) : nat := length (_d ts).

Definition items (ts : TS) : list (T * value) := _d ts.

Definition is_floating (ts : TS) : bool :=
  match _default ts with
  | EXTEND_BACK => Nat.eqb (len ts) 0
  | Explicit _ => false
  end.

Definition first_item (ts : TS) : result (T * value) := peek_first (_d ts).
Definition last_item (ts : TS) : result (T * value) := peek_last (_d ts).

(** The [default] property. *)
Definition default (ts : TS) : result value :=
  if is_floating ts then Raise KeyError
  else match _default ts with
       | EXTEND_BACK => kv <- first_item ts ;; Ok (snd kv)
       | Explicit v => Ok v
       end.

(** [_get_previous]; a rank is a natural number here, so the branch
    for a negative [right_index] does not exist. *)
Definition _get_previous (ts : TS) (time : T) : result value :=
  let right_index := bisect_right (_d ts) time in
  let left_index := right_index - 1 in
  if 0 <? right_index then
    left_time <- iloc (_d ts) left_index ;;
    left_value <- getitem (_d ts) left_time ;;
    Ok left_value
  else default ts.

(** [get(time)] with the default [interpolate='previous'], which is
    also [ts[time]]. *)
Definition get (ts : TS) (time : T) : result value := _get_previous ts time.

Definition set (ts : TS) (time : T) (v : value) (compact : bool)
  : result TS :=
  if Nat.eqb (len ts) 0 then Ok (with_d ts (setitem (_d ts) time v))
  else if negb compact then Ok (with_d ts (setitem (_d ts) time v))
  else
    cur <- get ts time ;;
    if compact && py_ne cur v
    then Ok (with_d ts (setitem (_d ts) time v))
    else Ok ts.

(** [remove(time)], which is also [del ts[time]]. *)
Definition remove (ts : TS) (time : T) : result TS :=
  match delitem (_d ts) time with
  | Ok d' => Ok (with_d ts d')
  | Raise _ => Raise KeyError
  end.

Definition _value_function (a : value_arg T) : T -> T -> value -> bool :=
  match a with
  | NoFilter => fun _ _ _ => true
  | Callable f => f
  | Constant c => fun _ _ value_ => py_eq value_ c
  end.

Definition _check_boundary (ts : TS) (v : option T) (allow_infinite : bool)
           (lower_or_upper : bound) : result T :=
  match v with
  | None =>
      if allow_infinite then
        Ok (match lower_or_upper with Lower => neg_inf | Upper => pos_inf end)
      else
        match (match lower_or_upper with
               | Lower => first_item ts
               | Upper => last_item ts
               end) with
        | Ok kv => Ok (fst kv)
        | Raise _ => Raise KeyError
        end
  | Some t => Ok t
  end.

(** [Domain()]: a series of booleans with default [False]. *)
Definition Domain_new : TS := mkTS [] (Explicit (VBool false)).

(** [_check_boundaries] without a mask. *)
Definition _check_boundaries (ts : TS) (start end_ : option T)
           (allow_infinite : bool) : result (T * T * TS) :=
  start <- _check_boundary ts start allow_infinite Lower ;;
  end_ <- _check_boundary ts end_ allow_infinite Upper ;;
  if tge start end_ then Raise ValueError
  else
    m <- set Domain_new start (VBool true) false ;;
    m <- set m end_ (VBool false) false ;;
    Ok (start, end_, m).

(** The body of the generator [iterperiods] after its set-up, run
    against a consumer.  [body] is what the consumer's loop does with a
    yielded period; it may change the series.  When the generator
    resumes it reads [self[interval_t0]] from the series as the body
    left it, and then asks the [islice] iterator for the next key, which
    is read from the dictionary as the body left it too.  [rest] is the
    ranks that the iterator has still to read. *)
Fixpoint iterperiods_loop {A : Type} (value_function : T -> T -> value -> bool)
         (body : A -> period -> TS -> result (A * TS))
         (rest : list nat) (end_ : T)
         (interval_t0 : T) (interval_value : value)
         (acc : A) (ts : TS) {struct rest} : result (A * TS) :=
  match rest with
  | rank :: rest' =>
      interval_t1 <- islice_next (_d ts) rank ;;
      st <- (if value_function interval_t0 interval_t1 interval_value
             then body acc (interval_t0, interval_t1, interval_value) ts
             else Ok (acc, ts)) ;;
      v' <- get (snd st) interval_t1 ;;
      iterperiods_loop value_function body rest' end_ interval_t1 v'
                       (fst st) (snd st)
  | [] =>
      if tlt interval_t0 end_ then
        if value_function interval_t0 end_ interval_value
        then body acc (interval_t0, end_, interval_value) ts
        else Ok (acc, ts)
      else Ok (acc, ts)
  end.

(** [for p in self.iterperiods(start, end, value): body]. *)
Definition for_iterperiods {A : Type} (ts : TS) (start end_ : option T)
           (a : value_arg T)
           (body : A -> period -> TS -> result (A * TS)) (acc : A)
  : result (A * TS) :=
  b <- _check_boundaries ts start end_ true ;;
  let start := fst (fst b) in
  let end_ := snd (fst b) in
  let value_function := _value_function a in
  let start_index := bisect_right (_d ts) start in
  start_value <- (if 0 <? start_index
                  then k <- iloc (_d ts) (start_index - 1) ;;
                       getitem (_d ts) k
                  else default ts) ;;
  let end_index := bisect_right (_d ts) end_ in
  iterperiods_loop value_function body
                   (islice (_d ts) start_index end_index) end_
                   start start_value acc ts.

(** [list(self.iterperiods(start, end, value))]: the consumer only
    collects. *)
Definition iterperiods (ts : TS) (start end_ : option T) (a : value_arg T)
  : result (list period) :=
  r <- for_iterperiods ts start end_ a
         (fun acc p ts' => Ok (acc ++ [p], ts')) [] ;;
  Ok (fst r).

(** The loop body of [set_interval]: the loop state is the counter of
    [enumerate] and the loop variable [v], unbound until the first
    period. *)
Definition set_interval_step (value_ : value) (compact : bool)
           (st : nat * option value) (p : period) (ts' : TS)
  : result ((nat * option value) * TS) :=
  let '(s, _, pv) := p in
  ts'' <- (if Nat.eqb (fst st) 0 then set ts' s value_ compact
           else remove ts' s) ;;
  Ok ((S (fst st), Some pv), ts'').

Definition set_interval (ts : TS) (start end_ : T) (v : value)
           (compact : bool) : result TS :=
  r <- for_iterperiods ts (Some start) (Some end_) NoFilter
         (set_interval_step v compact) (0, None) ;;
  match snd (fst r) with
  | Some last_v => set (snd r) end_ last_v compact
  | None => Raise NameError
  end.

(** The loop body of [remove_points_from_interval]: [del self._d[s]],
    ignoring a [KeyError]. *)
Definition try_del (_ : unit) (p : period) (ts' : TS) : result (unit * TS) :=
  let '(s, _, _) := p in
  match delitem (_d ts') s with
  | Ok d' => Ok (tt, with_d ts' d')
  | Raise KeyError => Ok (tt, ts')
  | Raise e => Raise e
  end.

(** [remove_points_from_interval], which is also [del ts[start:end]]. *)
Definition remove_points_from_interval (ts : TS) (start end_ : T)
  : result TS :=
  r <- for_iterperiods ts (Some start) (Some end_) NoFilter try_del tt ;;
  Ok (snd r).

(** The first loop of [compact]: [previous_value] starts as a fresh
    object, equal to nothing ([None] here). *)
Fixpoint redundant_times (previous_value : option value)
         (l : list (T * value)) : list T :=
  match l with
  | [] => []
  | (time, v) :: l' =>
      let r := redundant_times (Some v) l' in
      match previous_value with
      | Some pv => if py_eq v pv then time :: r else r
      | None => r
      end
  end.

Fixpoint remove_all (ts : TS) (times : list T) : result TS :=
  match times with
  | [] => Ok ts
  | time :: times' => ts' <- remove ts time ;; remove_all ts' times'
  end.

Definition compact (ts : TS) : result TS :=
  remove_all ts (redundant_times None (items ts)).

(** The loop body of [slice]: the loop state is the result under
    construction and the loop variable [t1]. *)
Definition slice_step (st : TS * option T) (p : period) (ts' : TS)
  : result ((TS * option T) * TS) :=
  let '(t0, t1, v) := p in
  res <- set (fst st) t0 v false ;;
  Ok ((res, Some t1), ts').

(** [slice(start, end)] *)
Definition slice (ts : TS) (start end_ : T) : result TS :=
  b <- _check_boundaries ts (Some start) (Some end_) true ;;
  dflt <- default ts ;;
  r <- for_iterperiods ts (Some start) (Some end_) NoFilter
         slice_step (mkTS [] (Explicit dflt), None) ;;
  match snd (fst r) with
  | Some t1 =>
      v1 <- get ts t1 ;;
      set (fst (fst r)) t1 v1 false
  | None => Raise NameError
  end.

(** *** Domain: a series of booleans with default [False] *)

(** [Domain.start()] and [Domain.end()], which are also the properties
    [lower] and [upper]. *)
Definition Domain_start (ts : TS) : T :=
  match first_item ts with
  | Ok kv => fst kv
  | Raise _ => neg_inf
  end.

Definition Domain_end (ts : TS) : T :=
  match last_item ts with
  | Ok kv => fst kv
  | Raise _ => pos_inf
  end.

Definition Domain_lower (ts : TS) : T := Domain_start ts.
Definition Domain_upper (ts : TS) : T := Domain_end ts.

(** The two loops of [Domain.__and__].  [value and other[time]] does not
    read [other] when [value] is false. *)
Fixpoint and_with_other (other : TS) (its : list (T * value)) (res : TS)
  : result TS :=
  match its with
  | [] => Ok res
  | (time, v) :: its' =>
      x <- (if truthy v then get other time else Ok v) ;;
      res' <- set res time x false ;;
      and_with_other other its' res'
  end.

Fixpoint and_with_self (self : TS) (its : list (T * value)) (res : TS)
  : result TS :=
  match its with
  | [] => Ok res
  | (time, v) :: its' =>
      a <- get self time ;;
      res' <- set res time (py_and a v) false ;;
      and_with_self self its' res'
  end.

(** [Domain.__and__] *)
Definition Domain_and (self other : TS) : result TS :=
  let lower := tmax (Domain_lower self) (Domain_lower other) in
  let upper := tmin (Domain_upper self) (Domain_upper other) in
  if tge lower upper then Ok Domain_new
  else
    s1 <- slice self lower upper ;;
    r1 <- and_with_other other (items s1) Domain_new ;;
    s2 <- slice other lower upper ;;
    and_with_self self (items s2) r1.

End TimeSeries.

(* ------------------------------------------------------------------ *)
(** ** The n-ary merge *)

(** An item of the priority queue of [_iter_merge]: the tuple
    [(t, index, value, iterator)], the iterator being what is left of the
    series. *)
Record entry (T : Type) : Type := mkEntry {
  e_t : T;
  e_index : nat;
  e_value : value;
  e_iterator : list (T * value)
}.
Arguments mkEntry {T} e_t e_index e_value e_iterator.
Arguments e_t {T} e.
Arguments e_index {T} e.
Arguments e_value {T} e.
Arguments e_iterator {T} e.

(** How a generator ends: it is exhausted, or an exception leaves it. *)
Inductive gen_end : Type :=
| Exhausted
| Raised (e : exn).

Section Merge.
Context {T : Type} `{TimeType T}.

Local Abbreviation TS := (TimeSeries T).

(** Python compares the tuples from the left: the time, then the series
    index.  No two items of the queue share an index, so the comparison
    never reaches the value. *)
Definition entry_lt (a b : entry T) : bool :=
  tlt (e_t a) (e_t b) || (teqb (e_t a) (e_t b) && (e_index a <? e_index b)).

(** [queue.PriorityQueue] by its contract: [get] returns the least
    item.  The queue is kept in ascending order. *)
Fixpoint queue_put (e : entry T) (queue : list (entry T)) : list (entry T) :=
  match queue with
  | [] => [e]
  | x :: queue' =>
      if entry_lt e x then e :: queue else x :: queue_put e queue'
  end.

Definition queue_measure (queue : list (entry T)) : nat :=
  list_sum (map (fun e => S (length (e_iterator e))) queue).

Lemma queue_measure_put (e : entry T) (queue : list (entry T)) :
  queue_measure (queue_put e queue)
  = S (length (e_iterator e)) + queue_measure queue.
Proof.
  unfold queue_measure. induction queue as [|x queue IH]; simpl; trivial.
  destruct (entry_lt e x); simpl; [trivial|]. rewrite IH. lia.
Qed.

(** [state[index] = value] on a Python list. *)
Fixpoint list_set (l : list value) (i : nat) (v : value)
  : result (list value) :=
  match l, i with
  | [], _ => Raise IndexError
  | _ :: l', 0 => Ok (v :: l')
  | x :: l', S i' => l'' <- list_set l' i' v ;; Ok (x :: l'')
  end.

(** The end of an iteration of [_iter_merge]: the next measurement of the
    series that was just read, if any, goes on the queue. *)
Definition next_queue (e : entry T) (queue : list (entry T))
  : list (entry T) :=
  match e_iterator e with
  | [] => queue
  | (t, v) :: it => queue_put (mkEntry t (e_index e) v it) queue
  end.

Lemma next_queue_measure (e : entry T) (queue : list (entry T)) :
  queue_measure (next_queue e queue) < queue_measure (e :: queue).
Proof.
  unfold next_queue. destruct (e_iterator e) as [|[t v] it] eqn:E.
  - unfold queue_measure. simpl. lia.
  - rewrite queue_measure_put. unfold queue_measure. simpl. rewrite E.
    simpl. lia.
Qed.

Definition push_yield {A : Type} (y : A) (r : list A * gen_end)
  : list A * gen_end :=
  (y :: fst r, snd r).

(** The [while not queue.empty()] loop of [_iter_merge].  The yields
    carry the series index next to [(t, state)]. *)
Equations? merge_loop (queue : list (entry T)) (state : list value)
  : list (T * nat * list value) * gen_end
  by wf (queue_measure queue) lt :=
  merge_loop [] state := ([], Exhausted);
  merge_loop (e :: queue') state
    with list_set state (e_index e) (e_value e) => {
    | Raise x := ([], Raised x);
    | Ok state' :=
        push_yield (e_t e, e_index e, state')
                   (merge_loop (next_queue e queue') state') }.
Proof. apply next_queue_measure. Qed.

(** The first loop of [_iter_merge]: the first measurement of each
    non-empty series goes on the queue. *)
Fixpoint seed_queue (index : nat) (l : list TS) (queue : list (entry T))
  : list (entry T) :=
  match l with
  | [] => queue
  | ts :: l' =>
      seed_queue (S index) l'
        (match items ts with
         | [] => queue
         | (t, v) :: it => queue_put (mkEntry t index v it) queue
         end)
  end.

(** [[ts.default for ts in timeseries_list]] *)
Fixpoint defaults (l : list TS) : result (list value) :=
  match l with
  | [] => Ok []
  | ts :: l' => d <- default ts ;; ds <- defaults l' ;; Ok (d :: ds)
  end.

Definition _iter_merge_indexed (l : list TS)
  : list (T * nat * list value) * gen_end :=
  let queue := seed_queue 0 l [] in
  match defaults l with
  | Ok state => merge_loop queue state
  | Raise e => ([], Raised e)
  end.

(** [_iter_merge]: the yields [(t, state)] and how the generator ends. *)
Definition _iter_merge (l : list TS) : list (T * list value) * gen_end :=
  let r := _iter_merge_indexed l in
  (map (fun y => (fst (fst y), snd y)) (fst r), snd r).

(** The loop of [iter_merge] over the yields of [_iter_merge]:
    [previous] is [None] before the first yield ([index = -1]). *)
Fixpoint collapse_ties (previous : option (T * list value))
         (ys : list (T * list value)) (e : gen_end)
  : list (T * list value) * gen_end :=
  match ys with
  | [] =>
      match e with
      | Exhausted =>
          (match previous with Some p => [p] | None => [] end, Exhausted)
      | Raised x => ([], Raised x)
      end
  | (t, st) :: ys' =>
      let r := collapse_ties (Some (t, st)) ys' e in
      match previous with
      | Some (pt, pst) =>
          if negb (teqb t pt) then push_yield (pt, pst) r else r
      | None => r
      end
  end.

Definition iter_merge (l : list TS) : list (T * list value) * gen_end :=
  match l with
  | [] => ([], Exhausted)
  | _ =>
      if existsb is_floating l then ([], Raised KeyError)
      else let r := _iter_merge l in collapse_ties None (fst r) (snd r)
  end.

(** Equality of two [_default] attributes, as the [set] of [merge] sees
    it. *)
Definition default_eqb (a b : Default) : bool :=
  match a, b with
  | EXTEND_BACK, EXTEND_BACK => true
  | Explicit x, Explicit y => py_eq x y
  | _, _ => false
  end.

(** What [set] can hold: the sentinel [EXTEND_BACK], [None], booleans
    and integers; a list is not hashable. *)
Definition default_hashable (d : Default) : bool :=
  match d with
  | Explicit (VList _) => false
  | _ => true
  end.

(** The default of the merged series when none is given:
    [set(ts._default for ts in ts_list)] raises [TypeError] at a default
    that is not hashable; otherwise the result is the common default of
    the inputs, else [EXTEND_BACK]. *)
Definition merge_default (l : list TS) : result Default :=
  if forallb (fun ts => default_hashable (_default ts)) l then
    match l with
    | [] => Ok EXTEND_BACK
    | ts :: l' =>
        if forallb (fun ts' => default_eqb (_default ts) (_default ts')) l'
        then Ok (_default ts) else Ok EXTEND_BACK
    end
  else Raise TypeError.

Fixpoint merge_writes (compact : bool)
         (operation : option (list value -> value))
         (ys : list (T * list value)) (res : TS) : result TS :=
  match ys with
  | [] => Ok res
  | (t, merged) :: ys' =>
      let v := match operation with
               | None => VList merged
               | Some f => f merged
               end in
      res' <- set res t v compact ;;
      merge_writes compact operation ys' res'
  end.

(** [merge(ts_list, compact, operation, default)]; [compact] defaults to
    [True], the other two to [None]. *)
Definition merge (ts_list : list TS) (compact : bool)
           (operation : option (list value -> value))
           (default_ : option Default) : result TS :=
  match ts_list with
  | [] =>
      Ok (mkTS [] (match default_ with
                   | Some d => d
                   | None => Explicit VNone
                   end))
  | _ =>
      dflt <- match default_ with
              | Some d => Ok d
              | None => merge_default ts_list
              end ;;
      let r := iter_merge ts_list in
      res <- merge_writes compact operation (fst r) (mkTS [] dflt) ;;
      match snd r with
      | Exhausted => Ok res
      | Raised x => Raise x
      end
  end.

End Merge.

(* ------------------------------------------------------------------ *)
(** ** Python operators used by the element-wise operations *)

(** [x or y] returns [x] when [x] is true, else [y]. *)
Definition py_or (x y : value) : value := if truthy x then x else y.

(** [int(x)]: defined on booleans and integers. *)
Definition py_int (x : value) : result value :=
  match x with
  | VBool b => Ok (VInt (Z.b2z b))
  | VInt z => Ok (VInt z)
  | _ => Raise TypeError
  end.

(** The integer behind a number. *)
Definition as_number (x : value) : option Z :=
  match x with
  | VBool b => Some (Z.b2z b)
  | VInt z => Some z
  | _ => None
  end.

(** [x - y] *)
Definition py_sub (x y : value) : result value :=
  match as_number x, as_number y with
  | Some a, Some b => Ok (VInt (a - b))
  | _, _ => Raise TypeError
  end.

(** [x * y]: the product of two numbers, or a list repeated. *)
Definition py_mul (x y : value) : result value :=
  match x, y with
  | VList l, _ =>
      match as_number y with
      | Some n => Ok (VList (concat (repeat l (Z.to_nat n))))
      | None => Raise TypeError
      end
  | _, VList l =>
      match as_number x with
      | Some n => Ok (VList (concat (repeat l (Z.to_nat n))))
      | None => Raise TypeError
      end
  | _, _ =>
      match as_number x, as_number y with
      | Some a, Some b => Ok (VInt (a * b))
      | _, _ => Raise TypeError
      end
  end.

(** [x > y] ([strict]) and [x >= y]: numbers compare by value, lists
    compare at the first position where they differ, anything else is a
    [TypeError]. *)
Fixpoint py_order (strict : bool) (x y : value) {struct x} : result bool :=
  match x, y with
  | VList l1, VList l2 =>
      (fix go (l1 l2 : list value) {struct l1} : result bool :=
         match l1, l2 with
         | [], [] => Ok (negb strict)
         | [], _ :: _ => Ok false
         | _ :: _, [] => Ok true
         | a :: l1', b :: l2' =>
             if py_eq a b then go l1' l2' else py_order strict a b
         end) l1 l2
  | _, _ =>
      match as_number x, as_number y with
      | Some a, Some b => Ok (if strict then Z.ltb b a else Z.leb b a)
      | _, _ => Raise TypeError
      end
  end.

(* ------------------------------------------------------------------ *)
(** ** Comparison, counting, masks and element-wise operations *)

(** The [mask] argument: a plain [TimeSeries], which [_check_boundaries]
    converts with [to_domain], or a [Domain]. *)
Inductive mask_arg (T : Type) : Type :=
| MaskSeries (m : TimeSeries T)
| MaskDomain (m : TimeSeries T).
Arguments MaskSeries {T} m.
Arguments MaskDomain {T} m.

(** The [other] argument of [operation]: a series or a constant. *)
Inductive operand (T : Type) : Type :=
| OtherSeries (o : TimeSeries T)
| OtherConstant (c : value).
Arguments OtherSeries {T} o.
Arguments OtherConstant {T} c.

Section Operations.
Context {T : Type} `{TimeType T}.

Local Abbreviation TS := (TimeSeries T).
Local Abbreviation period := (T * T * value)%type.

(** [TimeSeries(data, default)] *)
Definition TimeSeries_new (data : list (T * value)) (default_ : Default)
  : TS :=
  mkTS (from_items data) default_.

Definition n_measurements (ts : TS) : nat := length (_d ts).

(** Equality of two lists of [(time, value)] tuples. *)
Fixpoint items_eq (l1 l2 : list (T * value)) : bool :=
  match l1, l2 with
  | [], [] => true
  | (k1, v1) :: l1', (k2, v2) :: l2' =>
      teqb k1 k2 && py_eq v1 v2 && items_eq l1' l2'
  | _, _ => false
  end.

(** [self == other] and [self != other]. *)
Definition __eq__ (self other : TS) : bool :=
  items_eq (items self) (items other).

Definition __ne__ (self other : TS) : bool := negb (__eq__ self other).

(** [Domain.intervals()]: the periods whose value is [== True].  The
    generator is run to its end; it cannot raise after its first yield. *)
Definition intervals (ts : TS) : result (list (T * T)) :=
  ps <- iterperiods ts None None (Constant (VBool true)) ;;
  Ok (map fst ps).

(** [Domain.is_empty()] *)
Definition is_empty (ts : TS) : result bool :=
  ivs <- intervals ts ;;
  Ok (match ivs with [] => true | _ :: _ => false end).

(** The loop body of [to_domain]; the loop state is the result. *)
Definition to_domain_step (res : TS) (p : period) (ts' : TS)
  : result (TS * TS) :=
  let '(t0, t1, v) := p in
  if truthy v then
    res' <- set res t0 (VBool true) true ;;
    res'' <- set res' t1 (VBool false) true ;;
    Ok (res'', ts')
  else Ok (res, ts').

Definition to_domain (ts : TS) (start end_ : option T) : result TS :=
  r <- for_iterperiods ts start end_ NoFilter to_domain_step Domain_new ;;
  Ok (fst r).

(** [_check_boundaries] with its [mask] argument. *)
Definition _check_boundaries_mask (ts : TS) (start end_ : option T)
           (mask : option (mask_arg T)) (allow_infinite : bool)
  : result (T * T * TS) :=
  mask <- match mask with
          | Some (MaskSeries m) => d <- to_domain m None None ;; Ok (Some d)
          | Some (MaskDomain d) => Ok (Some d)
          | None => Ok None
          end ;;
  empty <- match mask with
           | Some d => is_empty d
           | None => Ok false
           end ;;
  if empty then Raise ValueError
  else
    match start, end_, mask with
    | None, None, Some d => Ok (Domain_lower d, Domain_upper d, d)
    | _, _, _ =>
        start <- _check_boundary ts start allow_infinite Lower ;;
        end_ <- _check_boundary ts end_ allow_infinite Upper ;;
        if tge start end_ then Raise ValueError
        else
          m <- set Domain_new start (VBool true) false ;;
          m <- set m end_ (VBool false) false ;;
          match mask with
          | None => Ok (start, end_, m)
          | Some d => r <- Domain_and d m ;; Ok (start, end_, r)
          end
    end.

(** [n_points] with [normalized=False]; [start] and [end] default to
    the two infinities. *)
Definition n_points (ts : TS) (start end_ : option T)
           (mask : option (mask_arg T)) (include_start include_end : bool)
  : result Z :=
  if Nat.eqb (n_measurements ts) 0 then Ok 0%Z
  else
    b <- _check_boundaries_mask ts start end_ mask false ;;
    ivs <- intervals (snd b) ;;
    Ok (fold_left
          (fun count iv =>
             let end_count :=
               if include_end then bisect_right (_d ts) (snd iv)
               else bisect_left (_d ts) (snd iv) in
             let start_count :=
               if include_start then bisect_left (_d ts) (fst iv)
               else bisect_right (_d ts) (fst iv) in
             (count + (Z.of_nat end_count - Z.of_nat start_count))%Z)
          ivs 0%Z).

(** The loops of [operation]: [result[time] = function(...)]. *)
Fixpoint operation_self (function : value -> value -> result value)
         (other : TS) (its : list (T * value)) (res : TS) : result TS :=
  match its with
  | [] => Ok res
  | (time, v) :: its' =>
      o <- get other time ;;
      x <- function v o ;;
      res' <- set res time x false ;;
      operation_self function other its' res'
  end.

Fixpoint operation_other (function : value -> value -> result value)
         (self : TS) (its : list (T * value)) (res : TS) : result TS :=
  match its with
  | [] => Ok res
  | (time, v) :: its' =>
      a <- get self time ;;
      x <- function a v ;;
      res' <- set res time x false ;;
      operation_other function self its' res'
  end.

Fixpoint operation_constant (function : value -> value -> result value)
         (other : value) (its : list (T * value)) (res : TS) : result TS :=
  match its with
  | [] => Ok res
  | (time, v) :: its' =>
      x <- function v other ;;
      res' <- set res time x false ;;
      operation_constant function other its' res'
  end.

(** [operation(other, function, **kwargs)]; the keyword arguments are
    those of the constructor, [data] and [default]. *)
Definition operation (self : TS) (other : operand T)
           (function : value -> value -> result value)
           (data : list (T * value)) (default_ : Default) : result TS :=
  let res := TimeSeries_new data default_ in
  match other with
  | OtherSeries o =>
      r <- operation_self function o (items self) res ;;
      operation_other function self (items o) r
  | OtherConstant c => operation_constant function c (items self) res
  end.

Definition to_bool (self : TS) (invert : bool) : result TS :=
  operation self (OtherConstant VNone)
            (fun x _ => Ok (VBool (if invert then negb (truthy x)
                                   else truthy x)))
            [] EXTEND_BACK.

Definition threshold (self : TS) (v : value) (inclusive : bool) : result TS :=
  operation self (OtherConstant v)
            (fun x y => b <- py_order (negb inclusive) x y ;; Ok (VBool b))
            [] EXTEND_BACK.

Definition difference (self : TS) (other : operand T) : result TS :=
  operation self other py_sub [] EXTEND_BACK.

Definition multiply (self : TS) (other : operand T) : result TS :=
  operation self other py_mul [] EXTEND_BACK.

Definition logical_and (self : TS) (other : operand T) : result TS :=
  operation self other (fun x y => py_int (py_and x y)) [] EXTEND_BACK.

Definition logical_or (self : TS) (other : operand T) : result TS :=
  operation self other (fun x y => py_int (py_or x y)) [] EXTEND_BACK.

Definition logical_xor (self : TS) (other : operand T) : result TS :=
  operation self other
            (fun x y => Ok (VInt (Z.b2z (xorb (truthy x) (truthy y)))))
            [] EXTEND_BACK.

End Operations.

(* ------------------------------------------------------------------ *)
(** ** Point reads and writes over values with a float NaN

    [value] holds the values that equal themselves.  A float NaN does
    not: [nan == nan] is false.  The point operations never look into a
    value except through [==], so they are embedded here a second time,
    word for word, over the values extended with NaN, for the one
    property of [set] that depends on [v == v]. *)

Module NaN.

Inductive fvalue : Type :=
| Plain (v : value)
| Nan.

(** [==]: a NaN equals nothing, itself included. *)
Definition py_eq (x y : fvalue) : bool :=
  match x, y with
  | Plain a, Plain b => py_eq a b
  | _, _ => false
  end.

Definition py_ne (x y : fvalue) : bool := negb (py_eq x y).

Inductive Default : Type :=
| EXTEND_BACK
| Explicit (v : fvalue).

Record TimeSeries (T : Type) : Type := mkTS {
  _d : list (T * fvalue);
  _default : Default
}.
Arguments mkTS {T} _d _default.
Arguments _d {T} t.
Arguments _default {T} t.

Section Points.
Context {T : Type} `{TimeType T}.

Local Abbreviation TS := (TimeSeries T).
Local Abbreviation SortedDict := (list (T * fvalue)).

Definition keys (d : SortedDict) : list T := map fst d.

Fixpoint bisect_right (d : SortedDict) (t : T) : nat :=
  match d with
  | [] => 0
  | (k, _) :: d' => if tlt t k then 0 else S (bisect_right d' t)
  end.

Definition iloc (d : SortedDict) (i : nat) : result T :=
  match nth_error (keys d) i with
  | Some k => Ok k
  | None => Raise IndexError
  end.

Fixpoint getitem (d : SortedDict) (k : T) : result fvalue :=
  match d with
  | [] => Raise KeyError
  | (k', v) :: d' => if teqb k k' then Ok v else getitem d' k
  end.

Fixpoint setitem (d : SortedDict) (k : T) (v : fvalue) : SortedDict :=
  match d with
  | [] => [(k, v)]
  | (k', v') :: d' =>
      if tlt k k' then (k, v) :: d
      else if tlt k' k then (k', v') :: setitem d' k v
      else (k', v) :: d'
  end.

Definition peek_first (d : SortedDict) : result (T * fvalue) :=
  match d with
  | [] => Raise IndexError
  | kv :: _ => Ok kv
  end.

Definition with_d (ts : TS) (d : SortedDict) : TS := mkTS d (_default ts).

Definition len (ts : TS) : nat := length (_d ts).

Definition items (ts : TS) : list (T * fvalue) := _d ts.

Definition is_floating (ts : TS) : bool :=
  match _default ts with
  | EXTEND_BACK => Nat.eqb (len ts) 0
  | Explicit _ => false
  end.

Definition first_item (ts : TS) : result (T * fvalue) := peek_first (_d ts).

Definition default (ts : TS) : result fvalue :=
  if is_floating ts then Raise KeyError
  else match _default ts with
       | EXTEND_BACK => kv <- first_item ts ;; Ok (snd kv)
       | Explicit v => Ok v
       end.

Definition _get_previous (ts : TS) (time : T) : result fvalue :=
  let right_index := bisect_right (_d ts) time in
  let left_index := right_index - 1 in
  if 0 <? right_index then
    left_time <- iloc (_d ts) left_index ;;
    left_value <- getitem (_d ts) left_time ;;
    Ok left_value
  else default ts.

Definition get (ts : TS) (time : T) : result fvalue := _get_previous ts time.

Definition set (ts : TS) (time : T) (v : fvalue) (compact : bool)
  : result TS :=
  if Nat.eqb (len ts) 0 then Ok (with_d ts (setitem (_d ts) time v))
  else if negb compact then Ok (with_d ts (setitem (_d ts) time v))
  else
    cur <- get ts time ;;
    if compact && py_ne cur v
    then Ok (with_d ts (setitem (_d ts) time v))
    else Ok ts.

End Points.

End NaN.

(* ------------------------------------------------------------------ *)
(** ** A concrete time type: rational numbers with the two infinities

    Integer, float and datetime keys of the tests embed in it. *)

Inductive etime : Type :=
| NegInf
| At (q : Qc)
| PosInf.

Definition etime_lt (a b : etime) : bool :=
  match a, b with
  | NegInf, NegInf => false
  | NegInf, _ => true
  | At _, NegInf => false
  | At x, At y => match Qccompare x y with Lt => true | _ => false end
  | At _, PosInf => true
  | PosInf, _ => false
  end.

Lemma etime_lt_irrefl : forall x, etime_lt x x = false.
Proof.
  intros [|q|]; simpl; trivial.
  assert (E : Qccompare q q = Eq) by (apply Qceq_alt; reflexivity).
  now rewrite E.
Qed.

Lemma etime_lt_At (x y : Qc) : etime_lt (At x) (At y) = true <-> Qclt x y.
Proof.
  simpl. rewrite Qclt_alt. destruct (Qccompare x y); split; congruence.
Qed.

Lemma etime_lt_trans :
  forall x y z, etime_lt x y = true -> etime_lt y z = true -> etime_lt x z = true.
Proof.
  intros [|x|] [|y|] [|z|]; try (simpl; congruence).
  rewrite !etime_lt_At. apply Qclt_trans.
Qed.

Lemma etime_lt_total :
  forall x y, etime_lt x y = false -> etime_lt y x = false -> x = y.
Proof.
  intros [|x|] [|y|]; try (simpl; congruence).
  intros Hxy Hyx. f_equal.
  destruct (Qc_dec x y) as [[L|L]|E]; trivial.
  - apply etime_lt_At in L. congruence.
  - apply etime_lt_At in L. congruence.
Qed.

Lemma etime_neg_inf_least : forall x, etime_lt x NegInf = false.
Proof. now intros [|x|]. Qed.

Lemma etime_pos_inf_greatest : forall x, etime_lt PosInf x = false.
Proof. now intros [|x|]. Qed.

#[export] Instance etime_TimeType : TimeType etime := {
  tlt := etime_lt;
  neg_inf := NegInf;
  pos_inf := PosInf;
  tlt_irrefl := etime_lt_irrefl;
  tlt_trans := etime_lt_trans;
  tlt_total := etime_lt_total;
  neg_inf_least := etime_neg_inf_least;
  pos_inf_greatest := etime_pos_inf_greatest
}.

(** Literals: [tz n] is the integer time [n], [tq n d] the time [n/d]. *)
Definition tz (n : Z) : etime := At (Q2Qc (inject_Z n)).
Definition tq (n : Z) (d : positive) : etime := At (Q2Qc (Qmake n d)).

(** Series of the test suite ([tests/test_traces.py]). *)
Definition ex_init_data : TimeSeries etime :=
  mkTS (from_items [(tz 1, VInt 2); (tz 2, VInt 3); (tz 6, VInt 1);
                    (tz 8, VInt 4)]) EXTEND_BACK.

Definition ex_remove_points : TimeSeries etime :=
  mkTS (from_items [(tz 0, VInt 0); (tz 1, VInt 2); (tz 3, VInt 1);
                    (tz 4, VInt 0)]) (Explicit (VInt 0)).

(** A two-point series whose second key is used as an interval end. *)
Definition ex_two_points : TimeSeries etime :=
  mkTS (from_items [(tz 0, VInt 1); (tz 2, VInt 3)]) EXTEND_BACK.

(** Two domains: [[0, 2)] with and without a redundant point at 1. *)
Definition ex_domain_a : TimeSeries etime :=
  mkTS (from_items [(tz 0, VBool true); (tz 2, VBool false)])
       (Explicit (VBool false)).

Definition ex_domain_b : TimeSeries etime :=
  mkTS (from_items [(tz 0, VBool true); (tz 1, VBool true);
                    (tz 2, VBool false)])
       (Explicit (VBool false)).

(** A series with a repeated value. *)
Definition ex_repeated : TimeSeries etime :=
  mkTS (from_items [(tz 0, VInt 1); (tz 1, VInt 1); (tz 2, VInt 5)])
       EXTEND_BACK.

(** [TimeSeries()]: no measurement and no default. *)
Definition ex_empty : TimeSeries etime := TimeSeries_new [] EXTEND_BACK.

(** The series of scenario S3 with one more measurement. *)
Definition ex_five_points : TimeSeries etime :=
  mkTS (from_items [(tz 0, VInt 0); (tz 1, VInt 2); (tz 3, VInt 1);
                    (tz 4, VInt 0); (tz 6, VInt 5)]) (Explicit (VInt 0)).

(** The series of [test_init_data] with a list as its default. *)
Definition ex_list_default : TimeSeries etime :=
  mkTS (_d ex_init_data) (Explicit (VList [])).

(** A series that holds a float NaN. *)
Definition ex_nan : NaN.TimeSeries etime :=
  NaN.mkTS [(tz 0, NaN.Nan)] NaN.EXTEND_BACK.

(* ------------------------------------------------------------------ *)
(** ** Vocabulary of the statements *)

Section Vocabulary.
Context {T : Type} `{TimeType T}.

(** The measurement at the greatest key [<= t], if there is one. *)
Fixpoint floor (d : list (T * value)) (t : T) : option (T * value) :=
  match d with
  | [] => None
  | (k, v) :: d' =>
      if tlt t k then None
      else match floor d' t with
           | Some kv => Some kv
           | None => Some (k, v)
           end
  end.

(** [d] without the key [k], whether or not it is there. *)
Definition discard (d : list (T * value)) (k : T) : list (T * value) :=
  filter (fun kv => negb (teqb (fst kv) k)) d.

Definition has_key (d : list (T * value)) (k : T) : bool :=
  existsb (fun kv => teqb (fst kv) k) d.

(** The recorded keys strictly between [lo] and [hi], and those in the
    half-open window [(lo, hi]]. *)
Definition keys_between (lo hi : T) (d : list (T * value)) : list T :=
  filter (fun k => tlt lo k && tlt k hi) (keys d).

Definition keys_upto (lo hi : T) (d : list (T * value)) : list T :=
  filter (fun k => tlt lo k && tle k hi) (keys d).

(** [t0 :: rest] is strictly ascending and stays [<= hi]. *)
Fixpoint chain_ok (hi t0 : T) (rest : list T) : Prop :=
  match rest with
  | [] => tlt hi t0 = false
  | t1 :: rest' => tlt t0 t1 = true /\ chain_ok hi t1 rest'
  end.

(** The keys of the window [[s, e)]. *)
Definition in_window (s e : T) (kv : T * value) : bool :=
  tle s (fst kv) && tlt (fst kv) e.

(** The value of the series at [k], for a series that has one. *)
Definition value_at (ts : TimeSeries T) (k : T) : value :=
  match get ts k with
  | Ok v => v
  | Raise _ => VNone
  end.

(** [d] after [d[k] = f k] for each [k] of [ks], in order. *)
Definition fill (f : T -> value) (ks : list T) (d : list (T * value))
  : list (T * value) :=
  fold_left (fun d k => setitem d k (f k)) ks d.

(** A [Domain] is a series with default [False]. *)
Definition is_domain (ts : TimeSeries T) : Prop :=
  _default ts = Explicit (VBool false).

(** [d] without the keys of [ks]. *)
Definition discard_all (d : list (T * value)) (ks : list T)
  : list (T * value) :=
  fold_left discard ks d.

(** Order of the yields of the merge: [(t, index)] pairs compare by
    time first and by series index at equal times. *)
Definition key_lt (a b : T * nat) : Prop :=
  tlt (fst a) (fst b) = true \/ (fst a = fst b /\ snd a < snd b).

(** Every element is below all the later ones. *)
Fixpoint lex_ascending (l : list (T * nat)) : Prop :=
  match l with
  | [] => True
  | x :: l' => (forall y, In y l' -> key_lt x y) /\ lex_ascending l'
  end.

Fixpoint ascending (l : list T) : Prop :=
  match l with
  | [] => True
  | x :: l' => (forall y, In y l' -> tlt x y = true) /\ ascending l'
  end.

Fixpoint nondecreasing (l : list T) : Prop :=
  match l with
  | [] => True
  | x :: l' => (forall y, In y l' -> tlt y x = false) /\ nondecreasing l'
  end.

Definition entry_key (e : entry T) : T * nat := (e_t e, e_index e).

(** An item of the queue carries a sorted rest of its series, all later
    than the item, and the index of one of the [n] series. *)
Definition entry_ok (n : nat) (e : entry T) : Prop :=
  sorted_keys ((e_t e, e_value e) :: e_iterator e) = true /\ e_index e < n.

Definition yield_key (y : T * nat * list value) : T * nat := fst y.

(** A series is well formed when its dictionary is sorted, which the
    sorted dictionary guarantees of every series the program builds. *)
Definition wf (ts : TimeSeries T) : Prop := sorted_keys (_d ts) = true.

(** No two consecutive measurements have equal values. *)
Fixpoint is_compact (d : list (T * value)) : bool :=
  match d with
  | [] => true
  | (_, v) :: d' =>
      match d' with
      | [] => true
      | (_, v') :: _ => negb (py_eq v' v) && is_compact d'
      end
  end.

(** The measurements that survive [compact]: a measurement is dropped
    when its value equals the value of the measurement just before it.
    [previous_value] is the value before the head of the list, if any. *)
Fixpoint compacted (previous_value : option value) (l : list (T * value))
  : list (T * value) :=
  match l with
  | [] => []
  | (k, v) :: l' =>
      let r := compacted (Some v) l' in
      match previous_value with
      | Some pv => if py_eq v pv then r else (k, v) :: r
      | None => (k, v) :: r
      end
  end.

(** Two outcomes agree when both raise the same exception or both return
    values that are [==]. *)
Definition same_outcome (a b : result value) : Prop :=
  match a, b with
  | Ok x, Ok y => py_eq x y = true
  | Raise e, Raise e' => e = e'
  | _, _ => False
  end.

End Vocabulary.

Section PeriodVocabulary.
Context {T : Type} `{TimeType T}.

(** The bound that [_check_boundaries] puts in place of [None] when
    infinite bounds are allowed. *)
Definition lower_bound (start : option T) : T :=
  match start with Some s => s | None => neg_inf end.

Definition upper_bound (end_ : option T) : T :=
  match end_ with Some e => e | None => pos_inf end.

(** The periods [ps] follow one another from [lo] to [hi]: the first
    starts at [lo], each one is non-empty and ends where the next one
    starts, and the last one ends at [hi]. *)
Fixpoint chained (lo : T) (ps : list (T * T * value)) (hi : T) : Prop :=
  match ps with
  | [] => lo = hi
  | p :: ps' =>
      fst (fst p) = lo /\ tlt lo (snd (fst p)) = true /\
      chained (snd (fst p)) ps' hi
  end.

(** The series has the value of the period at every time of it. *)
Definition period_const (ts : TimeSeries T) (p : T * T * value) : Prop :=
  forall t, tlt t (fst (fst p)) = false -> tlt t (snd (fst p)) = true ->
            get ts t = Ok (snd p).

(** The predicate that the [value] argument of [iterperiods] stands
    for, on a yielded period. *)
Definition period_passes (a : value_arg T) (p : T * T * value) : bool :=
  _value_function a (fst (fst p)) (snd (fst p)) (snd p).

(** The measurements of the window from [s] to [e], with either end
    included or not. *)
Definition in_range (include_start include_end : bool) (s e : T)
           (kv : T * value) : bool :=
  (if include_end then tle (fst kv) e else tlt (fst kv) e) &&
  (if include_start then tle s (fst kv) else tlt s (fst kv)).

(** A loop over a list whose body may raise. *)
Fixpoint fold_result {A B : Type} (g : A -> B -> result A) (l : list B)
         (acc : A) : result A :=
  match l with
  | [] => Ok acc
  | x :: l' => r <- g acc x ;; fold_result g l' r
  end.

(** What a loop body does to the loop state, for a body that leaves the
    series alone. *)
Definition pure_body {A : Type}
           (body : A -> T * T * value -> TimeSeries T
                   -> result (A * TimeSeries T))
           (ts : TimeSeries T) (acc : A) (p : T * T * value) : result A :=
  r <- body acc p ts ;; Ok (fst r).

(** The keys of rank [i] to [j - 1] of a dictionary, and the loop of
    [iterperiods] over a fixed list of keys: what the generator does
    when the keys that it reads are those that were recorded when
    [islice] was called. *)
Definition keys_slice (d : list (T * value)) (i j : nat) : list T :=
  firstn (j - i) (skipn i (keys d)).

Fixpoint snapshot_loop {A : Type} (value_function : T -> T -> value -> bool)
         (body : A -> T * T * value -> TimeSeries T
                 -> result (A * TimeSeries T))
         (rest : list T) (end_ : T)
         (interval_t0 : T) (interval_value : value)
         (acc : A) (ts : TimeSeries T) {struct rest}
  : result (A * TimeSeries T) :=
  match rest with
  | interval_t1 :: rest' =>
      st <- (if value_function interval_t0 interval_t1 interval_value
             then body acc (interval_t0, interval_t1, interval_value) ts
             else Ok (acc, ts)) ;;
      v' <- get (snd st) interval_t1 ;;
      snapshot_loop value_function body rest' end_ interval_t1 v'
                    (fst st) (snd st)
  | [] =>
      if tlt interval_t0 end_ then
        if value_function interval_t0 end_ interval_value
        then body acc (interval_t0, end_, interval_value) ts
        else Ok (acc, ts)
      else Ok (acc, ts)
  end.

Definition for_snapshot {A : Type} (ts : TimeSeries T) (start end_ : option T)
           (a : value_arg T)
           (body : A -> T * T * value -> TimeSeries T
                   -> result (A * TimeSeries T)) (acc : A)
  : result (A * TimeSeries T) :=
  b <- _check_boundaries ts start end_ true ;;
  let start := fst (fst b) in
  let end_ := snd (fst b) in
  let value_function := _value_function a in
  let start_index := bisect_right (_d ts) start in
  start_value <- (if 0 <? start_index
                  then k <- iloc (_d ts) (start_index - 1) ;;
                       getitem (_d ts) k
                  else default ts) ;;
  let end_index := bisect_right (_d ts) end_ in
  snapshot_loop value_function body
                (keys_slice (_d ts) start_index end_index) end_
                start start_value acc ts.

(** [res] is the domain of [ts] from [s] up to [b]: it is [True]
    exactly where [ts] is true between [s] and [b], [False] before [s]
    and from [b] on, and has no point after [b]. *)
Definition domain_upto (ts : TimeSeries T) (s : T) (res : TimeSeries T)
           (b : T) : Prop :=
  sorted_keys (_d res) = true /\
  _default res = Explicit (VBool false) /\
  tlt b s = false /\
  (forall x, In x (_d res) -> tlt b (fst x) = false) /\
  (forall t, tlt t s = false -> tlt t b = true ->
     exists v, get ts t = Ok v /\ get res t = Ok (VBool (truthy v))) /\
  (forall t, tlt t s = true -> get res t = Ok (VBool false)) /\
  (forall t, tlt t b = false -> get res t = Ok (VBool false)).

End PeriodVocabulary.

Section MergeVocabulary.
Context {T : Type} `{TimeType T}.

(** The measurements that the merge has still to read from a queue
    entry, tagged with the index of their series. *)
Definition entry_events (e : entry T) : list (T * nat * value) :=
  map (fun kv => (fst kv, e_index e, snd kv))
      ((e_t e, e_value e) :: e_iterator e).

Definition pending (queue : list (entry T)) : list (T * nat * value) :=
  flat_map entry_events queue.

(** The measurement that a yield of [_iter_merge] reports: its time,
    the index of its series, and the value the state has there. *)
Definition event_of (y : T * nat * list value) : T * nat * value :=
  (fst (fst y), snd (fst y), nth (snd (fst y)) (snd y) VNone).

(** Each yield carries the state before it, changed at its own index
    only. *)
Fixpoint scan (state : list value) (ys : list (T * nat * list value))
  : Prop :=
  match ys with
  | [] => True
  | y :: ys' =>
      length (snd y) = length state /\
      (forall j, j <> snd (fst y) -> nth j (snd y) VNone = nth j state VNone) /\
      scan (snd y) ys'
  end.

(** The value that [merge] writes for a list of merged values. *)
Definition merged_value (operation : option (list value -> value))
           (merged : list value) : value :=
  match operation with
  | None => VList merged
  | Some f => f merged
  end.

(** [res] holds what [merge] has written for the yields [done]: its
    keys are times of [done], among them the first one (all of them
    without [compact]), and at every time it reads a value [==] to the
    one written for the latest yield of [done] at or before that time. *)
Definition written (compact : bool) (operation : option (list value -> value))
           (res : TimeSeries T) (done : list (T * list value)) : Prop :=
  sorted_keys (_d res) = true /\
  (forall x, In x (_d res) -> In (fst x) (map fst done)) /\
  (forall y rest, done = y :: rest -> In (fst y) (keys (_d res))) /\
  (compact = false -> forall y, In y done -> In (fst y) (keys (_d res))) /\
  (forall t y, In y done -> tlt t (fst y) = false ->
     (forall y', In y' done -> tlt t (fst y') = false ->
                 tlt (fst y) (fst y') = false) ->
     exists cur, get res t = Ok cur /\
                 py_eq cur (merged_value operation (snd y)) = true).

End MergeVocabulary.

Section NumberVocabulary.
Context {T : Type} `{TimeType T}.

(** The values that Python's arithmetic takes as integers: [bool] and
    [int]. *)
Definition is_number (v : value) : bool :=
  match as_number v with
  | Some _ => true
  | None => false
  end.

(** A series that holds numbers only: every recorded value, and the
    explicit default when there is one. *)
Definition numeric (ts : TimeSeries T) : bool :=
  forallb (fun kv => is_number (snd kv)) (items ts)
  && match _default ts with
     | EXTEND_BACK => true
     | Explicit v => is_number v
     end.

End NumberVocabulary.

(* ------------------------------------------------------------------ *)
(** * Properties *)

(** ** Reasoning on the order of times *)

Section Order.
Context {T : Type} `{TimeType T}.

Lemma tlt_asym (x y : T) : tlt x y = true -> tlt y x = false.
Proof.
  intros Hxy. destruct (tlt y x) eqn:Hyx; trivial.
  pose proof (tlt_trans _ _ _ Hxy Hyx) as C.
  rewrite tlt_irrefl in C. discriminate.
Qed.

Lemma tlt_le_trans (x y z : T) :
  tlt x y = true -> tlt z y = false -> tlt x z = true.
Proof.
  intros Hxy Hyz. destruct (tlt x z) eqn:Hxz; trivial.
  destruct (tlt z x) eqn:Hzx.
  - rewrite (tlt_trans _ _ _ Hzx Hxy) in Hyz. discriminate.
  - rewrite (tlt_total _ _ Hxz Hzx) in Hxy. congruence.
Qed.

Lemma tle_lt_trans (x y z : T) :
  tlt y x = false -> tlt y z = true -> tlt x z = true.
Proof.
  intros Hxy Hyz. destruct (tlt x z) eqn:Hxz; trivial.
  destruct (tlt z x) eqn:Hzx.
  - rewrite (tlt_trans _ _ _ Hyz Hzx) in Hxy. discriminate.
  - rewrite <- (tlt_total _ _ Hxz Hzx) in Hyz. congruence.
Qed.

Lemma tle_trans (x y z : T) :
  tlt y x = false -> tlt z y = false -> tlt z x = false.
Proof.
  intros Hxy Hyz. destruct (tlt z x) eqn:Hzx; trivial.
  rewrite (tlt_le_trans _ _ _ Hzx Hxy) in Hyz. discriminate.
Qed.

Lemma teqb_eq (x y : T) : teqb x y = true <-> x = y.
Proof.
  unfold teqb. split.
  - intros E. apply andb_true_iff in E. destruct E as [A B].
    apply negb_true_iff in A, B. now apply tlt_total.
  - intros ->. now rewrite tlt_irrefl.
Qed.

Lemma teqb_sym (x y : T) : teqb x y = teqb y x.
Proof. unfold teqb. apply andb_comm. Qed.

Lemma teqb_refl (x : T) : teqb x x = true.
Proof. now apply teqb_eq. Qed.

Lemma teqb_neq (x y : T) : teqb x y = false <-> x <> y.
Proof.
  split.
  - intros E ->. rewrite teqb_refl in E. discriminate.
  - intros N. destruct (teqb x y) eqn:E; trivial. apply teqb_eq in E. tauto.
Qed.

Lemma time_eq_dec (x y : T) : {x = y} + {x <> y}.
Proof.
  destruct (teqb x y) eqn:E.
  - left. now apply teqb_eq.
  - right. now apply teqb_neq.
Qed.

End Order.

(** [torder] closes a goal that follows from the order facts in the
    context: it refutes the negated goal by chaining the facts. *)
Ltac torder_new H :=
  let P := type of H in
  lazymatch goal with
  | _ : P |- _ => fail
  | _ => pose proof H
  end.

Ltac torder_sat :=
  repeat match goal with
  | H : true = false |- _ => discriminate H
  | H : false = true |- _ => discriminate H
  | H : ?a <> ?a |- _ => exfalso; apply H; reflexivity
  | H1 : tlt ?a ?b = false, H2 : tlt ?b ?a = false, N : ?a <> ?b |- _ =>
      exfalso; apply N; exact (tlt_total _ _ H1 H2)
  | H1 : tlt ?a ?b = false, H2 : tlt ?b ?a = false, N : ?b <> ?a |- _ =>
      exfalso; apply N; exact (tlt_total _ _ H2 H1)
  | H : tlt ?a ?a = true |- _ => rewrite tlt_irrefl in H; discriminate H
  | H1 : tlt ?a ?b = true, H2 : tlt ?a ?b = false |- _ =>
      rewrite H1 in H2; discriminate H2
  | H1 : tlt ?a ?b = true, H2 : tlt ?b ?a = true |- _ =>
      rewrite (tlt_asym _ _ H1) in H2; discriminate H2
  | H1 : tlt ?a ?b = false, H2 : tlt ?b ?a = false |- _ =>
      first [ is_var a | is_var b ];
      assert (a = b) by exact (tlt_total _ _ H1 H2); subst
  | H1 : tlt ?a ?b = true, H2 : tlt ?b ?c = true |- _ =>
      torder_new (tlt_trans _ _ _ H1 H2)
  | H1 : tlt ?a ?b = true, H2 : tlt ?c ?b = false |- _ =>
      torder_new (tlt_le_trans _ _ _ H1 H2)
  | H1 : tlt ?b ?a = false, H2 : tlt ?b ?c = true |- _ =>
      torder_new (tle_lt_trans _ _ _ H1 H2)
  | H1 : tlt ?b ?a = false, H2 : tlt ?c ?b = false |- _ =>
      torder_new (tle_trans _ _ _ H1 H2)
  end.

Ltac torder :=
  try unfold tle in *; try unfold tge in *;
  repeat match goal with
  | H : negb _ = true |- _ => apply negb_true_iff in H
  | H : negb _ = false |- _ => apply negb_false_iff in H
  | H : teqb _ _ = true |- _ => apply teqb_eq in H; subst
  end;
  repeat match goal with
  | |- negb _ = true => apply negb_true_iff
  | |- negb _ = false => apply negb_false_iff
  end;
  lazymatch goal with
  | |- tlt ?a ?b = true =>
      let E := fresh "E" in destruct (tlt a b) eqn:E; [reflexivity|exfalso]
  | |- tlt ?a ?b = false =>
      let E := fresh "E" in destruct (tlt a b) eqn:E; [exfalso|reflexivity]
  | |- @eq _ ?a ?b =>
      first
        [ apply tlt_total;
          [ let E := fresh "E" in
            destruct (tlt a b) eqn:E; [exfalso|reflexivity]
          | let E := fresh "E" in
            destruct (tlt b a) eqn:E; [exfalso|reflexivity] ]
        | exfalso ]
  | |- _ <> _ => let E := fresh "E" in intros E; subst
  | |- False => idtac
  | |- _ => exfalso
  end;
  torder_sat.

(** ** The sorted dictionary *)

Section DictFacts.
Context {T : Type} `{TimeType T}.

Local Abbreviation dict := (list (T * value)).

Lemma sorted_cons (k : T) (v : value) (d : dict) :
  sorted_keys ((k, v) :: d) = true <->
  sorted_keys d = true /\ Forall (fun x => tlt k (fst x) = true) d.
Proof.
  revert k v. induction d as [|[k' v'] d IH]; intros k v.
  - simpl. split; auto.
  - change (sorted_keys ((k, v) :: (k', v') :: d))
      with (tlt k k' && sorted_keys ((k', v') :: d)).
    rewrite andb_true_iff. split.
    + intros [L S]. split; trivial. constructor; trivial.
      apply IH in S. destruct S as [_ F].
      eapply Forall_impl; [|exact F]. simpl. intros x Hx.
      eapply tlt_trans; eauto.
    + intros [S F]. inversion F; subst. auto.
Qed.

Lemma sorted_tail (kv : T * value) (d : dict) :
  sorted_keys (kv :: d) = true -> sorted_keys d = true.
Proof. destruct kv. intros S. now apply sorted_cons in S. Qed.

Lemma sorted_head_lt (k : T) (v : value) (d : dict) (x : T * value) :
  sorted_keys ((k, v) :: d) = true -> In x d -> tlt k (fst x) = true.
Proof.
  intros S I. apply sorted_cons in S. destruct S as [_ F].
  rewrite Forall_forall in F. auto.
Qed.

Lemma sorted_unique (d : dict) (k : T) (v v' : value) :
  sorted_keys d = true -> In (k, v) d -> In (k, v') d -> v = v'.
Proof.
  induction d as [|[k0 v0] d IH]; intros S I I'; simpl in I, I'; [tauto|].
  pose proof (sorted_tail _ _ S) as S'.
  destruct I as [E|I], I' as [E'|I'].
  - congruence.
  - inversion E; subst. pose proof (sorted_head_lt _ _ _ _ S I') as L.
    simpl in L. rewrite tlt_irrefl in L. discriminate.
  - inversion E'; subst. pose proof (sorted_head_lt _ _ _ _ S I) as L.
    simpl in L. rewrite tlt_irrefl in L. discriminate.
  - auto.
Qed.

Lemma sorted_filter (f : T * value -> bool) (d : dict) :
  sorted_keys d = true -> sorted_keys (filter f d) = true.
Proof.
  induction d as [|[k v] d IH]; intros S; trivial.
  apply sorted_cons in S. destruct S as [S F]. simpl.
  destruct (f (k, v)); auto.
  apply sorted_cons. split; auto.
  rewrite Forall_forall in *. intros x Hx. apply filter_In in Hx. apply F, Hx.
Qed.

(** Two sorted dictionaries with the same pairs are the same list. *)
Lemma sorted_ext (d d' : dict) :
  sorted_keys d = true -> sorted_keys d' = true ->
  (forall x, In x d <-> In x d') -> d = d'.
Proof.
  revert d'. induction d as [|[k v] d IH]; intros [|[k' v'] d'] S S' E.
  - reflexivity.
  - exfalso. apply (proj2 (E (k', v'))). now left.
  - exfalso. apply (proj1 (E (k, v))). now left.
  - assert (K : (k, v) = (k', v')).
    { destruct (proj1 (E (k, v)) (or_introl eq_refl)) as [A|A]; [auto|].
      destruct (proj2 (E (k', v')) (or_introl eq_refl)) as [B|B]; [auto|].
      pose proof (sorted_head_lt _ _ _ _ S B) as L1.
      pose proof (sorted_head_lt _ _ _ _ S' A) as L2. simpl in *.
      rewrite (tlt_asym _ _ L1) in L2. discriminate. }
    inversion K; subst. f_equal.
    apply IH; try (eapply sorted_tail; eassumption).
    intros x. split; intros I.
    + destruct (proj1 (E x) (or_intror I)) as [A|A]; trivial. subst x.
      pose proof (sorted_head_lt _ _ _ _ S I) as L. simpl in L.
      rewrite tlt_irrefl in L. discriminate.
    + destruct (proj2 (E x) (or_intror I)) as [A|A]; trivial. subst x.
      pose proof (sorted_head_lt _ _ _ _ S' I) as L. simpl in L.
      rewrite tlt_irrefl in L. discriminate.
Qed.

End DictFacts.

(** ** Reading: [floor], [bisect_right] and [getitem] *)

Section ReadFacts.
Context {T : Type} `{TimeType T}.

Local Abbreviation dict := (list (T * value)).

Lemma floor_In (d : dict) (t : T) (kv : T * value) :
  floor d t = Some kv -> In kv d.
Proof.
  induction d as [|[k v] d IH]; simpl; [discriminate|].
  destruct (tlt t k); [discriminate|].
  destruct (floor d t) as [kv'|].
  - intros E. inversion E; subst. auto.
  - intros E. inversion E; subst. auto.
Qed.

Lemma floor_le (d : dict) (t : T) (kv : T * value) :
  floor d t = Some kv -> tlt t (fst kv) = false.
Proof.
  induction d as [|[k v] d IH]; simpl; [discriminate|].
  destruct (tlt t k) eqn:L; [discriminate|].
  destruct (floor d t) as [kv'|].
  - intros E. inversion E; subst. auto.
  - intros E. inversion E; subst. exact L.
Qed.

Lemma floor_None (d : dict) (t : T) :
  sorted_keys d = true -> floor d t = None ->
  forall x, In x d -> tlt t (fst x) = true.
Proof.
  destruct d as [|[k v] d]; intros S E x I; [destruct I|].
  simpl in E. destruct (tlt t k) eqn:L.
  - destruct I as [<-|I]; [exact L|].
    pose proof (sorted_head_lt _ _ _ _ S I). torder.
  - destruct (floor d t); discriminate.
Qed.

Lemma floor_greatest (d : dict) (t : T) (kv : T * value) :
  sorted_keys d = true -> floor d t = Some kv ->
  forall x, In x d -> tlt t (fst x) = false -> tlt (fst kv) (fst x) = false.
Proof.
  induction d as [|[k v] d IH]; intros S E x I L; [destruct I|].
  pose proof (sorted_tail _ _ S) as S'.
  simpl in E. destruct (tlt t k) eqn:Lk; [discriminate|].
  destruct (floor d t) as [kv'|] eqn:F.
  - inversion E; subst kv'. destruct I as [<-|I].
    + pose proof (sorted_head_lt _ _ _ _ S (floor_In _ _ _ F)). simpl.
      torder.
    + now apply IH.
  - inversion E; subst kv. destruct I as [<-|I].
    + apply tlt_irrefl.
    + pose proof (floor_None _ _ S' F _ I). congruence.
Qed.

Lemma floor_intro (d : dict) (t : T) (kv : T * value) :
  sorted_keys d = true -> In kv d -> tlt t (fst kv) = false ->
  (forall x, In x d -> tlt t (fst x) = false -> tlt (fst kv) (fst x) = false) ->
  floor d t = Some kv.
Proof.
  intros S I L G. destruct (floor d t) as [kv'|] eqn:F.
  - pose proof (floor_In _ _ _ F) as I'.
    pose proof (floor_le _ _ _ F) as L'.
    pose proof (floor_greatest _ _ _ S F _ I L) as G1.
    pose proof (G _ I' L') as G2.
    destruct kv as [k v], kv' as [k' v']. simpl in *.
    assert (k = k') by torder. subst k'.
    f_equal. f_equal. eapply sorted_unique; eauto.
  - pose proof (floor_None _ _ S F _ I). congruence.
Qed.

(** [floor] only looks at the pairs whose key is [<= t]. *)
Lemma floor_ext (d d' : dict) (t : T) :
  sorted_keys d = true -> sorted_keys d' = true ->
  (forall x, tlt t (fst x) = false -> (In x d <-> In x d')) ->
  floor d t = floor d' t.
Proof.
  intros S S' E. destruct (floor d t) as [kv|] eqn:F.
  - symmetry. apply floor_intro; trivial.
    + apply E; [eapply floor_le; eauto | eapply floor_In; eauto].
    + eapply floor_le; eauto.
    + intros x I L. apply (floor_greatest _ _ _ S F); trivial. now apply E.
  - destruct (floor d' t) as [kv'|] eqn:F'; trivial.
    pose proof (floor_le _ _ _ F') as L.
    pose proof (proj2 (E _ L) (floor_In _ _ _ F')) as I.
    pose proof (floor_None _ _ S F _ I). congruence.
Qed.

Lemma getitem_In (d : dict) (k : T) (v : value) :
  getitem d k = Ok v -> In (k, v) d.
Proof.
  induction d as [|[k' v'] d IH]; simpl; [discriminate|].
  destruct (teqb k k') eqn:E.
  - apply teqb_eq in E. subst. intros E. inversion E. auto.
  - auto.
Qed.

Lemma getitem_sorted (d : dict) (k : T) (v : value) :
  sorted_keys d = true -> In (k, v) d -> getitem d k = Ok v.
Proof.
  induction d as [|[k' v'] d IH]; intros S I; [destruct I|].
  simpl. destruct (teqb k k') eqn:E.
  - apply teqb_eq in E. subst k'. f_equal.
    eapply sorted_unique; eauto. now left.
  - destruct I as [I|I].
    + inversion I; subst. rewrite teqb_refl in E. discriminate.
    + apply IH; trivial. eapply sorted_tail; eauto.
Qed.

Lemma getitem_raise (d : dict) (k : T) (e : exn) :
  getitem d k = Raise e -> e = KeyError /\ has_key d k = false.
Proof.
  induction d as [|[k' v'] d IH]; simpl.
  - intros E. now inversion E.
  - unfold has_key in *. simpl. rewrite (teqb_sym k' k).
    destruct (teqb k k') eqn:E; [discriminate|].
    intros R. destruct (IH R) as [-> Hk]. split; trivial.
Qed.

Lemma has_key_In (d : dict) (k : T) :
  has_key d k = true <-> exists v, In (k, v) d.
Proof.
  unfold has_key. rewrite existsb_exists. split.
  - intros [[k' v] [I E]]. apply teqb_eq in E. simpl in E. subst. eauto.
  - intros [v I]. exists (k, v). split; trivial. apply teqb_refl.
Qed.

(** What [bisect_right] finds is the floor. *)
Lemma bisect_right_floor (d : dict) (t : T) :
  sorted_keys d = true ->
  match bisect_right d t with
  | 0 => floor d t = None
  | S n => exists k v, nth_error (keys d) n = Some k /\
                       getitem d k = Ok v /\ floor d t = Some (k, v)
  end.
Proof.
  induction d as [|[k v] d IH]; intros S; [reflexivity|].
  pose proof (sorted_tail _ _ S) as S'. specialize (IH S').
  simpl. destruct (tlt t k) eqn:L; [reflexivity|].
  destruct (bisect_right d t) as [|m].
  - rewrite IH. exists k, v. simpl. rewrite teqb_refl. auto.
  - destruct IH as (k' & v' & N & G & F). rewrite F.
    exists k', v'. simpl. repeat split; trivial.
    pose proof (sorted_head_lt _ _ _ _ S (floor_In _ _ _ F)) as Lk.
    simpl in Lk. destruct (teqb k' k) eqn:E; trivial.
    apply teqb_eq in E. subst. rewrite tlt_irrefl in Lk. discriminate.
Qed.

Lemma bisect_right_bound (d : dict) (t : T) : bisect_right d t <= length d.
Proof.
  induction d as [|[k v] d IH]; simpl; [lia|]. destruct (tlt t k); lia.
Qed.

End ReadFacts.

(** ** Writing: [setitem], [delitem] and [discard] *)

Section WriteFacts.
Context {T : Type} `{TimeType T}.

Local Abbreviation dict := (list (T * value)).

Lemma setitem_In (d : dict) (k : T) (v : value) (x : T * value) :
  sorted_keys d = true ->
  (In x (setitem d k v) <-> x = (k, v) \/ (In x d /\ fst x <> k)).
Proof.
  induction d as [|[k' v'] d IH]; intros S.
  - simpl. split; [intros [E|[]]; auto | intros [E|[[] _]]; auto].
  - pose proof (sorted_tail _ _ S) as S'.
    assert (Hd : forall y, In y d -> tlt k' (fst y) = true)
      by (intros y; apply (sorted_head_lt _ _ _ _ S)).
    simpl. destruct (tlt k k') eqn:L; [|destruct (tlt k' k) eqn:L'].
    + simpl. split.
      * intros [E|[E|I]]; auto.
        -- right. split; auto. subst x. simpl. torder.
        -- right. split; auto. specialize (Hd _ I). torder.
      * intros [E|[[E|I] N]]; auto.
    + simpl. rewrite (IH S'). split.
      * intros [E|[E|[I N]]]; auto. right. split; auto. subst x. simpl. torder.
      * intros [E|[[E|I] N]]; auto.
    + assert (k = k') by torder. subst k'. simpl. split.
      * intros [E|I]; auto. right. split; auto. specialize (Hd _ I). torder.
      * intros [E|[[E|I] N]]; auto. subst x. simpl in N. tauto.
Qed.

Lemma setitem_sorted (d : dict) (k : T) (v : value) :
  sorted_keys d = true -> sorted_keys (setitem d k v) = true.
Proof.
  induction d as [|[k' v'] d IH]; intros S; [reflexivity|].
  pose proof (sorted_tail _ _ S) as S'.
  assert (Hd : forall y, In y d -> tlt k' (fst y) = true)
    by (intros y; apply (sorted_head_lt _ _ _ _ S)).
  simpl. destruct (tlt k k') eqn:L; [|destruct (tlt k' k) eqn:L'].
  - apply sorted_cons. split; trivial. constructor; trivial.
    rewrite Forall_forall. intros y I. specialize (Hd _ I). torder.
  - apply sorted_cons. split; auto.
    rewrite Forall_forall. intros y I. apply setitem_In in I; trivial.
    destruct I as [->|[I _]]; auto.
  - apply sorted_cons. split; trivial. now rewrite Forall_forall.
Qed.

Lemma setitem_nonempty (d : dict) (k : T) (v : value) : setitem d k v <> [].
Proof.
  destruct d as [|[k' v'] d]; simpl; [discriminate|].
  destruct (tlt k k'); [discriminate|]. destruct (tlt k' k); discriminate.
Qed.

Lemma discard_In (d : dict) (k : T) (x : T * value) :
  In x (discard d k) <-> In x d /\ fst x <> k.
Proof.
  unfold discard. rewrite filter_In, negb_true_iff, teqb_neq. tauto.
Qed.

Lemma discard_sorted (d : dict) (k : T) :
  sorted_keys d = true -> sorted_keys (discard d k) = true.
Proof. apply sorted_filter. Qed.

Lemma discard_absent (d : dict) (k : T) :
  has_key d k = false -> discard d k = d.
Proof.
  unfold has_key, discard. induction d as [|x d IH]; simpl; trivial.
  intros E. apply orb_false_iff in E. destruct E as [E1 E2].
  rewrite E1. simpl. f_equal. auto.
Qed.

Lemma delitem_spec (d : dict) (k : T) :
  sorted_keys d = true ->
  delitem d k = if has_key d k then Ok (discard d k) else Raise KeyError.
Proof.
  induction d as [|[k' v'] d IH]; intros S; [reflexivity|].
  pose proof (sorted_tail _ _ S) as S'.
  unfold has_key, discard in *. simpl. rewrite (teqb_sym k' k).
  destruct (teqb k k') eqn:E; simpl.
  - apply teqb_eq in E. subst k'. f_equal. symmetry.
    apply discard_absent. destruct (has_key d k) eqn:Hk; trivial.
    apply has_key_In in Hk. destruct Hk as [v I].
    pose proof (sorted_head_lt _ _ _ _ S I) as L. simpl in L.
    rewrite tlt_irrefl in L. discriminate.
  - rewrite (IH S'). destruct (existsb _ d); reflexivity.
Qed.

End WriteFacts.

(** ** Point reads *)

Section GetFacts.
Context {T : Type} `{TimeType T}.

Local Abbreviation TS := (TimeSeries T).

Lemma default_ok (ts : TS) :
  is_floating ts = false ->
  exists v, default ts = Ok v /\
    match _default ts with
    | EXTEND_BACK => exists k0 rest, items ts = (k0, v) :: rest
    | Explicit dv => v = dv
    end.
Proof.
  unfold default, is_floating, first_item, items, len.
  destruct ts as [d [|dv]]; simpl.
  - destruct d as [|[k0 v0] d]; simpl; [discriminate|].
    intros _. exists v0. split; eauto.
  - intros _. exists dv. auto.
Qed.

Lemma default_floating (ts : TS) :
  is_floating ts = true -> default ts = Raise KeyError.
Proof. unfold default. now intros ->. Qed.

Lemma get_floor (ts : TS) (t : T) :
  wf ts ->
  get ts t = match floor (_d ts) t with
             | Some kv => Ok (snd kv)
             | None => default ts
             end.
Proof.
  intros W. unfold get, _get_previous, iloc.
  pose proof (bisect_right_floor (_d ts) t W) as B.
  destruct (bisect_right (_d ts) t) as [|n].
  - now rewrite B.
  - destruct B as (k & v & N & G & F).
    replace (S n - 1) with n by lia. simpl.
    rewrite N. simpl. rewrite G, F. reflexivity.
Qed.

Lemma floating_empty (ts : TS) : is_floating ts = true -> _d ts = [].
Proof.
  unfold is_floating, len. destruct (_default ts); [|discriminate].
  destruct (_d ts); [trivial|discriminate].
Qed.

Lemma get_floating (ts : TS) (t : T) :
  is_floating ts = true -> get ts t = Raise KeyError.
Proof.
  intros F. unfold get, _get_previous.
  rewrite (floating_empty _ F). simpl. now apply default_floating.
Qed.

Lemma get_ok (ts : TS) (t : T) :
  wf ts -> is_floating ts = false -> exists v, get ts t = Ok v.
Proof.
  intros W F. rewrite get_floor by trivial.
  destruct (floor (_d ts) t) as [kv|]; eauto.
  destruct (default_ok ts F) as (v & -> & _). eauto.
Qed.

(** C5: [get(t, 'previous')] raises exactly on a floating series (empty,
    default [EXTEND_BACK]); otherwise it returns the value of the
    measurement at the greatest key [<= t], or, when no key is [<= t],
    the default: the first recorded value under [EXTEND_BACK], [v] under
    an explicit default [v]. *)
Theorem get_previous_spec (ts : TS) (t : T) :
  wf ts ->
  ((exists e, get ts t = Raise e) <-> is_floating ts = true) /\
  (is_floating ts = false ->
   exists v, get ts t = Ok v /\
     ((exists k, In (k, v) (items ts) /\ tle k t = true /\
                 forall k' v', In (k', v') (items ts) ->
                               tle k' t = true -> tle k' k = true)
      \/
      ((forall k' v', In (k', v') (items ts) -> tlt t k' = true) /\
       match _default ts with
       | EXTEND_BACK => exists k0 rest, items ts = (k0, v) :: rest
       | Explicit dv => v = dv
       end))).
Proof.
  intros W.
  assert (Main : is_floating ts = false ->
   exists v, get ts t = Ok v /\
     ((exists k, In (k, v) (items ts) /\ tle k t = true /\
                 forall k' v', In (k', v') (items ts) ->
                               tle k' t = true -> tle k' k = true)
      \/
      ((forall k' v', In (k', v') (items ts) -> tlt t k' = true) /\
       match _default ts with
       | EXTEND_BACK => exists k0 rest, items ts = (k0, v) :: rest
       | Explicit dv => v = dv
       end))).
  { intros F. rewrite get_floor by trivial. unfold items.
    destruct (floor (_d ts) t) as [[k v]|] eqn:E.
    - exists v. split; trivial. left. exists k.
      pose proof (floor_In _ _ _ E). pose proof (floor_le _ _ _ E) as L.
      simpl in L. unfold tle. rewrite L. repeat split; trivial.
      intros k' v' I' L'. apply negb_true_iff in L'. apply negb_true_iff.
      apply (floor_greatest _ _ _ W E (k', v') I' L').
    - destruct (default_ok ts F) as (v & D & M). exists v. split; trivial.
      right. split; trivial. intros k' v' I'.
      apply (floor_None _ _ W E (k', v') I'). }
  split; trivial. split.
  - intros [e R]. destruct (is_floating ts) eqn:F; trivial.
    destruct (Main eq_refl) as (v & G & _). congruence.
  - intros F. exists KeyError. now apply get_floating.
Qed.

End GetFacts.

(** ** Python equality is an equivalence on [value] *)

Fixpoint value_rect' (P : value -> Prop)
  (HN : P VNone) (HB : forall b, P (VBool b)) (HI : forall z, P (VInt z))
  (HL : forall l, Forall P l -> P (VList l)) (v : value) {struct v} : P v :=
  match v with
  | VNone => HN
  | VBool b => HB b
  | VInt z => HI z
  | VList l =>
      HL l ((fix all (l : list value) : Forall P l :=
               match l with
               | [] => Forall_nil P
               | x :: l' => Forall_cons x (value_rect' P HN HB HI HL x) (all l')
               end) l)
  end.

Fixpoint py_eq_list (l1 l2 : list value) : bool :=
  match l1, l2 with
  | [], [] => true
  | a :: l1', b :: l2' => py_eq a b && py_eq_list l1' l2'
  | _, _ => false
  end.

Lemma py_eq_VList (l1 l2 : list value) :
  py_eq (VList l1) (VList l2) = py_eq_list l1 l2.
Proof.
  simpl. revert l2. induction l1 as [|a l1 IH]; intros [|b l2]; trivial.
Qed.

Lemma py_eq_refl (x : value) : py_eq x x = true.
Proof.
  induction x as [|b|z|l IH] using value_rect'; simpl py_eq.
  - reflexivity.
  - apply eqb_reflx.
  - apply Z.eqb_refl.
  - change (py_eq (VList l) (VList l) = true). rewrite py_eq_VList.
    induction IH as [|a l Ha _ IHl]; simpl; trivial. now rewrite Ha.
Qed.

Lemma py_eq_sym (x y : value) : py_eq x y = py_eq y x.
Proof.
  revert y. induction x as [|b|z|l IH] using value_rect'; intros [|b'|z'|l'];
    try reflexivity.
  - simpl. now destruct b, b'.
  - simpl. apply Z.eqb_sym.
  - simpl. apply Z.eqb_sym.
  - simpl. apply Z.eqb_sym.
  - rewrite !py_eq_VList. revert l'.
    induction IH as [|a l Ha _ IHl]; intros [|a' l']; simpl; trivial.
    now rewrite Ha, IHl.
Qed.

Lemma py_eq_trans (x y z : value) :
  py_eq x y = true -> py_eq y z = true -> py_eq x z = true.
Proof.
  revert y z. induction x as [|b|n|l IH] using value_rect';
    intros [|b'|n'|l'] [|b''|n''|l'']; try (simpl; congruence).
  - simpl. intros A B. apply eqb_prop in A, B. subst. apply eqb_reflx.
  - simpl. intros A B. apply eqb_prop in A. apply Z.eqb_eq in B.
    apply Z.eqb_eq. congruence.
  - simpl. intros A B. apply Z.eqb_eq in A, B.
    destruct b, b''; simpl in *; trivial; lia.
  - simpl. intros A B. apply Z.eqb_eq in A, B. apply Z.eqb_eq. congruence.
  - simpl. intros A B. apply Z.eqb_eq in A. apply eqb_prop in B.
    apply Z.eqb_eq. congruence.
  - simpl. intros A B. apply Z.eqb_eq in A, B. apply Z.eqb_eq. congruence.
  - simpl. intros A B. apply Z.eqb_eq in A, B. apply Z.eqb_eq. congruence.
  - simpl. intros A B. apply Z.eqb_eq in A, B. apply Z.eqb_eq. congruence.
  - rewrite !py_eq_VList. revert l' l''.
    induction IH as [|a l Ha _ IHl]; intros [|a' l'] [|a'' l''];
      simpl; try congruence.
    intros A B. apply andb_true_iff in A, B.
    destruct A as [A1 A2], B as [B1 B2].
    rewrite (Ha _ _ A1 B1), (IHl _ _ A2 B2). reflexivity.
Qed.

(** ** Point writes *)

Section SetFacts.
Context {T : Type} `{TimeType T}.

Local Abbreviation TS := (TimeSeries T).

Lemma nonempty_not_floating (ts : TS) : len ts <> 0 -> is_floating ts = false.
Proof.
  unfold is_floating. destruct (_default ts); trivial.
  intros N. now apply Nat.eqb_neq.
Qed.

Lemma get_at_key (ts : TS) (t : T) (v : value) :
  wf ts -> In (t, v) (_d ts) -> get ts t = Ok v.
Proof.
  intros W I. rewrite get_floor by trivial.
  rewrite (floor_intro (_d ts) t (t, v)); trivial.
  all: simpl; auto using tlt_irrefl.
Qed.

Lemma set_plain (ts : TS) (t : T) (v : value) :
  set ts t v false = Ok (with_d ts (setitem (_d ts) t v)).
Proof. unfold set. now destruct (Nat.eqb (len ts) 0). Qed.

(** C6, for the values that equal themselves ([None], booleans,
    integers and lists of these): [set(t, v, compact=True)] leaves the
    stored points unchanged exactly when the series is non-empty and
    [get(t) == v]. *)
Theorem set_compact_noop_iff (ts : TS) (t : T) (v : value) :
  wf ts ->
  exists ts', set ts t v true = Ok ts' /\
    (items ts' = items ts <->
     len ts <> 0 /\ exists cur, get ts t = Ok cur /\ py_eq cur v = true).
Proof.
  intros W. unfold set. destruct (Nat.eqb (len ts) 0) eqn:E.
  - apply Nat.eqb_eq in E. eexists. split; [reflexivity|].
    unfold items. simpl. split.
    + intros C. unfold len in E. apply length_zero_iff_nil in E.
      rewrite E in C. now apply setitem_nonempty in C.
    + intros [N _]. contradiction.
  - apply Nat.eqb_neq in E. simpl negb. cbv iota.
    destruct (get_ok ts t W (nonempty_not_floating ts E)) as [cur G].
    rewrite G. simpl. unfold py_ne. destruct (py_eq cur v) eqn:Q; simpl.
    + exists ts. split; trivial. split; eauto.
    + eexists. split; [reflexivity|]. unfold items. simpl. split.
      * intros C. exfalso.
        assert (I : In (t, v) (_d ts)).
        { rewrite <- C. apply setitem_In; auto. }
        rewrite (get_at_key ts t v W I) in G. inversion G; subst.
        rewrite py_eq_refl in Q. discriminate.
      * intros [_ (cur' & G' & Q')]. congruence.
Qed.

End SetFacts.

(** ** [compact] *)

Section CompactFacts.
Context {T : Type} `{TimeType T}.

Local Abbreviation TS := (TimeSeries T).
Local Abbreviation dict := (list (T * value)).

Lemma compacted_In (prev : option value) (l : dict) (x : T * value) :
  In x (compacted prev l) -> In x l.
Proof.
  revert prev. induction l as [|[k v] l IH]; intros prev; simpl; trivial.
  destruct prev as [pv|]; [destruct (py_eq v pv)|]; simpl;
    intros I; try destruct I as [I|I]; eauto.
Qed.

Lemma sorted_app_cons (pre : dict) (k : T) (v : value) (l : dict) :
  sorted_keys (pre ++ (k, v) :: l) = true -> sorted_keys (pre ++ l) = true.
Proof.
  induction pre as [|[k0 v0] pre IH]; simpl app; intros S.
  - eapply sorted_tail; eauto.
  - apply sorted_cons in S. destruct S as [S F]. apply sorted_cons.
    split; auto. rewrite Forall_forall in *. intros x I. apply F.
    apply in_app_iff in I. apply in_app_iff. simpl. tauto.
Qed.

Lemma sorted_app (a b : dict) :
  sorted_keys (a ++ b) = true ->
  sorted_keys a = true /\ sorted_keys b = true /\
  forall x y, In x a -> In y b -> tlt (fst x) (fst y) = true.
Proof.
  induction a as [|[k0 v0] a IH]; simpl app; intros S.
  - repeat split; trivial. intros x y [].
  - apply sorted_cons in S. destruct S as [S F].
    destruct (IH S) as (Sa & Sb & C). rewrite Forall_forall in F.
    repeat split; trivial.
    + apply sorted_cons. split; trivial. rewrite Forall_forall.
      intros x I. apply F. apply in_app_iff. auto.
    + intros x y [<-|I] J; [|auto]. simpl. apply (F y).
      apply in_app_iff. auto.
Qed.

Lemma discard_app_cons (pre : dict) (k : T) (v : value) (l : dict) :
  sorted_keys (pre ++ (k, v) :: l) = true ->
  discard (pre ++ (k, v) :: l) k = pre ++ l.
Proof.
  intros S. apply sorted_ext.
  - now apply discard_sorted.
  - eapply sorted_app_cons; eauto.
  - destruct (sorted_app _ _ S) as (_ & Sb & C).
    intros x. rewrite discard_In, !in_app_iff. simpl. split.
    + intros [[I|[E|I]] N]; auto. subst x. simpl in N. tauto.
    + intros [I|I]; (split; [tauto|]); intros E.
      * pose proof (C x (k, v) I (or_introl eq_refl)) as L. simpl in L.
        rewrite E, tlt_irrefl in L. discriminate.
      * pose proof (sorted_head_lt _ _ _ _ Sb I) as L.
        rewrite E, tlt_irrefl in L. discriminate.
Qed.

Lemma remove_all_compacted (dflt : Default) (prev : option value)
      (l pre : dict) :
  sorted_keys (pre ++ l) = true ->
  remove_all (mkTS (pre ++ l) dflt) (redundant_times prev l)
  = Ok (mkTS (pre ++ compacted prev l) dflt).
Proof.
  revert prev pre. induction l as [|[k v] l IH]; intros prev pre S.
  - reflexivity.
  - assert (Keep : remove_all (mkTS (pre ++ (k, v) :: l) dflt)
                              (redundant_times (Some v) l)
                   = Ok (mkTS (pre ++ (k, v) :: compacted (Some v) l) dflt)).
    { specialize (IH (Some v) (pre ++ [(k, v)])).
      rewrite <- !app_assoc in IH. simpl in IH. now apply IH. }
    simpl. destruct prev as [pv|]; [destruct (py_eq v pv)|]; trivial.
    simpl. unfold remove. simpl. rewrite delitem_spec by trivial.
    assert (Hk : has_key (pre ++ (k, v) :: l) k = true).
    { apply has_key_In. exists v. apply in_app_iff. simpl. auto. }
    rewrite Hk, discard_app_cons by trivial. unfold with_d. simpl.
    apply IH. eapply sorted_app_cons; eauto.
Qed.

Lemma floor_above (d : dict) (t : T) :
  (forall x, In x d -> tlt t (fst x) = true) -> floor d t = None.
Proof.
  destruct d as [|[k v] d]; trivial. intros A.
  pose proof (A (k, v) (or_introl eq_refl)) as L. simpl in *. now rewrite L.
Qed.

Lemma floor_compacted (prev : option value) (l : dict) (t : T) :
  sorted_keys l = true ->
  match floor l t with
  | Some kv =>
      match floor (compacted prev l) t with
      | Some kv' => py_eq (snd kv') (snd kv) = true
      | None => exists pv, prev = Some pv /\ py_eq (snd kv) pv = true
      end
  | None => floor (compacted prev l) t = None
  end.
Proof.
  revert prev. induction l as [|[k v] l IH]; intros prev S; [reflexivity|].
  pose proof (sorted_tail _ _ S) as S'.
  specialize (IH (Some v) S').
  assert (Above : tlt t k = true -> floor (compacted (Some v) l) t = None).
  { intros L. apply floor_above. intros x I. apply compacted_In in I.
    pose proof (sorted_head_lt _ _ _ _ S I). torder. }
  simpl floor at 1. destruct (tlt t k) eqn:L.
  - simpl. destruct prev as [pv|]; [destruct (py_eq v pv)|]; simpl;
      rewrite ?L; auto.
  - destruct (floor l t) as [[k1 v1]|] eqn:F.
    + simpl in IH. simpl compacted.
      destruct prev as [pv|]; [destruct (py_eq v pv) eqn:Q|]; simpl;
        rewrite ?L, ?F;
        destruct (floor (compacted (Some v) l) t) as [[k2 v2]|]; simpl;
        trivial.
      * destruct IH as (pv' & E & Q'). inversion E; subst pv'.
        exists pv. split; trivial. eapply py_eq_trans; eauto.
      * destruct IH as (pv' & E & Q'). inversion E; subst pv'.
        now rewrite py_eq_sym.
      * destruct IH as (pv' & E & Q'). inversion E; subst pv'.
        now rewrite py_eq_sym.
    + simpl compacted.
      destruct prev as [pv|]; [destruct (py_eq v pv) eqn:Q|]; simpl;
        rewrite ?L, ?IH; simpl; eauto using py_eq_refl.
Qed.

Lemma compacted_sorted (prev : option value) (l : dict) :
  sorted_keys l = true -> sorted_keys (compacted prev l) = true.
Proof.
  revert prev. induction l as [|[k v] l IH]; intros prev S; [reflexivity|].
  apply sorted_cons in S. destruct S as [S F]. simpl.
  assert (K : sorted_keys ((k, v) :: compacted (Some v) l) = true).
  { apply sorted_cons. split; auto. rewrite Forall_forall in *.
    intros x I. apply F. eapply compacted_In; eauto. }
  destruct prev as [pv|]; [destruct (py_eq v pv)|]; auto.
Qed.

Lemma compacted_removed (prev : option value) (l : dict) (x : T * value) :
  In x l -> ~ In x (compacted prev l) ->
  (exists l1 x0 l2, l = l1 ++ x0 :: x :: l2 /\ py_eq (snd x) (snd x0) = true)
  \/ (exists pv rest, prev = Some pv /\ l = x :: rest /\
                       py_eq (snd x) pv = true).
Proof.
  revert prev. induction l as [|[k v] l IH]; intros prev I N; [destruct I|].
  destruct I as [<-|I].
  - right. simpl in N.
    destruct prev as [pv|]; [destruct (py_eq v pv) eqn:Q|].
    + exists pv, l. auto.
    + exfalso. apply N. now left.
    + exfalso. apply N. now left.
  - left. assert (N' : ~ In x (compacted (Some v) l)).
    { intros J. apply N. simpl.
      destruct prev as [pv|]; [destruct (py_eq v pv)|]; simpl; auto. }
    destruct (IH (Some v) I N') as [(l1 & x0 & l2 & E & Q)|(pv & rest & E & E' & Q)].
    + exists ((k, v) :: l1), x0, l2. subst l. auto.
    + inversion E; subst pv. exists [], (k, v), rest. subst l. auto.
Qed.

Lemma same_outcome_refl (r : result value) : same_outcome r r.
Proof. destruct r; simpl; trivial. apply py_eq_refl. Qed.

Lemma compact_result (ts : TS) :
  wf ts -> compact ts = Ok (with_d ts (compacted None (_d ts))).
Proof.
  intros W. unfold compact, items, with_d. destruct ts as [d dflt]. simpl.
  apply (remove_all_compacted dflt None d []). exact W.
Qed.

(** C10: [compact()] changes the value of the series at no time: for
    every [t], [get(t)] has the same outcome before and after (the same
    exception, or values that are [==]).  It never fails, keeps the
    dictionary sorted, and every measurement it removes comes right after
    a measurement with an equal value, so the first one is never
    removed. *)
Theorem compact_preserves_get (ts : TS) :
  wf ts ->
  exists ts', compact ts = Ok ts' /\ wf ts' /\
    (forall t, same_outcome (get ts' t) (get ts t)) /\
    (forall x, In x (items ts') -> In x (items ts)) /\
    (forall x, In x (items ts) -> ~ In x (items ts') ->
       exists l1 x0 l2, items ts = l1 ++ x0 :: x :: l2 /\
                        py_eq (snd x) (snd x0) = true).
Proof.
  intros W. exists (with_d ts (compacted None (_d ts))).
  assert (W' : wf (with_d ts (compacted None (_d ts))))
    by (apply compacted_sorted; exact W).
  split; [now apply compact_result|]. split; [exact W'|].
  unfold items. simpl. repeat split.
  - intros t. rewrite !get_floor by trivial. simpl.
    pose proof (floor_compacted None (_d ts) t W) as F.
    destruct (floor (_d ts) t) as [kv|].
    + destruct (floor (compacted None (_d ts)) t) as [kv'|]; [exact F|].
      destruct F as (pv & E & _). discriminate.
    + rewrite F. destruct ts as [[|[k v] d] dflt]; apply same_outcome_refl.
  - intros x. apply compacted_In.
  - intros x I N.
    destruct (compacted_removed None (_d ts) x I N)
      as [R|(pv & rest & E & _)]; [exact R|discriminate].
Qed.

End CompactFacts.

(** ** The period iterator *)

Section PeriodFacts.
Context {T : Type} `{TimeType T}.

Local Abbreviation TS := (TimeSeries T).
Local Abbreviation dict := (list (T * value)).
Local Abbreviation period := (T * T * value)%type.

Lemma check_boundaries_some (ts : TS) (s e : T) :
  tlt s e = true ->
  exists m, _check_boundaries ts (Some s) (Some e) true = Ok (s, e, m).
Proof.
  intros L. unfold _check_boundaries. simpl. unfold tge. rewrite L. simpl.
  eauto.
Qed.

Lemma check_boundaries_bad (ts : TS) (s e : T) :
  tlt s e = false ->
  _check_boundaries ts (Some s) (Some e) true = Raise ValueError.
Proof.
  intros L. unfold _check_boundaries. simpl. unfold tge. now rewrite L.
Qed.

Lemma filter_none {A : Type} (f : A -> bool) (l : list A) :
  (forall x, In x l -> f x = false) -> filter f l = [].
Proof.
  induction l as [|a l IH]; intros N; [reflexivity|].
  simpl. rewrite (N a (or_introl eq_refl)). apply IH. intros x I.
  apply N. now right.
Qed.

Lemma in_keys (d : dict) (k : T) :
  In k (keys d) <-> exists v, In (k, v) d.
Proof.
  unfold keys. rewrite in_map_iff. split.
  - intros [[k' v] [E I]]. simpl in E. subst. eauto.
  - intros [v I]. exists (k, v). auto.
Qed.

Lemma sorted_head_lt_key (k : T) (v : value) (d : dict) (k' : T) :
  sorted_keys ((k, v) :: d) = true -> In k' (keys d) -> tlt k k' = true.
Proof.
  intros S I. apply in_keys in I. destruct I as [v' I].
  apply (sorted_head_lt _ _ _ _ S I).
Qed.

Lemma bisect_right_zero (d : dict) (s : T) :
  (forall k, In k (keys d) -> tlt s k = true) -> bisect_right d s = 0.
Proof.
  destruct d as [|[k v] d]; trivial. intros A. simpl.
  now rewrite (A k (or_introl eq_refl)).
Qed.

(** The keys handed out by [keys_slice] between the two bisections are the
    recorded keys of the window [(s, e]]. *)
Lemma keys_slice_range (d : dict) (s e : T) :
  sorted_keys d = true -> tlt e s = false ->
  keys_slice d (bisect_right d s) (bisect_right d e) = keys_upto s e d.
Proof.
  unfold keys_slice, keys_upto. induction d as [|[k v] d IH]; intros S L.
  - reflexivity.
  - pose proof (sorted_tail _ _ S) as S'. specialize (IH S' L).
    simpl. destruct (tlt s k) eqn:Ls.
    + destruct (tlt e k) eqn:Le; unfold tle at 1; rewrite Le; simpl.
      * symmetry. apply filter_none. intros k' I.
        pose proof (sorted_head_lt_key _ _ _ _ S I). unfold tle.
        apply andb_false_iff. right. torder.
      * rewrite (bisect_right_zero d s) in IH.
        -- simpl in IH. rewrite Nat.sub_0_r in IH. now rewrite IH.
        -- intros k' I. pose proof (sorted_head_lt_key _ _ _ _ S I). torder.
    + assert (Le : tlt e k = false) by torder. rewrite Le. simpl. exact IH.
Qed.

Lemma chain_ok_filter (f : T -> bool) (d : dict) (hi lo : T) :
  sorted_keys d = true -> tlt hi lo = false ->
  (forall k, f k = true -> tlt hi k = false) ->
  (forall k, In k (keys d) -> f k = true -> tlt lo k = true) ->
  chain_ok hi lo (filter f (keys d)).
Proof.
  revert lo. induction d as [|[k v] d IH]; intros lo S L B A; [exact L|].
  pose proof (sorted_tail _ _ S) as S'. simpl.
  destruct (f k) eqn:F.
  - simpl. split.
    + apply A; simpl; auto.
    + apply IH; auto. intros k' I _. apply (sorted_head_lt_key _ _ _ _ S I).
  - apply IH; auto. intros k' I. apply A. simpl. auto.
Qed.

Lemma chain_ok_upto (d : dict) (s e : T) :
  sorted_keys d = true -> tlt s e = true ->
  chain_ok e s (keys_upto s e d).
Proof.
  intros S L. apply chain_ok_filter; trivial.
  - torder.
  - intros k F. apply andb_true_iff in F. destruct F as [_ F]. torder.
  - intros k _ F. apply andb_true_iff in F. tauto.
Qed.

Lemma chain_ok_le (hi t0 : T) (rest : list T) :
  chain_ok hi t0 rest -> tlt hi t0 = false.
Proof.
  revert t0. induction rest as [|t1 rest IH]; intros t0; simpl; trivial.
  intros [L C]. specialize (IH _ C). torder.
Qed.

(** The first lines of [iterperiods] compute [get(start)]. *)
Lemma start_value_get (ts : TS) (s : T) :
  (if 0 <? bisect_right (_d ts) s
   then k <- iloc (_d ts) (bisect_right (_d ts) s - 1) ;; getitem (_d ts) k
   else default ts) = get ts s.
Proof.
  unfold get, _get_previous.
  destruct (0 <? bisect_right (_d ts) s); trivial.
  destruct (iloc (_d ts) (bisect_right (_d ts) s - 1)); simpl; trivial.
  now destruct (getitem (_d ts) a).
Qed.

Lemma chain_ok_at_end (hi : T) (rest : list T) :
  chain_ok hi hi rest -> rest = [].
Proof.
  destruct rest as [|t1 rest]; trivial. simpl. intros [L C].
  pose proof (chain_ok_le _ _ _ C). exfalso. torder.
Qed.

Lemma upto_below (s e : T) (d : dict) :
  filter (fun k => tlt k e) (keys_upto s e d) = keys_between s e d.
Proof.
  unfold keys_upto, keys_between. induction (keys d) as [|k l IH]; trivial.
  simpl. unfold tle at 1.
  destruct (tlt s k) eqn:A, (tlt e k) eqn:B, (tlt k e) eqn:C; simpl;
    rewrite ?C, ?IH; trivial.
  torder.
Qed.

(** *** The lazy [islice] iterator against a fixed list of keys

    The generator reads each key from the dictionary as it is at that
    moment.  It reads the keys that were recorded when [islice] was
    called if the consumer leaves the series alone, or if there is at
    most one key to read, which is read before the consumer runs. *)

Lemma keys_slice_step (l : list T) (i n : nat) (k : T) :
  nth_error l i = Some k ->
  firstn (S n) (skipn i l) = k :: firstn n (skipn (S i) l).
Proof.
  revert i. induction l as [|x l IH]; intros [|i] E; try discriminate.
  - simpl in E. inversion E. reflexivity.
  - simpl in E. specialize (IH i E). simpl skipn. exact IH.
Qed.

Lemma islice_next_ok (d : dict) (i : nat) :
  i < length d -> exists k, nth_error (keys d) i = Some k.
Proof.
  intros L. destruct (nth_error (keys d) i) as [k|] eqn:E; [eauto|].
  apply nth_error_None in E. unfold keys in E. rewrite length_map in E. lia.
Qed.

Lemma live_kept {A : Type} (f : T -> T -> value -> bool)
      (body : A -> period -> TS -> result (A * TS)) (ts : TS) (e : T) :
  (forall acc p r, body acc p ts = Ok r -> snd r = ts) ->
  forall n i t0 v acc,
    i + n <= length (_d ts) ->
    iterperiods_loop f body (seq i n) e t0 v acc ts
    = snapshot_loop f body (firstn n (skipn i (keys (_d ts)))) e t0 v acc ts.
Proof.
  intros Keep. induction n as [|n IH]; intros i t0 v acc L.
  - reflexivity.
  - destruct (islice_next_ok (_d ts) i) as [k E]; [lia|].
    rewrite (keys_slice_step _ _ _ _ E).
    cbn [seq iterperiods_loop snapshot_loop]. unfold islice_next.
    rewrite E. cbn [bind].
    destruct (f t0 k v).
    + destruct (body acc (t0, k, v) ts) as [r|x] eqn:B; [|reflexivity].
      cbn [bind]. rewrite (Keep _ _ _ B).
      destruct (get ts k) as [v'|x]; [|reflexivity].
      cbn [bind]. apply IH. lia.
    + cbn [bind fst snd]. destruct (get ts k) as [v'|x]; [|reflexivity].
      cbn [bind]. apply IH. lia.
Qed.

Lemma live_short {A : Type} (f : T -> T -> value -> bool)
      (body : A -> period -> TS -> result (A * TS)) (e : T) :
  forall n i t0 v acc ts,
    n <= 1 -> i + n <= length (_d ts) ->
    iterperiods_loop f body (seq i n) e t0 v acc ts
    = snapshot_loop f body (firstn n (skipn i (keys (_d ts)))) e t0 v acc ts.
Proof.
  intros [|[|n]] i t0 v acc ts Ln L; [reflexivity| |lia].
  destruct (islice_next_ok (_d ts) i) as [k E]; [lia|].
  rewrite (keys_slice_step _ _ _ _ E).
  cbn [seq iterperiods_loop snapshot_loop firstn]. unfold islice_next.
  rewrite E. reflexivity.
Qed.

Lemma slice_bounds (d : dict) (s e : T) :
  bisect_right d s + (bisect_right d e - bisect_right d s) <= length d.
Proof.
  pose proof (bisect_right_bound d s). pose proof (bisect_right_bound d e).
  lia.
Qed.

(** A consumer that leaves the series alone. *)
Lemma for_iterperiods_kept {A : Type} (ts : TS) (start end_ : option T)
      (a : value_arg T) (body : A -> period -> TS -> result (A * TS))
      (acc : A) :
  (forall acc p r, body acc p ts = Ok r -> snd r = ts) ->
  for_iterperiods ts start end_ a body acc
  = for_snapshot ts start end_ a body acc.
Proof.
  intros Keep. unfold for_iterperiods, for_snapshot.
  destruct (_check_boundaries ts start end_ true) as [b|x]; [|reflexivity].
  cbn [bind].
  destruct (if 0 <? bisect_right (_d ts) (fst (fst b))
            then k <- iloc (_d ts) (bisect_right (_d ts) (fst (fst b)) - 1) ;;
                 getitem (_d ts) k
            else default ts) as [v0|x]; [|reflexivity].
  cbn [bind]. unfold islice, keys_slice.
  apply live_kept; [exact Keep|apply slice_bounds].
Qed.

Lemma iterperiods_snapshot (ts : TS) (start end_ : option T)
      (a : value_arg T) :
  iterperiods ts start end_ a
  = (r <- for_snapshot ts start end_ a
            (fun acc p ts' => Ok (acc ++ [p], ts')) [] ;;
     Ok (fst r)).
Proof.
  unfold iterperiods. rewrite for_iterperiods_kept; [reflexivity|].
  intros acc p r E. now inversion E.
Qed.

(** A window [(s, e]] that holds at most one recorded key. *)
Lemma for_iterperiods_short {A : Type} (ts : TS) (s e : T)
      (a : value_arg T) (body : A -> period -> TS -> result (A * TS))
      (acc : A) :
  wf ts -> length (keys_upto s e (_d ts)) <= 1 ->
  for_iterperiods ts (Some s) (Some e) a body acc
  = for_snapshot ts (Some s) (Some e) a body acc.
Proof.
  intros W N. unfold for_iterperiods, for_snapshot.
  destruct (tlt s e) eqn:L; [|now rewrite check_boundaries_bad].
  destruct (check_boundaries_some ts s e L) as [m ->].
  cbn [bind fst snd].
  destruct (if 0 <? bisect_right (_d ts) s
            then k <- iloc (_d ts) (bisect_right (_d ts) s - 1) ;;
                 getitem (_d ts) k
            else default ts) as [v0|x]; [|reflexivity].
  cbn [bind]. unfold islice, keys_slice.
  apply live_short; [|apply slice_bounds].
  rewrite <- (keys_slice_range (_d ts) s e W) in N by torder.
  unfold keys_slice in N. rewrite length_firstn, length_skipn in N.
  unfold keys in N. rewrite length_map in N.
  pose proof (slice_bounds (_d ts) s e). lia.
Qed.

(** The iterator run by a consumer that only collects the periods. *)
Lemma collect_loop (ts : TS) (end_ : T) :
  wf ts -> is_floating ts = false ->
  forall rest t0 v acc,
    chain_ok end_ t0 rest -> get ts t0 = Ok v ->
    exists ps : list period,
      snapshot_loop (fun _ _ _ => true)
        (fun acc p ts' => Ok (acc ++ [p], ts')) rest end_ t0 v acc ts
      = Ok (acc ++ ps, ts) /\
      map (fun p => fst (fst p)) ps
      = filter (fun k => tlt k end_) (t0 :: rest) /\
      map (fun p => snd (fst p)) ps
      = tl (filter (fun k => tlt k end_) (t0 :: rest) ++ [end_]) /\
      Forall (fun p => get ts (fst (fst p)) = Ok (snd p)) ps.
Proof.
  intros W NF. induction rest as [|t1 rest IH]; intros t0 v acc C G.
  - simpl in *. destruct (tlt t0 end_) eqn:L.
    + exists [(t0, end_, v)]. simpl. repeat split; auto.
    + exists []. simpl. rewrite app_nil_r. repeat split; auto.
  - destruct C as [L C]. pose proof (chain_ok_le _ _ _ C) as Le.
    destruct (get_ok ts t1 W NF) as [v' G'].
    destruct (IH t1 v' (acc ++ [(t0, t1, v)]) C G') as (ps & R & A & B & F).
    exists ((t0, t1, v) :: ps). cbn [snapshot_loop]. simpl bind.
    rewrite G'. simpl bind. rewrite R, <- app_assoc. simpl app.
    assert (L0 : tlt t0 end_ = true) by torder.
    split; [reflexivity|]. cbn [map filter fst snd]. rewrite L0, A, B.
    split; [reflexivity|]. split; [|constructor; auto].
    cbn [filter]. destruct (tlt t1 end_) eqn:L1; [reflexivity|].
    assert (t1 = end_) by torder. subst t1.
    rewrite (chain_ok_at_end _ _ C). reflexivity.
Qed.

(** C2, as the code has it: with the default predicate, on a series
    that has a value at [start] and for [start < end], [iterperiods]
    yields periods that tile [[start, end]]: the interval starts are
    [start] followed by the recorded keys strictly between [start] and
    [end]; each interval end is the next interval start, the last one
    being [end]; and each value is [get(t0)]. *)
Theorem iterperiods_tiles (ts : TS) (start end_ : T) :
  wf ts -> is_floating ts = false -> tlt start end_ = true ->
  exists ps : list period,
    iterperiods ts (Some start) (Some end_) NoFilter = Ok ps /\
    map (fun p => fst (fst p)) ps
    = start :: keys_between start end_ (items ts) /\
    map (fun p => snd (fst p)) ps
    = keys_between start end_ (items ts) ++ [end_] /\
    Forall (fun p => get ts (fst (fst p)) = Ok (snd p)) ps.
Proof.
  intros W NF L. rewrite iterperiods_snapshot. unfold for_snapshot.
  destruct (check_boundaries_some ts start end_ L) as [m ->].
  cbn [bind fst snd]. rewrite start_value_get.
  destruct (get_ok ts start W NF) as [v0 G]. rewrite G. cbn [bind].
  rewrite keys_slice_range by (trivial; torder).
  destruct (collect_loop ts end_ W NF (keys_upto start end_ (_d ts))
              start v0 [] (chain_ok_upto _ _ _ W L) G)
    as (ps & R & A & B & F).
  unfold _value_function. rewrite R. cbn [bind fst app].
  exists ps. split; [reflexivity|]. unfold items.
  cbn [filter] in A, B. rewrite L, upto_below in A, B.
  auto.
Qed.

End PeriodFacts.

(** ** Interval delete *)

Section IntervalDelete.
Context {T : Type} `{TimeType T}.

Local Abbreviation TS := (TimeSeries T).
Local Abbreviation dict := (list (T * value)).
Local Abbreviation period := (T * T * value)%type.

Lemma with_d_same (ts : TS) : with_d ts (_d ts) = ts.
Proof. now destruct ts. Qed.

Lemma try_del_spec (u : unit) (s e : T) (v : value) (ts : TS) :
  wf ts -> try_del u (s, e, v) ts = Ok (tt, with_d ts (discard (_d ts) s)).
Proof.
  intros W. unfold try_del. rewrite delitem_spec by exact W.
  destruct (has_key (_d ts) s) eqn:K; trivial.
  now rewrite discard_absent, with_d_same.
Qed.

Lemma discard_all_In (ks : list T) (d : dict) (x : T * value) :
  In x (discard_all d ks) <-> In x d /\ ~ In (fst x) ks.
Proof.
  unfold discard_all. revert d. induction ks as [|k ks IH]; intros d; simpl.
  - tauto.
  - rewrite IH, discard_In. intuition congruence.
Qed.

Lemma discard_all_sorted (ks : list T) (d : dict) :
  sorted_keys d = true -> sorted_keys (discard_all d ks) = true.
Proof.
  unfold discard_all. revert d. induction ks as [|k ks IH]; intros d S; trivial.
  simpl. apply IH. now apply discard_sorted.
Qed.

Lemma get_present (ts : TS) (k : T) :
  wf ts -> In k (keys (_d ts)) -> exists v, get ts k = Ok v.
Proof.
  intros W I. apply in_keys in I. destruct I as [v I].
  exists v. now apply get_at_key.
Qed.

Lemma delete_loop (dflt : Default) (end_ : T) :
  forall rest t0 v d,
    sorted_keys d = true -> chain_ok end_ t0 rest ->
    (forall k, In k rest -> In k (keys d)) ->
    snapshot_loop (fun _ _ _ => true) try_del rest end_ t0 v tt
                     (mkTS d dflt)
    = Ok (tt, mkTS (discard_all d (filter (fun k => tlt k end_) (t0 :: rest)))
                   dflt).
Proof.
  induction rest as [|t1 rest IH]; intros t0 v d S C A.
  - cbn [snapshot_loop filter]. destruct (tlt t0 end_); trivial.
    now rewrite try_del_spec.
  - destruct C as [L C]. pose proof (chain_ok_le _ _ _ C) as Le.
    cbn [snapshot_loop]. rewrite try_del_spec by exact S.
    cbn [bind fst snd]. unfold with_d. simpl _d. simpl _default.
    assert (S1 : sorted_keys (discard d t0) = true) by now apply discard_sorted.
    assert (A1 : forall k, In k (t1 :: rest) -> In k (keys (discard d t0))).
    { intros k I. assert (N : k <> t0).
      { destruct I as [<-|I]; [torder|].
        clear - I C L H. revert t1 C L.
        induction rest as [|t2 rest IHr]; intros t1 C L; [destruct I|].
        destruct C as [L2 C]. destruct I as [<-|I].
        - torder.
        - apply (IHr I t2 C). torder. }
      specialize (A k I). apply in_keys in A. destruct A as [vk A].
      apply in_keys. exists vk. apply discard_In. auto. }
    destruct (get_present (mkTS (discard d t0) dflt) t1 S1
                (A1 t1 (or_introl eq_refl))) as [v1 G].
    rewrite G. cbn [bind].
    rewrite (IH t1 v1 (discard d t0) S1 C (fun k I => A1 k (or_intror I))).
    assert (L0 : tlt t0 end_ = true) by torder.
    cbn [filter]. rewrite L0. reflexivity.
Qed.

Lemma remove_points_result (ts : TS) (s e : T) :
  wf ts -> is_floating ts = false -> tlt s e = true ->
  length (keys_upto s e (_d ts)) <= 1 ->
  remove_points_from_interval ts s e
  = Ok (with_d ts (filter (fun kv => negb (in_window s e kv)) (_d ts))).
Proof.
  intros W NF L N1. unfold remove_points_from_interval.
  rewrite for_iterperiods_short by trivial. unfold for_snapshot.
  destruct (check_boundaries_some ts s e L) as [m ->].
  cbn [bind fst snd]. rewrite start_value_get.
  destruct (get_ok ts s W NF) as [v0 ->]. cbn [bind].
  rewrite keys_slice_range by (trivial; torder).
  destruct ts as [d dflt]. unfold wf in W. simpl _d in *.
  unfold _value_function.
  rewrite delete_loop; trivial.
  - cbn [bind snd]. unfold with_d. simpl. f_equal. f_equal.
    rewrite L, upto_below. apply sorted_ext.
    + now apply discard_all_sorted.
    + now apply sorted_filter.
    + intros x. rewrite discard_all_In, filter_In. unfold in_window.
      split; intros [I N]; split; trivial.
      * apply negb_true_iff. apply andb_false_iff. unfold tle.
        destruct (tlt (fst x) s) eqn:A; [now left|right].
        destruct (tlt (fst x) e) eqn:B; trivial. exfalso. apply N.
        destruct (time_eq_dec s (fst x)) as [E|E]; [now left|right].
        unfold keys_between. apply filter_In. split.
        -- apply in_keys. exists (snd x). now destruct x.
        -- rewrite B, andb_true_r. torder.
      * apply negb_true_iff in N. apply andb_false_iff in N. unfold tle in N.
        intros [E|K].
        -- rewrite <- E, tlt_irrefl, L in N. destruct N; discriminate.
        -- unfold keys_between in K. apply filter_In in K.
           destruct K as [_ K]. apply andb_true_iff in K. destruct K as [A B].
           rewrite B, (tlt_asym _ _ A) in N. destruct N; discriminate.
  - now apply chain_ok_upto.
  - intros k I. unfold keys_upto in I. now apply filter_In in I.
Qed.

(** C3, as the code has it.  The generator behind [del ts[s:e]] reads
    the keys of [(s, e]] one by one from the dictionary that the loop is
    deleting from; when at most one recorded key lies in [(s, e]] it is
    read before the first deletion, and then [del ts[s:e]] removes
    exactly the recorded keys of [[s, e)] and touches nothing else.
    [get(t)] is unchanged for [t < s] when a key [<= t] exists or the
    default is explicit, and for every [t] such that a recorded key lies
    in [[e, t]]. *)
Theorem remove_points_frame (ts : TS) (s e : T) :
  wf ts -> is_floating ts = false -> tlt s e = true ->
  length (keys_upto s e (items ts)) <= 1 ->
  exists ts', remove_points_from_interval ts s e = Ok ts' /\ wf ts' /\
    items ts' = filter (fun kv => negb (in_window s e kv)) (items ts) /\
    (forall t, tlt t s = true ->
       (exists x, In x (items ts) /\ tle (fst x) t = true) \/
       (exists dv, _default ts = Explicit dv) ->
       get ts' t = get ts t) /\
    (forall t x, In x (items ts) -> tle e (fst x) = true ->
       tle (fst x) t = true -> get ts' t = get ts t).
Proof.
  intros W NF L N1.
  set (d' := filter (fun kv => negb (in_window s e kv)) (_d ts)).
  assert (W' : wf (with_d ts d')) by (apply sorted_filter; exact W).
  exists (with_d ts d'). split; [now apply remove_points_result|].
  split; [exact W'|]. split; [reflexivity|]. unfold items. split.
  - intros t Lt Hyp. rewrite !get_floor by trivial. simpl _d.
    assert (F : floor d' t = floor (_d ts) t).
    { apply floor_ext; trivial. intros x Lx. unfold d'. rewrite filter_In.
      unfold in_window, tle. assert (A : tlt (fst x) s = true) by torder.
      rewrite A. simpl. tauto. }
    rewrite F. destruct (floor (_d ts) t) as [kv|] eqn:Fl; trivial.
    destruct Hyp as [(x & I & Lx)|(dv & D)].
    + pose proof (floor_None _ _ W Fl x I). torder.
    + unfold default, is_floating. simpl. now rewrite D.
  - intros t x I Le Lt. rewrite !get_floor by trivial. simpl _d.
    destruct (floor (_d ts) t) as [kv|] eqn:Fl.
    + rewrite (floor_intro d' t kv); trivial.
      * unfold d'. apply filter_In. split; [eapply floor_In; eauto|].
        pose proof (floor_greatest _ _ _ W Fl x I) as G.
        unfold in_window. apply negb_true_iff, andb_false_iff. right.
        assert (tlt (fst kv) (fst x) = false) by (apply G; torder).
        torder.
      * eapply floor_le; eauto.
      * intros y J. apply (floor_greatest _ _ _ W Fl).
        unfold d' in J. now apply filter_In in J.
    + pose proof (floor_None _ _ W Fl x I). torder.
Qed.

End IntervalDelete.

(** ** Scenarios and concrete instances *)

Section Instances.

Local Abbreviation periods_t0 :=
  (map (fun p : etime * etime * value => fst (fst p))).

(** C4: scenario S3 ([test_remove_points_from_interval]): from
    [[(0,0),(1,2),(3,1),(4,0)]] with default 0, after [del ts[3.5:4.5]]
    [ts[5]] is 1; after [ts[4] = 0] and [del ts[3:4.5]] it is 2; after
    [ts[3] = 1], [ts[4] = 0] and [del ts[3.5:4]] it is 0. *)
Theorem scenario_interval_delete :
  (ts1 <- remove_points_from_interval ex_remove_points (tq 7 2) (tq 9 2) ;;
   g1 <- get ts1 (tz 5) ;;
   ts2 <- set ts1 (tz 4) (VInt 0) false ;;
   ts3 <- remove_points_from_interval ts2 (tz 3) (tq 9 2) ;;
   g2 <- get ts3 (tz 5) ;;
   ts4 <- set ts3 (tz 3) (VInt 1) false ;;
   ts5 <- set ts4 (tz 4) (VInt 0) false ;;
   ts6 <- remove_points_from_interval ts5 (tq 7 2) (tz 4) ;;
   g3 <- get ts6 (tz 5) ;;
   Ok (g1, g2, g3))
  = Ok (VInt 1, VInt 2, VInt 0).
Proof. vm_compute. reflexivity. Qed.

(** C1 at an interval end that is a recorded key: on [[(0,1),(2,3)]],
    [set_interval(1, 2, 7)] sets [ts[1]] to 7 but leaves [ts[2]] at 1,
    the value of the last period, where it was 3 before the call. *)
Theorem set_interval_overwrites_end_key :
  get ex_two_points (tz 2) = Ok (VInt 3) /\
  (ts' <- set_interval ex_two_points (tz 1) (tz 2) (VInt 7) false ;;
   g1 <- get ts' (tz 1) ;;
   g2 <- get ts' (tz 2) ;;
   Ok (g1, g2, items ts'))
  = Ok (VInt 7, VInt 1,
        [(tz 0, VInt 1); (tz 1, VInt 7); (tz 2, VInt 1)]).
Proof. split; vm_compute; reflexivity. Qed.

(** C2 as stated fails when [end] is a recorded key: on [[(0,1),(2,3)]],
    [iterperiods(1, 2)] yields the single period [(1, 2, 1)], so the key
    2, which is [> start] and [<= end], starts no period. *)
Lemma iterperiods_end_key_counterexample :
  exists ps,
    iterperiods ex_two_points (Some (tz 1)) (Some (tz 2)) NoFilter = Ok ps /\
    tl (periods_t0 ps) <> keys_upto (tz 1) (tz 2) (items ex_two_points).
Proof.
  eexists. split; [vm_compute; reflexivity|]. vm_compute. discriminate.
Qed.

(** C3 as stated fails after the window: on the series of scenario S3,
    [del ts[3.5:4.5]] changes [ts[5]], although [5 >= 4.5]. *)
Lemma remove_points_after_window_counterexample :
  exists ts',
    remove_points_from_interval ex_remove_points (tq 7 2) (tq 9 2) = Ok ts' /\
    tle (tq 9 2) (tz 5) = true /\
    get ex_remove_points (tz 5) = Ok (VInt 0) /\
    get ts' (tz 5) = Ok (VInt 1).
Proof.
  eexists. split; [vm_compute; reflexivity|]. repeat split.
Qed.

(** More than one recorded key in [(s, e]]: the generator reads the
    later keys at their rank in the dictionary that the loop has
    changed meanwhile.  [del ts[1:4.5]] on the series of scenario S3
    runs out of keys; with one more measurement it leaves the key 4 of
    the window in place.  On the series of [test_init_data],
    [set_interval(1.5, 7, 9)] reads the key 2 twice and deletes it
    twice, and [set_interval(1.5, 9, 2, compact=True)] runs out of
    keys. *)
Example interval_operations_on_two_keys :
  remove_points_from_interval ex_remove_points (tz 1) (tq 9 2)
  = Raise IndexError /\
  (exists ts', remove_points_from_interval ex_five_points (tz 1) (tq 9 2)
               = Ok ts' /\ keys (items ts') = [tz 0; tz 4; tz 6]) /\
  set_interval ex_init_data (tq 3 2) (tz 7) (VInt 9) false = Raise KeyError /\
  set_interval ex_init_data (tq 3 2) (tz 9) (VInt 2) true = Raise IndexError.
Proof.
  split; [vm_compute; reflexivity|]. split.
  - eexists. split; vm_compute; reflexivity.
  - split; vm_compute; reflexivity.
Qed.

(** C6 as stated fails for a value that differs from itself: writing the
    NaN that is stored at 0 again, with [compact], takes the branch
    [get(t) != v] and stores the same measurement, so the points are
    unchanged although [get(0) == v] is false. *)
Lemma set_compact_nan_counterexample :
  exists ts' cur,
    NaN.set ex_nan (tz 0) NaN.Nan true = Ok ts' /\
    NaN.items ts' = NaN.items ex_nan /\
    NaN.len ex_nan <> 0 /\
    NaN.get ex_nan (tz 0) = Ok cur /\
    NaN.py_eq cur NaN.Nan = false.
Proof.
  exists ex_nan, NaN.Nan. repeat split; try (vm_compute; reflexivity).
  discriminate.
Qed.

Lemma ex_init_data_wf : wf ex_init_data.
Proof. vm_compute. reflexivity. Qed.

Lemma ex_remove_points_wf : wf ex_remove_points.
Proof. vm_compute. reflexivity. Qed.

Lemma ex_two_points_wf : wf ex_two_points.
Proof. vm_compute. reflexivity. Qed.

Lemma ex_repeated_wf : wf ex_repeated.
Proof. vm_compute. reflexivity. Qed.

(** [get_previous_spec] on the series of [test_init_data] at time 7. *)
Lemma get_previous_spec_witness :
  wf ex_init_data /\
  ((exists e, get ex_init_data (tz 7) = Raise e)
   <-> is_floating ex_init_data = true) /\
  (is_floating ex_init_data = false ->
   exists v, get ex_init_data (tz 7) = Ok v /\
     ((exists k, In (k, v) (items ex_init_data) /\ tle k (tz 7) = true /\
                 forall k' v', In (k', v') (items ex_init_data) ->
                               tle k' (tz 7) = true -> tle k' k = true)
      \/
      ((forall k' v', In (k', v') (items ex_init_data) ->
                      tlt (tz 7) k' = true) /\
       match _default ex_init_data with
       | EXTEND_BACK => exists k0 rest, items ex_init_data = (k0, v) :: rest
       | Explicit dv => v = dv
       end))).
Proof.
  split; [exact ex_init_data_wf|].
  exact (get_previous_spec ex_init_data (tz 7) ex_init_data_wf).
Defined.

(** [set_compact_noop_iff] on the same series: [set(7, 1, compact=True)]. *)
Lemma set_compact_noop_iff_witness :
  wf ex_init_data /\
  exists ts', set ex_init_data (tz 7) (VInt 1) true = Ok ts' /\
    (items ts' = items ex_init_data <->
     len ex_init_data <> 0 /\
     exists cur, get ex_init_data (tz 7) = Ok cur /\
                 py_eq cur (VInt 1) = true).
Proof.
  split; [exact ex_init_data_wf|].
  exact (set_compact_noop_iff ex_init_data (tz 7) (VInt 1) ex_init_data_wf).
Defined.

(** [compact_preserves_get] on a series with a repeated value. *)
Lemma compact_preserves_get_witness :
  wf ex_repeated /\
  exists ts', compact ex_repeated = Ok ts' /\ wf ts' /\
    (forall t, same_outcome (get ts' t) (get ex_repeated t)) /\
    (forall x, In x (items ts') -> In x (items ex_repeated)) /\
    (forall x, In x (items ex_repeated) -> ~ In x (items ts') ->
       exists l1 x0 l2, items ex_repeated = l1 ++ x0 :: x :: l2 /\
                        py_eq (snd x) (snd x0) = true).
Proof.
  split; [exact ex_repeated_wf|].
  exact (compact_preserves_get ex_repeated ex_repeated_wf).
Defined.

(** [iterperiods_tiles] on the series of [test_init_data] over [1.5, 8]. *)
Lemma iterperiods_tiles_witness :
  (wf ex_init_data /\ is_floating ex_init_data = false /\
   tlt (tq 3 2) (tz 8) = true) /\
  exists ps,
    iterperiods ex_init_data (Some (tq 3 2)) (Some (tz 8)) NoFilter = Ok ps /\
    periods_t0 ps = tq 3 2 :: keys_between (tq 3 2) (tz 8) (items ex_init_data)
    /\
    map (fun p => snd (fst p)) ps
    = keys_between (tq 3 2) (tz 8) (items ex_init_data) ++ [tz 8] /\
    Forall (fun p => get ex_init_data (fst (fst p)) = Ok (snd p)) ps.
Proof.
  split; [repeat split; exact ex_init_data_wf|].
  exact (iterperiods_tiles ex_init_data (tq 3 2) (tz 8) ex_init_data_wf
           eq_refl eq_refl).
Defined.

(** [remove_points_frame] on the series of scenario S3 over [3.5, 4.5]. *)
Lemma remove_points_frame_witness :
  (wf ex_remove_points /\ is_floating ex_remove_points = false /\
   tlt (tq 7 2) (tq 9 2) = true /\
   length (keys_upto (tq 7 2) (tq 9 2) (items ex_remove_points)) <= 1) /\
  exists ts',
    remove_points_from_interval ex_remove_points (tq 7 2) (tq 9 2) = Ok ts' /\
    wf ts' /\
    items ts' = filter (fun kv => negb (in_window (tq 7 2) (tq 9 2) kv))
                       (items ex_remove_points) /\
    (forall t, tlt t (tq 7 2) = true ->
       (exists x, In x (items ex_remove_points) /\ tle (fst x) t = true) \/
       (exists dv, _default ex_remove_points = Explicit dv) ->
       get ts' t = get ex_remove_points t) /\
    (forall t x, In x (items ex_remove_points) ->
       tle (tq 9 2) (fst x) = true ->
       tle (fst x) t = true -> get ts' t = get ex_remove_points t).
Proof.
  assert (N1 : length (keys_upto (tq 7 2) (tq 9 2) (items ex_remove_points))
               <= 1) by (vm_compute; constructor).
  split; [repeat split; solve [exact ex_remove_points_wf | exact N1]|].
  exact (remove_points_frame ex_remove_points (tq 7 2) (tq 9 2)
           ex_remove_points_wf eq_refl eq_refl N1).
Defined.

End Instances.

(** ** [slice] and the intersection of domains *)

Section DomainFacts.
Context {T : Type} `{TimeType T}.

Local Abbreviation TS := (TimeSeries T).
Local Abbreviation dict := (list (T * value)).

Lemma fill_sorted (f : T -> value) (ks : list T) (d : dict) :
  sorted_keys d = true -> sorted_keys (fill f ks d) = true.
Proof.
  unfold fill. revert d. induction ks as [|k ks IH]; intros d S; trivial.
  simpl. apply IH. now apply setitem_sorted.
Qed.

Lemma fill_In (f : T -> value) (ks : list T) (d : dict) (k : T) (v : value) :
  sorted_keys d = true ->
  (In (k, v) (fill f ks d) <->
   (In k ks /\ v = f k) \/ (In (k, v) d /\ ~ In k ks)).
Proof.
  unfold fill. revert d. induction ks as [|k0 ks IH]; intros d S.
  - simpl. tauto.
  - simpl. rewrite IH by now apply setitem_sorted.
    rewrite setitem_In by trivial. simpl.
    destruct (in_dec time_eq_dec k ks) as [I|N].
    + split; (intros [[_ E]|[_ N]]; [left; tauto | exfalso; tauto]).
    + split.
      * intros [[I _]|[[E|[I D]] _]]; [tauto| |].
        -- inversion E; subst. auto.
        -- right. split; trivial. intros [E|J]; auto.
      * intros [[[E|I] E']|[I N']]; [| tauto |].
        -- subst. auto.
        -- right. split; trivial. right. split; trivial.
           simpl. intros E. apply N'. auto.
Qed.

Lemma fill_app (f : T -> value) (ks ks' : list T) (d : dict) :
  fill f (ks ++ ks') d = fill f ks' (fill f ks d).
Proof. unfold fill. apply fold_left_app. Qed.

Lemma get_value_at (ts : TS) (k : T) :
  wf ts -> is_floating ts = false -> get ts k = Ok (value_at ts k).
Proof.
  intros W NF. unfold value_at. now destruct (get_ok ts k W NF) as [v ->].
Qed.

Lemma with_d_with_d (ts : TS) (d d' : dict) :
  with_d (with_d ts d) d' = with_d ts d'.
Proof. reflexivity. Qed.

Lemma slice_loop (ts : TS) (e : T) :
  wf ts -> is_floating ts = false ->
  forall rest t0 v res lastt,
    chain_ok e t0 rest -> get ts t0 = Ok v ->
    snapshot_loop (fun _ _ _ => true) slice_step rest e t0 v
                     (res, lastt) ts
    = Ok ((with_d res (fill (value_at ts)
                            (filter (fun k => tlt k e) (t0 :: rest)) (_d res)),
           if tlt t0 e then Some e else lastt), ts).
Proof.
  intros W NF. induction rest as [|t1 rest IH]; intros t0 v res lastt C G.
  - cbn [snapshot_loop filter]. destruct (tlt t0 e) eqn:L.
    + unfold slice_step. cbn [fst]. rewrite set_plain. cbn [bind].
      unfold fill. simpl. unfold value_at. now rewrite G.
    + unfold fill. simpl. now rewrite with_d_same.
  - destruct C as [L C]. pose proof (chain_ok_le _ _ _ C) as Le.
    assert (L0 : tlt t0 e = true) by torder.
    cbn [snapshot_loop]. unfold slice_step at 1. cbn [fst].
    rewrite set_plain. cbn [bind fst snd].
    rewrite (get_value_at ts t1 W NF). cbn [bind].
    rewrite (IH t1 _ _ (Some t1) C (get_value_at ts t1 W NF)).
    rewrite L0. cbn [filter]. rewrite L0.
    rewrite with_d_with_d. unfold with_d at 1. cbn [_d].
    assert (E : value_at ts t0 = v) by (unfold value_at; now rewrite G).
    unfold fill at 2. cbn [fold_left]. rewrite E.
    replace (if tlt t1 e then Some e else Some t1) with (Some e); trivial.
    destruct (tlt t1 e) eqn:L1; trivial. f_equal. torder.
Qed.

(** What [slice] builds: the value of the series at [start], at the
    recorded keys strictly inside the window, and at [end]. *)
Lemma slice_result (ts : TS) (s e : T) :
  wf ts -> is_floating ts = false -> tlt s e = true ->
  exists dv, default ts = Ok dv /\
    slice ts s e
    = Ok (mkTS (fill (value_at ts)
                     (s :: keys_between s e (_d ts) ++ [e]) [])
               (Explicit dv)).
Proof.
  intros W NF L. destruct (default_ok ts NF) as (dv & D & _).
  exists dv. split; trivial.
  destruct (check_boundaries_some ts s e L) as [m B].
  unfold slice. rewrite B, D. cbn [bind].
  rewrite for_iterperiods_kept.
  2:{ intros acc [[t0 t1] pv] r. unfold slice_step.
      destruct (set (fst acc) t0 pv false); cbn [bind]; intros E;
        now inversion E. }
  unfold for_snapshot. rewrite B. cbn [bind fst snd].
  rewrite start_value_get.
  rewrite (get_value_at ts s W NF). cbn [bind].
  rewrite keys_slice_range by (trivial; torder).
  unfold _value_function.
  rewrite (slice_loop ts e W NF _ s _ _ None (chain_ok_upto _ _ _ W L)
             (get_value_at ts s W NF)).
  cbn [bind fst snd]. rewrite L.
  rewrite (get_value_at ts e W NF). cbn [bind]. rewrite set_plain.
  unfold with_d. cbn [_d _default]. f_equal. f_equal.
  cbn [filter]. rewrite L, upto_below.
  change (s :: keys_between s e (_d ts) ++ [e])
    with ((s :: keys_between s e (_d ts)) ++ [e]).
  rewrite fill_app. reflexivity.
Qed.

Lemma slice_spec (ts : TS) (s e : T) :
  wf ts -> is_floating ts = false -> tlt s e = true ->
  exists r, slice ts s e = Ok r /\ wf r /\
    (forall k, In k (keys (items r)) <->
               k = s \/ In k (keys_between s e (items ts)) \/ k = e) /\
    (forall k v, In (k, v) (items r) -> get ts k = Ok v).
Proof.
  intros W NF L. destruct (slice_result ts s e W NF L) as (dv & _ & R).
  eexists. split; [exact R|]. unfold wf, items. cbn [_d]. split.
  - now apply fill_sorted.
  - split.
    + intros k. rewrite in_keys. split.
      * intros [v I]. apply fill_In in I; trivial.
        destruct I as [[I _]|[[] _]]. simpl in I. rewrite in_app_iff in I.
        simpl in I. intuition.
      * intros I. exists (value_at ts k). apply fill_In; trivial. left.
        split; trivial. simpl. rewrite in_app_iff. simpl. intuition.
    + intros k v I. apply fill_In in I; trivial.
      destruct I as [[_ ->]|[[] _]]. now apply get_value_at.
Qed.

Lemma and_with_other_spec (a other : TS) :
  wf other -> is_floating other = false ->
  forall its res,
    Forall (fun kv => get a (fst kv) = Ok (snd kv)) its ->
    and_with_other other its res
    = Ok (with_d res (fill (fun k => py_and (value_at a k) (value_at other k))
                           (keys its) (_d res))).
Proof.
  intros W NF. induction its as [|[time v] its IH]; intros res F.
  - simpl. unfold fill. simpl. now rewrite with_d_same.
  - inversion F as [|x l Hx F']; subst. simpl in Hx.
    cbn [and_with_other].
    assert (X : (if truthy v then get other time else Ok v)
                = Ok (py_and (value_at a time) (value_at other time))).
    { unfold value_at at 1. rewrite Hx. unfold py_and.
      destruct (truthy v); trivial. now apply get_value_at. }
    rewrite X. cbn [bind]. rewrite set_plain. cbn [bind].
    rewrite (IH _ F'). reflexivity.
Qed.

Lemma and_with_self_spec (self b : TS) :
  wf self -> is_floating self = false ->
  forall its res,
    Forall (fun kv => get b (fst kv) = Ok (snd kv)) its ->
    and_with_self self its res
    = Ok (with_d res (fill (fun k => py_and (value_at self k) (value_at b k))
                           (keys its) (_d res))).
Proof.
  intros W NF. induction its as [|[time v] its IH]; intros res F.
  - simpl. unfold fill. simpl. now rewrite with_d_same.
  - inversion F as [|x l Hx F']; subst. simpl in Hx.
    cbn [and_with_self]. rewrite (get_value_at self time W NF). cbn [bind].
    rewrite set_plain. cbn [bind]. rewrite (IH _ F').
    assert (E : value_at b time = v) by (unfold value_at; now rewrite Hx).
    unfold keys. cbn [map fst]. unfold fill at 2. cbn [fold_left].
    rewrite E. reflexivity.
Qed.

Lemma domain_not_floating (ts : TS) : is_domain ts -> is_floating ts = false.
Proof. unfold is_domain, is_floating. now intros ->. Qed.

(** C9, as the code has it: with [lower = max] of the two lower bounds
    and [upper = min] of the two upper bounds, [a & b] is the empty
    [Domain] when [lower >= upper]; otherwise it is a [Domain] whose keys
    are the keys of the two slices over [[lower, upper]] (each slice has
    the two bounds and the recorded keys strictly between them) and whose
    value at each key is [a[key] and b[key]].  The writes are plain
    writes: nothing compacts the result. *)
Theorem Domain_and_spec (a b : TS) :
  wf a -> wf b -> is_domain a -> is_domain b ->
  let lo := tmax (Domain_lower a) (Domain_lower b) in
  let hi := tmin (Domain_upper a) (Domain_upper b) in
  (tlt lo hi = false -> Domain_and a b = Ok Domain_new) /\
  (tlt lo hi = true ->
   exists sa sb r,
     slice a lo hi = Ok sa /\ slice b lo hi = Ok sb /\
     Domain_and a b = Ok r /\ wf r /\ is_domain r /\
     (forall k, In k (keys (items sa)) <->
                k = lo \/ In k (keys_between lo hi (items a)) \/ k = hi) /\
     (forall k, In k (keys (items sb)) <->
                k = lo \/ In k (keys_between lo hi (items b)) \/ k = hi) /\
     (forall k, In k (keys (items r)) <->
                In k (keys (items sa)) \/ In k (keys (items sb))) /\
     (forall k v, In (k, v) (items r) ->
        exists va vb, get a k = Ok va /\ get b k = Ok vb /\
                      v = py_and va vb)).
Proof.
  intros Wa Wb Da Db lo hi.
  pose proof (domain_not_floating a Da) as Na.
  pose proof (domain_not_floating b Db) as Nb.
  unfold Domain_and. fold lo hi. unfold tge. split; intros L; rewrite L.
  - reflexivity.
  - cbn [negb].
    destruct (slice_spec a lo hi Wa Na L) as (sa & Ra & Wsa & Ka & Va).
    destruct (slice_spec b lo hi Wb Nb L) as (sb & Rb & Wsb & Kb & Vb).
    exists sa, sb. rewrite Ra. cbn [bind].
    rewrite (and_with_other_spec a b Wb Nb (items sa) Domain_new)
      by (apply Forall_forall; intros [k v] I; now apply Va).
    cbn [bind]. rewrite Rb. cbn [bind].
    rewrite (and_with_self_spec a b Wa Na (items sb))
      by (apply Forall_forall; intros [k v] I; now apply Vb).
    eexists. split; [reflexivity|]. split; [reflexivity|].
    split; [reflexivity|]. unfold wf, items. cbn [_d with_d Domain_new].
    set (F := fun k => py_and (value_at a k) (value_at b k)).
    assert (S1 : sorted_keys (fill F (keys (_d sa)) []) = true)
      by now apply fill_sorted.
    assert (M : forall k v,
               In (k, v) (fill F (keys (_d sb)) (fill F (keys (_d sa)) []))
               <-> (In k (keys (_d sa)) \/ In k (keys (_d sb))) /\ v = F k).
    { intros k v. rewrite fill_In by trivial.
      rewrite (fill_In F (keys (_d sa)) []) by trivial. simpl.
      destruct (in_dec time_eq_dec k (keys (_d sb))); tauto. }
    split; [now apply fill_sorted|]. split; [reflexivity|].
    split; [exact Ka|]. split; [exact Kb|]. split.
    + intros k. rewrite in_keys. split.
      * intros [v I]. apply M in I. tauto.
      * intros I. exists (F k). apply M. auto.
    + intros k v I. apply M in I. destruct I as [_ ->].
      exists (value_at a k), (value_at b k).
      repeat split; now apply get_value_at.
Qed.

End DomainFacts.

(** ** The n-ary merge *)

Section MergeFacts.
Context {T : Type} `{TimeType T}.

Local Abbreviation TS := (TimeSeries T).
Local Abbreviation queue_t := (list (entry T)).

Lemma key_lt_trans (a b c : T * nat) : key_lt a b -> key_lt b c -> key_lt a c.
Proof.
  unfold key_lt. intros [L1|[E1 L1]] [L2|[E2 L2]].
  - left. torder.
  - left. now rewrite <- E2.
  - left. now rewrite E1.
  - right. split; [congruence|lia].
Qed.

Lemma key_lt_nondecreasing (a b : T * nat) :
  key_lt a b -> tlt (fst b) (fst a) = false.
Proof.
  intros [L|[E _]].
  - now apply tlt_asym.
  - rewrite E. apply tlt_irrefl.
Qed.

Lemma entry_lt_key (a b : entry T) :
  entry_lt a b = true -> key_lt (entry_key a) (entry_key b).
Proof.
  unfold entry_lt, key_lt. simpl. intros E. apply orb_true_iff in E.
  destruct E as [E|E]; [now left|right].
  apply andb_true_iff in E. destruct E as [E1 E2].
  apply teqb_eq in E1. apply Nat.ltb_lt in E2. auto.
Qed.

Lemma entry_lt_false (a b : entry T) :
  entry_lt a b = false -> e_index a <> e_index b ->
  key_lt (entry_key b) (entry_key a).
Proof.
  unfold entry_lt, key_lt. simpl. intros E N. apply orb_false_iff in E.
  destruct E as [E1 E2]. destruct (tlt (e_t b) (e_t a)) eqn:L; [now left|].
  right. assert (Et : e_t a = e_t b) by torder. split; [congruence|].
  rewrite Et, teqb_refl in E2. simpl in E2. apply Nat.ltb_ge in E2. lia.
Qed.

Lemma queue_put_In (e x : entry T) (q : queue_t) :
  In x (queue_put e q) <-> x = e \/ In x q.
Proof.
  induction q as [|y q IH]; simpl.
  - intuition.
  - destruct (entry_lt e y); simpl; rewrite ?IH; intuition.
Qed.

Lemma queue_put_indices (e : entry T) (q : queue_t) (i : nat) :
  In i (map e_index (queue_put e q)) <-> i = e_index e \/ In i (map e_index q).
Proof.
  rewrite !in_map_iff. split.
  - intros (x & E & I). apply queue_put_In in I. destruct I as [->|I]; eauto.
  - intros [->|(x & E & I)].
    + exists e. split; trivial. apply queue_put_In. auto.
    + exists x. split; trivial. apply queue_put_In. auto.
Qed.

Lemma queue_put_NoDup (e : entry T) (q : queue_t) :
  NoDup (map e_index q) -> ~ In (e_index e) (map e_index q) ->
  NoDup (map e_index (queue_put e q)).
Proof.
  induction q as [|y q IH]; simpl; intros N F.
  - constructor; [intros []|constructor].
  - inversion N as [|? ? Ny Nq]; subst. destruct (entry_lt e y); simpl.
    + constructor; trivial.
    + constructor.
      * rewrite queue_put_indices. intros [E|I]; [|contradiction].
        apply F. auto.
      * apply IH; trivial. intros I. apply F. auto.
Qed.

Lemma queue_put_ascending (e : entry T) (q : queue_t) :
  lex_ascending (map entry_key q) -> ~ In (e_index e) (map e_index q) ->
  lex_ascending (map entry_key (queue_put e q)).
Proof.
  induction q as [|y q IH]; simpl; intros A F.
  - split; [intros ? []|exact I].
  - destruct A as [Ay Aq]. destruct (entry_lt e y) eqn:L; simpl.
    + split; [|split; trivial]. intros k [<-|I].
      * now apply entry_lt_key.
      * eapply key_lt_trans; [apply entry_lt_key; exact L|]. now apply Ay.
    + split.
      * intros k I. apply in_map_iff in I. destruct I as (x & <- & I).
        apply queue_put_In in I. destruct I as [->|I].
        -- apply entry_lt_false; trivial. intros E. apply F. auto.
        -- apply Ay. now apply in_map.
      * apply IH; trivial. intros I. apply F. auto.
Qed.

Lemma list_set_ok (state : list value) (i : nat) (v : value) :
  i < length state ->
  exists state', list_set state i v = Ok state' /\
                 length state' = length state.
Proof.
  revert i. induction state as [|x state IH]; intros i L; simpl in L; [lia|].
  destruct i as [|i]; simpl.
  - eexists. split; reflexivity.
  - destruct (IH i) as (state' & -> & E); [lia|]. simpl.
    eexists. split; [reflexivity|]. simpl. now rewrite E.
Qed.

Lemma next_queue_In (e x : entry T) (q : queue_t) :
  In x (next_queue e q) ->
  In x q \/ exists t v it, e_iterator e = (t, v) :: it /\
                           x = mkEntry t (e_index e) v it.
Proof.
  unfold next_queue. destruct (e_iterator e) as [|[t v] it]; [auto|].
  intros I. apply queue_put_In in I. destruct I as [->|I]; [|auto].
  right. eauto.
Qed.

Lemma next_queue_ok (n : nat) (e : entry T) (q : queue_t) :
  Forall (entry_ok n) (e :: q) -> NoDup (map e_index (e :: q)) ->
  lex_ascending (map entry_key (e :: q)) ->
  Forall (entry_ok n) (next_queue e q) /\
  NoDup (map e_index (next_queue e q)) /\
  lex_ascending (map entry_key (next_queue e q)) /\
  (forall x, In x (map entry_key (next_queue e q)) -> key_lt (entry_key e) x).
Proof.
  intros F N A. inversion F as [|? ? [Se Ie] Fq]; subst.
  inversion N as [|? ? Ne Nq]; subst. destruct A as [Ae Aq].
  assert (B : forall x, In x (map entry_key (next_queue e q)) ->
                        key_lt (entry_key e) x).
  { intros x I. apply in_map_iff in I. destruct I as (y & <- & I).
    apply next_queue_In in I. destruct I as [I|(t & v & it & E & ->)].
    - apply Ae. now apply in_map.
    - left. simpl. rewrite E in Se.
      apply (sorted_head_lt _ _ _ (t, v) Se). now left. }
  unfold next_queue in *. destruct (e_iterator e) as [|[t v] it] eqn:E.
  - auto.
  - repeat split; trivial.
    + apply Forall_forall. intros x I. apply queue_put_In in I.
      destruct I as [->|I].
      * unfold entry_ok. cbn [e_t e_value e_iterator e_index].
        split; [eapply sorted_tail; eauto | trivial].
      * rewrite Forall_forall in Fq. auto.
    + now apply queue_put_NoDup.
    + now apply queue_put_ascending.
Qed.

(** The loop of [_iter_merge] runs to the end of the queue and yields in
    strictly ascending [(time, index)] order. *)
Lemma merge_loop_order (n : nat) (q : queue_t) (state : list value) :
  Forall (entry_ok n) q -> NoDup (map e_index q) ->
  lex_ascending (map entry_key q) -> length state = n ->
  exists ys, merge_loop q state = (ys, Exhausted) /\
    lex_ascending (map yield_key ys) /\
    (forall p, (forall x, In x (map entry_key q) -> key_lt p x) ->
               forall y, In y (map yield_key ys) -> key_lt p y).
Proof.
  revert n.
  apply (merge_loop_elim (fun q state r => forall n,
    Forall (entry_ok n) q -> NoDup (map e_index q) ->
    lex_ascending (map entry_key q) -> length state = n ->
    exists ys, r = (ys, Exhausted) /\
      lex_ascending (map yield_key ys) /\
      (forall p, (forall x, In x (map entry_key q) -> key_lt p x) ->
                 forall y, In y (map yield_key ys) -> key_lt p y))).
  - intros st n _ _ _ _. exists []. simpl. repeat split; trivial.
    all: intros p _ y [].
  - intros e q' st st' IH Hset n F N A L.
    destruct (next_queue_ok n e q' F N A) as (F' & N' & A' & B).
    assert (L' : length st' = n).
    { inversion F as [|? ? [_ Ie] _]; subst.
      destruct (list_set_ok st (e_index e) (e_value e) Ie) as (s2 & E2 & L2).
      congruence. }
    destruct (IH n F' N' A' L') as (ys & -> & Ays & Bys).
    exists ((e_t e, e_index e, st') :: ys). unfold push_yield. simpl.
    repeat split; trivial.
    + intros y I. apply (Bys (entry_key e)); trivial.
    + intros p Bp y [<-|I].
      * apply Bp. now left.
      * eapply key_lt_trans; [apply Bp; now left|].
        apply (Bys (entry_key e)); trivial.
  - intros e q' st x Hset n F _ _ L. exfalso.
    inversion F as [|? ? [_ Ie] _]; subst.
    destruct (list_set_ok st (e_index e) (e_value e) Ie) as (s2 & E2 & _).
    congruence.
Qed.

Lemma seed_queue_ok (n : nat) (l : list TS) :
  Forall wf l ->
  forall i q,
    i + length l <= n ->
    Forall (entry_ok n) q -> NoDup (map e_index q) ->
    lex_ascending (map entry_key q) ->
    (forall x, In x (map e_index q) -> x < i) ->
    Forall (entry_ok n) (seed_queue i l q) /\
    NoDup (map e_index (seed_queue i l q)) /\
    lex_ascending (map entry_key (seed_queue i l q)).
Proof.
  induction 1 as [|ts l W Wl IH]; intros i q Li F N A B; [simpl; auto|].
  simpl in Li. cbn [seed_queue]. apply IH.
  - lia.
  - unfold items. destruct (_d ts) as [|[t v] it] eqn:E; trivial.
    apply Forall_forall. intros x I. apply queue_put_In in I.
    destruct I as [->|I]; [|rewrite Forall_forall in F; auto].
    unfold entry_ok. cbn [e_t e_value e_iterator e_index].
    split; [|lia]. unfold wf in W. now rewrite E in W.
  - unfold items. destruct (_d ts) as [|[t v] it]; trivial.
    apply queue_put_NoDup; trivial. simpl. intros I. apply B in I. lia.
  - unfold items. destruct (_d ts) as [|[t v] it]; trivial.
    apply queue_put_ascending; trivial. simpl. intros I. apply B in I. lia.
  - intros x I. unfold items in I. destruct (_d ts) as [|[t v] it].
    + apply B in I. lia.
    + apply queue_put_indices in I. simpl in I. destruct I as [->|I]; [lia|].
      apply B in I. lia.
Qed.

Lemma defaults_ok (l : list TS) :
  Forall (fun ts => is_floating ts = false) l ->
  exists st, defaults l = Ok st /\ length st = length l.
Proof.
  induction 1 as [|ts l NF _ (st & E & L)]; simpl.
  - exists []. auto.
  - destruct (default_ok ts NF) as (v & -> & _). simpl. rewrite E. simpl.
    exists (v :: st). simpl. auto.
Qed.

Lemma existsb_floating (l : list TS) :
  Forall (fun ts => is_floating ts = false) l -> existsb is_floating l = false.
Proof.
  induction 1 as [|ts l NF _ IH]; simpl; trivial. now rewrite NF, IH.
Qed.

Lemma lex_ascending_app (l1 l2 : list (T * nat)) (x : T * nat) :
  lex_ascending (l1 ++ x :: l2) -> forall y, In y l2 -> key_lt x y.
Proof.
  induction l1 as [|a l1 IH]; simpl; intros [A B]; auto.
Qed.

Lemma lex_ascending_nondecreasing (l : list (T * nat)) :
  lex_ascending l -> nondecreasing (map fst l).
Proof.
  induction l as [|x l IH]; simpl; trivial. intros [A B]. split; auto.
  intros y I. apply in_map_iff in I. destruct I as (z & <- & I).
  apply key_lt_nondecreasing. auto.
Qed.

(** The loop of [iter_merge] over yields in non-decreasing time order. *)
Lemma collapse_ties_spec (ys : list (T * list value)) :
  forall prev,
    let full := match prev with Some p => p :: ys | None => ys end in
    nondecreasing (map fst full) ->
    exists out, collapse_ties prev ys Exhausted = (out, Exhausted) /\
      ascending (map fst out) /\
      (forall t, In t (map fst out) <-> In t (map fst full)) /\
      (forall t st, In (t, st) out ->
         exists l1 l2, full = l1 ++ (t, st) :: l2 /\
                       forall y, In y l2 -> fst y <> t).
Proof.
  induction ys as [|[t st] ys IH]; intros prev full ND.
  - destruct prev as [[pt pst]|]; simpl.
    + exists [(pt, pst)]. simpl. repeat split; auto; try tauto.
      intros t st [E|[]]. inversion E; subst. exists [], []. split; trivial.
      intros y [].
    + exists []. simpl. repeat split; auto; try tauto.
  - cbn [collapse_ties].
    assert (ND' : nondecreasing (map fst ((t, st) :: ys)))
      by (destruct prev; [apply ND|exact ND]).
    destruct (IH (Some (t, st)) ND') as (out & R & A & M & G).
    rewrite R. destruct prev as [[pt pst]|]; [|exists out; auto].
    subst full. destruct ND as [NDp _]. simpl in NDp.
    destruct (teqb t pt) eqn:E; cbn [negb].
    + apply teqb_eq in E. subst pt. exists out. repeat split; trivial.
      * rewrite M. simpl. tauto.
      * rewrite M. simpl. tauto.
      * intros t' st' I. destruct (G t' st' I) as (l1 & l2 & F & N).
        exists ((t, pst) :: l1), l2. rewrite F. auto.
    + apply teqb_neq in E.
      assert (Above : forall y, In y (map fst ((t, st) :: ys)) ->
                                tlt pt y = true).
      { intros y I. pose proof (NDp t (or_introl eq_refl)) as L1.
        destruct ND' as [NDt _]. simpl in I. destruct I as [<-|I].
        - torder.
        - pose proof (NDt y I). torder. }
      exists ((pt, pst) :: out). unfold push_yield. simpl. repeat split.
      * intros y I. apply Above. now apply M.
      * exact A.
      * intros [->|I]; auto. right. now apply M.
      * intros [->|I]; auto. right. now apply M.
      * intros t' st' [I|I].
        -- inversion I; subst. exists [], ((t, st) :: ys). split; trivial.
           intros y I' Ey. pose proof (Above (fst y) (in_map fst _ _ I')) as L.
           rewrite Ey, tlt_irrefl in L. discriminate.
        -- destruct (G t' st' I) as (l1 & l2 & F & N).
           exists ((pt, pst) :: l1), l2. rewrite F. auto.
Qed.


End MergeFacts.

(** ** Rejected bounds and floating series *)

Section EdgeFacts.
Context {T : Type} `{TimeType T}.

Local Abbreviation TS := (TimeSeries T).

Lemma for_iterperiods_bad {A : Type} (ts : TS) (s e : T) (a : value_arg T)
      (body : A -> T * T * value -> TS -> result (A * TS)) (acc : A) :
  tlt s e = false ->
  for_iterperiods ts (Some s) (Some e) a body acc = Raise ValueError.
Proof.
  intros L. unfold for_iterperiods. now rewrite check_boundaries_bad.
Qed.

Lemma for_iterperiods_floating {A : Type} (ts : TS) (s e : T)
      (a : value_arg T)
      (body : A -> T * T * value -> TS -> result (A * TS)) (acc : A) :
  is_floating ts = true -> tlt s e = true ->
  for_iterperiods ts (Some s) (Some e) a body acc = Raise KeyError.
Proof.
  intros F L. unfold for_iterperiods.
  destruct (check_boundaries_some ts s e L) as [m ->]. cbn [bind fst snd].
  rewrite start_value_get, get_floating by exact F. reflexivity.
Qed.

(** An interval whose start is not before its end is rejected with a
    [ValueError] by every interval operation, on any series and before
    anything is read or written. *)
Theorem interval_bounds_rejected (ts : TS) (s e : T) (a : value_arg T)
        (v : value) (c : bool) :
  tlt s e = false ->
  iterperiods ts (Some s) (Some e) a = Raise ValueError /\
  set_interval ts s e v c = Raise ValueError /\
  remove_points_from_interval ts s e = Raise ValueError /\
  slice ts s e = Raise ValueError /\
  to_domain ts (Some s) (Some e) = Raise ValueError.
Proof.
  intros L. unfold iterperiods, set_interval, remove_points_from_interval,
    slice, to_domain.
  rewrite !for_iterperiods_bad by exact L.
  rewrite check_boundaries_bad by exact L. auto.
Qed.

(** On a floating series (no measurement, default [EXTEND_BACK]) every
    operation that needs a value raises [KeyError]: a point read, the
    period iterator and the interval operations built on it, and the
    merge.  Counting points gives 0 and [compact] does nothing. *)
Theorem floating_series_raises (ts : TS) (s e : T) (a : value_arg T)
        (v : value) (c : bool) :
  is_floating ts = true -> tlt s e = true ->
  get ts s = Raise KeyError /\
  iterperiods ts (Some s) (Some e) a = Raise KeyError /\
  set_interval ts s e v c = Raise KeyError /\
  remove_points_from_interval ts s e = Raise KeyError /\
  slice ts s e = Raise KeyError /\
  to_domain ts (Some s) (Some e) = Raise KeyError /\
  merge [ts] c None None = Raise KeyError /\
  n_points ts (Some s) (Some e) None true false = Ok 0%Z /\
  compact ts = Ok ts.
Proof.
  intros F L. pose proof (floating_empty ts F) as E.
  unfold iterperiods, set_interval, remove_points_from_interval, slice,
    to_domain.
  rewrite !for_iterperiods_floating by trivial.
  destruct (check_boundaries_some ts s e L) as [m ->].
  rewrite default_floating by exact F.
  repeat split; trivial.
  - now apply get_floating.
  - assert (D : _default ts = EXTEND_BACK).
    { unfold is_floating in F. now destruct (_default ts). }
    unfold merge, merge_default, iter_merge. cbn [existsb forallb].
    rewrite F, D. reflexivity.
  - unfold n_points, n_measurements. now rewrite E.
  - unfold compact, items. now rewrite E.
Qed.

End EdgeFacts.

(** ** Point writes and deletes, read back *)

Section PointFacts.
Context {T : Type} `{TimeType T}.

Local Abbreviation TS := (TimeSeries T).
Local Abbreviation dict := (list (T * value)).

(** The floor does not move between [t] and [t'] when no key lies in
    [(t, t']]. *)
Lemma floor_same (d : dict) (t t' : T) :
  sorted_keys d = true -> tlt t' t = false ->
  (forall x, In x d -> tlt t (fst x) = true -> tlt t' (fst x) = true) ->
  floor d t' = floor d t.
Proof.
  intros S L N. destruct (floor d t) as [kv|] eqn:F.
  - pose proof (floor_le _ _ _ F) as Lk. apply floor_intro; trivial.
    + eapply floor_In; eauto.
    + torder.
    + intros x I Lx. apply (floor_greatest _ _ _ S F _ I).
      destruct (tlt t (fst x)) eqn:E; trivial.
      rewrite (N x I E) in Lx. discriminate.
  - apply floor_above. intros x I. apply N; trivial.
    now apply (floor_None _ _ S F).
Qed.

Lemma floor_setitem (d : dict) (t t' : T) (v : value) :
  sorted_keys d = true ->
  floor (setitem d t v) t'
  = if tlt t' t then floor d t'
    else match floor d t' with
         | Some kv => if tlt t (fst kv) then Some kv else Some (t, v)
         | None => Some (t, v)
         end.
Proof.
  intros S. pose proof (setitem_sorted d t v S) as S'.
  destruct (tlt t' t) eqn:L.
  - apply floor_ext; trivial. intros x Lx. rewrite setitem_In by trivial.
    split; [|intros I; right; split; trivial; torder].
    intros [->|[I _]]; trivial. simpl in Lx. congruence.
  - destruct (floor d t') as [kv|] eqn:F.
    + pose proof (floor_In _ _ _ F) as Ik. pose proof (floor_le _ _ _ F) as Lk.
      destruct (tlt t (fst kv)) eqn:E.
      * apply floor_intro; trivial.
        -- apply setitem_In; trivial. right. split; trivial. torder.
        -- intros x I Lx. apply setitem_In in I; trivial.
           destruct I as [->|[I _]]; [simpl; torder|].
           now apply (floor_greatest _ _ _ S F).
      * apply floor_intro; trivial.
        -- apply setitem_In; auto.
        -- intros x I Lx. apply setitem_In in I; trivial.
           destruct I as [->|[I _]]; [apply tlt_irrefl|]. simpl.
           pose proof (floor_greatest _ _ _ S F _ I Lx). torder.
    + apply floor_intro; trivial.
      * apply setitem_In; auto.
      * intros x I Lx. apply setitem_In in I; trivial.
        destruct I as [->|[I _]]; [apply tlt_irrefl|].
        pose proof (floor_None _ _ S F _ I). congruence.
Qed.

Lemma default_with_d_explicit (ts : TS) (d : dict) (dv : value) :
  _default ts = Explicit dv -> default (with_d ts d) = Ok dv.
Proof. intros E. unfold default, is_floating. simpl. now rewrite E. Qed.

(** What a plain write does to point reads. *)
Lemma setitem_get (ts : TS) (t : T) (v : value) :
  wf ts ->
  let ts' := with_d ts (setitem (_d ts) t v) in
  wf ts' /\
  (forall t', tlt t' t = false ->
     (forall x, In x (items ts) -> tlt t (fst x) = true ->
                tlt t' (fst x) = true) ->
     get ts' t' = Ok v) /\
  (forall t' x, In x (items ts) -> tlt t' (fst x) = false ->
     tlt t' t = true \/ tlt t (fst x) = true -> get ts' t' = get ts t') /\
  (forall t' dv, tlt t' t = true -> _default ts = Explicit dv ->
     get ts' t' = get ts t').
Proof.
  intros W ts'. assert (W' : wf ts') by (apply setitem_sorted; exact W).
  split; [exact W'|]. unfold items. repeat split.
  - intros t' L N. rewrite get_floor by trivial. simpl _d.
    rewrite floor_setitem, L by trivial.
    destruct (floor (_d ts) t') as [kv|] eqn:F; trivial.
    destruct (tlt t (fst kv)) eqn:E; trivial.
    pose proof (N kv (floor_In _ _ _ F) E) as C.
    rewrite (floor_le _ _ _ F) in C. discriminate.
  - intros t' x I Lx D. rewrite !get_floor by trivial. simpl _d.
    rewrite floor_setitem by trivial.
    destruct (tlt t' t) eqn:L.
    { destruct (floor (_d ts) t') as [kv|] eqn:F; trivial.
      pose proof (floor_None _ _ W F _ I). congruence. }
    destruct D as [D|D]; [discriminate|].
    destruct (floor (_d ts) t') as [kv|] eqn:F.
    + pose proof (floor_greatest _ _ _ W F _ I Lx) as G.
      replace (tlt t (fst kv)) with true by (symmetry; torder). trivial.
    + pose proof (floor_None _ _ W F _ I). congruence.
  - intros t' dv L E. rewrite !get_floor by trivial. simpl _d.
    rewrite floor_setitem, L by trivial.
    destruct (floor (_d ts) t'); trivial.
    unfold ts'. rewrite (default_with_d_explicit ts _ dv E).
    unfold default, is_floating. now rewrite E.
Qed.

(** [set] and then [get].  After [set(t, v, compact)] the series reads
    a value [== v] at [t] and at every later time up to the next
    recorded key; reads that have another measurement to rely on are
    unchanged: those before [t] that have a key [<= t'] or an explicit
    default, and those at or after a key greater than [t].  Without
    [compact] the stored points are the old ones with [(t, v)] replacing
    any measurement at [t]. *)
Theorem set_get (ts : TS) (t : T) (v : value) (c : bool) :
  wf ts ->
  exists ts', set ts t v c = Ok ts' /\ wf ts' /\
    _default ts' = _default ts /\
    (c = false ->
     forall x, In x (items ts') <->
               x = (t, v) \/ (In x (items ts) /\ fst x <> t)) /\
    (forall t', tle t t' = true ->
       (forall x, In x (items ts) -> tlt t (fst x) = true ->
                  tlt t' (fst x) = true) ->
       exists cur, get ts' t' = Ok cur /\ py_eq cur v = true) /\
    (forall t' x, In x (items ts) -> tle (fst x) t' = true ->
       tlt t' t = true \/ tlt t (fst x) = true -> get ts' t' = get ts t') /\
    (forall t' dv, tlt t' t = true -> _default ts = Explicit dv ->
       get ts' t' = get ts t').
Proof.
  intros W.
  destruct (setitem_get ts t v W) as (W' & G1 & G2 & G3).
  assert (Plain : forall ts', ts' = with_d ts (setitem (_d ts) t v) ->
    wf ts' /\ _default ts' = _default ts /\
    (c = false ->
     forall x, In x (items ts') <->
               x = (t, v) \/ (In x (items ts) /\ fst x <> t)) /\
    (forall t', tle t t' = true ->
       (forall x, In x (items ts) -> tlt t (fst x) = true ->
                  tlt t' (fst x) = true) ->
       exists cur, get ts' t' = Ok cur /\ py_eq cur v = true) /\
    (forall t' x, In x (items ts) -> tle (fst x) t' = true ->
       tlt t' t = true \/ tlt t (fst x) = true -> get ts' t' = get ts t') /\
    (forall t' dv, tlt t' t = true -> _default ts = Explicit dv ->
       get ts' t' = get ts t')).
  { intros ts' ->. split; [exact W'|]. split; [reflexivity|]. split.
    - intros _ x. unfold items. simpl. now apply setitem_In.
    - split; [|split].
      + intros t' L N. exists v. split; [|apply py_eq_refl].
        apply G1; trivial. torder.
      + intros t' x I Lx D. apply (G2 t' x I); trivial. torder.
      + exact G3. }
  unfold set. destruct (Nat.eqb (len ts) 0) eqn:E.
  - eexists. split; [reflexivity|]. now apply Plain.
  - destruct c; cbn [negb].
    + apply Nat.eqb_neq in E.
      destruct (get_ok ts t W (nonempty_not_floating ts E)) as [cur G].
      rewrite G. cbn [bind andb]. unfold py_ne.
      destruct (py_eq cur v) eqn:Q; cbn [negb].
      * exists ts. split; [reflexivity|]. split; [exact W|].
        split; [reflexivity|]. split; [discriminate|]. split; [|auto].
        intros t' L N. exists cur. split; trivial.
        rewrite <- G. rewrite !get_floor by trivial.
        rewrite (floor_same (_d ts) t t'); trivial. torder.
      * eexists. split; [reflexivity|]. now apply Plain.
    + eexists. split; [reflexivity|]. now apply Plain.
Qed.

(** [remove(t)] raises [KeyError] when no measurement is recorded at
    [t]; otherwise it deletes that measurement and nothing else.  A
    write at a time that had no measurement is undone by removing it. *)
Theorem remove_spec (ts : TS) (t : T) (v : value) :
  wf ts ->
  (has_key (_d ts) t = false ->
   remove ts t = Raise KeyError /\
   (ts' <- set ts t v false ;; remove ts' t) = Ok ts) /\
  (has_key (_d ts) t = true ->
   exists ts', remove ts t = Ok ts' /\ wf ts' /\
     _default ts' = _default ts /\
     forall x, In x (items ts') <-> In x (items ts) /\ fst x <> t).
Proof.
  intros W. unfold remove. rewrite delitem_spec by exact W. split; intros K.
  - rewrite K. split; trivial. rewrite set_plain. cbn [bind].
    unfold remove. cbn [_d with_d].
    rewrite delitem_spec by (apply setitem_sorted; exact W).
    assert (K' : has_key (setitem (_d ts) t v) t = true).
    { apply has_key_In. exists v. apply setitem_In; auto. }
    rewrite K'. destruct ts as [d dflt]. unfold with_d. cbn [_d _default].
    f_equal. f_equal. unfold wf in W. simpl in W, K. apply sorted_ext; trivial.
    + apply discard_sorted. now apply setitem_sorted.
    + intros x. rewrite discard_In, setitem_In by trivial. split.
      * intros [[->|[I _]] N]; [simpl in N; tauto|trivial].
      * intros I. split; [right; split; trivial|]; intros E;
          assert (Hk : has_key d t = true)
            by (apply has_key_In; exists (snd x); rewrite <- E;
                now destruct x);
          congruence.
  - rewrite K. eexists. split; [reflexivity|]. split.
    + apply discard_sorted. exact W.
    + split; [reflexivity|]. intros x. unfold items. simpl.
      apply discard_In.
Qed.

End PointFacts.

(** ** The constructor, [compact] and equality *)

Section ShapeFacts.
Context {T : Type} `{TimeType T}.

Local Abbreviation TS := (TimeSeries T).
Local Abbreviation dict := (list (T * value)).

Lemma from_items_fold (data : list (T * value)) :
  forall d : dict, sorted_keys d = true ->
    let r := fold_left (fun d kv => setitem d (fst kv) (snd kv)) data d in
    sorted_keys r = true /\
    forall k v, In (k, v) r <->
      (exists l1 l2, data = l1 ++ (k, v) :: l2 /\ ~ In k (map fst l2)) \/
      (In (k, v) d /\ ~ In k (map fst data)).
Proof.
  induction data as [|[k0 v0] data IH]; intros d S.
  - simpl. split; trivial. intros k v. split; [auto|].
    intros [(l1 & l2 & E & _)|[I _]]; trivial. now destruct l1.
  - cbn [fold_left fst snd].
    destruct (IH (setitem d k0 v0) (setitem_sorted d k0 v0 S)) as [S' M].
    split; [exact S'|]. intros k v. rewrite M. rewrite setitem_In by trivial.
    split.
    + intros [(l1 & l2 & E & N)|[[E|[I D]] N]].
      * left. exists ((k0, v0) :: l1), l2. subst data. auto.
      * inversion E; subst. left. exists [], data. auto.
      * right. split; trivial. simpl. intros [E|J]; auto.
    + intros [(l1 & l2 & E & N)|[I N]].
      * destruct l1 as [|x l1]; simpl in E; inversion E; subst.
        -- right. auto.
        -- left. eauto.
      * right. simpl in N. split; [|tauto]. right. split; trivial.
        simpl. intros E. apply N. auto.
Qed.

Lemma last_occurrence (data : list (T * value)) (k : T) :
  In k (map fst data) ->
  exists l1 v l2, data = l1 ++ (k, v) :: l2 /\ ~ In k (map fst l2).
Proof.
  induction data as [|[k0 v0] data IH]; simpl; [tauto|]. intros I.
  destruct (in_dec time_eq_dec k (map fst data)) as [J|J].
  - destruct (IH J) as (l1 & v & l2 & E & N).
    exists ((k0, v0) :: l1), v, l2. subst data. auto.
  - destruct I as [<-|I]; [|tauto]. exists [], v0, data. auto.
Qed.

(** The constructor [TimeSeries(data, default)] builds a sorted
    dictionary that holds exactly the times of [data], each with the
    value of its last occurrence in [data]; data that is already in
    strictly ascending order is stored as it is. *)
Theorem TimeSeries_new_spec (data : list (T * value)) (dflt : Default) :
  wf (TimeSeries_new data dflt) /\
  _default (TimeSeries_new data dflt) = dflt /\
  (forall k, In k (keys (items (TimeSeries_new data dflt)))
             <-> In k (map fst data)) /\
  (forall k v, In (k, v) (items (TimeSeries_new data dflt)) <->
     exists l1 l2, data = l1 ++ (k, v) :: l2 /\ ~ In k (map fst l2)) /\
  (sorted_keys data = true -> items (TimeSeries_new data dflt) = data).
Proof.
  destruct (from_items_fold data [] eq_refl) as [S M].
  assert (M' : forall k v, In (k, v) (from_items data) <->
     exists l1 l2, data = l1 ++ (k, v) :: l2 /\ ~ In k (map fst l2)).
  { intros k v. unfold from_items. rewrite M. simpl. tauto. }
  unfold wf, items, TimeSeries_new. cbn [_d _default].
  split; [exact S|]. split; [reflexivity|]. split; [|split; [exact M'|]].
  - intros k. rewrite in_keys. split.
    + intros [v I]. apply M' in I. destruct I as (l1 & l2 & -> & _).
      rewrite map_app, in_app_iff. simpl. auto.
    + intros I. destruct (last_occurrence data k I) as (l1 & v & l2 & E & N).
      exists v. apply M'. eauto.
  - intros Sd. apply sorted_ext; trivial. intros [k v]. rewrite M'. split.
    + intros (l1 & l2 & -> & _). apply in_app_iff. simpl. auto.
    + intros I. apply in_split in I. destruct I as (l1 & l2 & ->).
      exists l1, l2. split; trivial.
      destruct (sorted_app _ _ Sd) as (_ & Sb & _). intros J.
      pose proof (sorted_head_lt_key _ _ _ _ Sb J) as L.
      rewrite tlt_irrefl in L. discriminate.
Qed.

Lemma compacted_is_compact (l : dict) :
  forall prev,
    is_compact (compacted prev l) = true /\
    forall pv, prev = Some pv ->
      match compacted prev l with
      | (_, v) :: _ => py_eq v pv = false
      | [] => True
      end.
Proof.
  induction l as [|[k v] l IH]; intros prev; [simpl; auto|].
  destruct (IH (Some v)) as [C Hd]. specialize (Hd v eq_refl).
  assert (K : is_compact ((k, v) :: compacted (Some v) l) = true).
  { cbn [is_compact]. destruct (compacted (Some v) l) as [|[k' v'] r]; trivial.
    rewrite Hd. exact C. }
  cbn [compacted]. destruct prev as [pv|]; [|split; [exact K|discriminate]].
  destruct (py_eq v pv) eqn:Q.
  - split; [exact C|]. intros pv' E. inversion E; subst pv'.
    destruct (compacted (Some v) l) as [|[k' v'] r]; trivial.
    destruct (py_eq v' pv) eqn:Q'; trivial.
    rewrite py_eq_sym in Q.
    rewrite (py_eq_trans _ _ _ Q' Q) in Hd. discriminate.
  - split; [exact K|]. intros pv' E. now inversion E; subst pv'.
Qed.

Lemma compacted_fixed (l : dict) :
  forall prev,
    is_compact l = true ->
    (forall pv, prev = Some pv ->
       match l with (_, v) :: _ => py_eq v pv = false | [] => True end) ->
    compacted prev l = l.
Proof.
  induction l as [|[k v] l IH]; intros prev C Hd; [reflexivity|].
  cbn [compacted]. rewrite (IH (Some v)).
  - destruct prev as [pv|]; trivial. now rewrite (Hd pv eq_refl).
  - cbn [is_compact] in C. destruct l as [|[k' v'] l]; trivial.
    apply andb_true_iff in C. tauto.
  - intros pv E. inversion E; subst pv. cbn [is_compact] in C.
    destruct l as [|[k' v'] l]; trivial.
    apply andb_true_iff in C. destruct C as [C _].
    now apply negb_true_iff in C.
Qed.

(** After [compact()] no measurement repeats the value of the one
    before it; compacting again changes nothing, and a series that is
    already compact is left as it is. *)
Theorem compact_is_compact (ts : TS) :
  wf ts ->
  exists ts', compact ts = Ok ts' /\
    is_compact (items ts') = true /\
    compact ts' = Ok ts' /\
    (is_compact (items ts) = true -> ts' = ts).
Proof.
  intros W. exists (with_d ts (compacted None (_d ts))).
  destruct (compacted_is_compact (_d ts) None) as [C _].
  split; [now apply compact_result|]. split; [exact C|]. split.
  - rewrite compact_result by (apply compacted_sorted; exact W).
    cbn [_d with_d]. rewrite (compacted_fixed (compacted None (_d ts)) None);
      [reflexivity | exact C | intros pv E; discriminate E].
  - unfold items. intros C'. rewrite compacted_fixed;
      [apply with_d_same | exact C' | intros pv E; discriminate E].
Qed.

Lemma items_eq_refl (l : dict) : items_eq l l = true.
Proof.
  induction l as [|[k v] l IH]; simpl; trivial.
  now rewrite teqb_refl, py_eq_refl.
Qed.

Lemma items_eq_sym (l1 l2 : dict) : items_eq l1 l2 = items_eq l2 l1.
Proof.
  revert l2. induction l1 as [|[k1 v1] l1 IH]; intros [|[k2 v2] l2];
    simpl; trivial.
  now rewrite teqb_sym, py_eq_sym, IH.
Qed.

Lemma items_eq_cons (k1 k2 : T) (v1 v2 : value) (l1 l2 : dict) :
  items_eq ((k1, v1) :: l1) ((k2, v2) :: l2) = true <->
  k1 = k2 /\ py_eq v1 v2 = true /\ items_eq l1 l2 = true.
Proof.
  simpl. rewrite !andb_true_iff, teqb_eq. tauto.
Qed.

Lemma items_eq_trans (l1 l2 l3 : dict) :
  items_eq l1 l2 = true -> items_eq l2 l3 = true -> items_eq l1 l3 = true.
Proof.
  revert l2 l3.
  induction l1 as [|[k1 v1] l1 IH]; intros [|[k2 v2] l2] [|[k3 v3] l3];
    try (simpl; congruence).
  rewrite !items_eq_cons. intros (-> & Q & E) (-> & Q' & E').
  repeat split; eauto using py_eq_trans.
Qed.

Lemma items_eq_keys (l1 l2 : dict) :
  items_eq l1 l2 = true -> keys l1 = keys l2.
Proof.
  revert l2. induction l1 as [|[k1 v1] l1 IH]; intros [|[k2 v2] l2];
    try (simpl; congruence).
  rewrite items_eq_cons. intros (-> & _ & E). simpl. f_equal. now apply IH.
Qed.

Lemma items_eq_floor (l1 l2 : dict) (t : T) :
  items_eq l1 l2 = true ->
  match floor l1 t, floor l2 t with
  | Some kv, Some kv' => fst kv = fst kv' /\ py_eq (snd kv) (snd kv') = true
  | None, None => True
  | _, _ => False
  end.
Proof.
  revert l2. induction l1 as [|[k1 v1] l1 IH]; intros [|[k2 v2] l2];
    try (simpl; congruence); [simpl; trivial|].
  rewrite items_eq_cons. intros (-> & Q & E). specialize (IH l2 E).
  simpl. destruct (tlt t k2); trivial.
  destruct (floor l1 t), (floor l2 t); simpl; tauto.
Qed.

(** [==] on series compares the measurements only: it is reflexive,
    symmetric and transitive, holds whatever the two defaults are, and
    two equal series have the same times and read [==] values at every
    time that has a measurement at or before it. *)
Theorem eq_spec :
  (forall a : TS, __eq__ a a = true /\ __ne__ a a = false) /\
  (forall a b : TS, __eq__ a b = __eq__ b a) /\
  (forall a b c : TS,
     __eq__ a b = true -> __eq__ b c = true -> __eq__ a c = true) /\
  (forall (d : dict) (dflt dflt' : Default),
     __eq__ (mkTS d dflt) (mkTS d dflt') = true) /\
  (forall a b : TS,
     __eq__ a b = true -> keys (items a) = keys (items b)) /\
  (forall (a b : TS) (t : T) (x : T * value),
     wf a -> wf b -> __eq__ a b = true ->
     In x (items a) -> tle (fst x) t = true ->
     same_outcome (get a t) (get b t)).
Proof.
  unfold __ne__, __eq__, items. repeat split.
  - apply items_eq_refl.
  - now rewrite items_eq_refl.
  - intros a b. apply items_eq_sym.
  - intros a b c. apply items_eq_trans.
  - intros d dflt dflt'. apply items_eq_refl.
  - intros a b. apply items_eq_keys.
  - intros a b t x Wa Wb E I L. rewrite !get_floor by trivial.
    pose proof (items_eq_floor _ _ t E) as F.
    destruct (floor (_d a) t) as [kv|] eqn:Fa.
    + destruct (floor (_d b) t) as [kv'|]; [|contradiction]. simpl. tauto.
    + pose proof (floor_None _ _ Wa Fa x I). exfalso. torder.
Qed.

End ShapeFacts.

(** ** What the periods mean *)

Section PeriodSemantics.
Context {T : Type} `{TimeType T}.

Local Abbreviation TS := (TimeSeries T).
Local Abbreviation dict := (list (T * value)).
Local Abbreviation period := (T * T * value)%type.
Local Abbreviation collect :=
  (fun (acc : list period) (p : period) (ts' : TS) => Ok (acc ++ [p], ts')).

Lemma check_boundaries_inf (ts : TS) (start end_ : option T) :
  tlt (lower_bound start) (upper_bound end_) = true ->
  exists m, _check_boundaries ts start end_ true
            = Ok (lower_bound start, upper_bound end_, m).
Proof.
  intros L. unfold _check_boundaries.
  replace (_check_boundary ts start true Lower) with (Ok (lower_bound start))
    by now destruct start.
  replace (_check_boundary ts end_ true Upper) with (Ok (upper_bound end_))
    by now destruct end_.
  cbn [bind]. unfold tge. rewrite L. simpl. eauto.
Qed.

Lemma check_boundaries_inf_bad (ts : TS) (start end_ : option T) :
  tlt (lower_bound start) (upper_bound end_) = false ->
  _check_boundaries ts start end_ true = Raise ValueError.
Proof.
  intros L. unfold _check_boundaries.
  replace (_check_boundary ts start true Lower) with (Ok (lower_bound start))
    by now destruct start.
  replace (_check_boundary ts end_ true Upper) with (Ok (upper_bound end_))
    by now destruct end_.
  cbn [bind]. unfold tge. now rewrite L.
Qed.

(** The accumulator of a collecting consumer only grows. *)
Lemma collect_acc (f : T -> T -> value -> bool) (ts : TS) (e : T) :
  forall rest t0 v (acc : list period),
    snapshot_loop f collect rest e t0 v acc ts
    = match snapshot_loop f collect rest e t0 v [] ts with
      | Ok r => Ok (acc ++ fst r, snd r)
      | Raise x => Raise x
      end.
Proof.
  induction rest as [|t1 rest IH]; intros t0 v acc.
  - cbn [snapshot_loop]. destruct (tlt t0 e), (f t0 e v); cbn [fst snd app];
      now rewrite ?app_nil_r.
  - cbn [snapshot_loop].
    destruct (f t0 t1 v); cbn [bind fst snd app];
      (destruct (get ts t1) as [v'|x]; cbn [bind]; [|reflexivity]).
    + rewrite (IH t1 v' (acc ++ [(t0, t1, v)])), (IH t1 v' [(t0, t1, v)]).
      destruct (snapshot_loop f collect rest e t1 v' [] ts) as [r|x];
        trivial.
      cbn [fst snd]. now rewrite <- app_assoc.
    + apply IH.
Qed.

Lemma collect_filter (f : T -> T -> value -> bool) (ts : TS) (e : T) :
  forall rest t0 v (acc : list period),
    snapshot_loop f collect rest e t0 v acc ts
    = match snapshot_loop (fun _ _ _ => true) collect rest e t0 v [] ts with
      | Ok r =>
          Ok (acc ++ filter (fun p => f (fst (fst p)) (snd (fst p)) (snd p))
                            (fst r), snd r)
      | Raise x => Raise x
      end.
Proof.
  induction rest as [|t1 rest IH]; intros t0 v acc.
  - cbn [snapshot_loop].
    destruct (tlt t0 e); [destruct (f t0 e v) eqn:F|];
      cbn [fst snd app filter]; rewrite ?F, ?app_nil_r; reflexivity.
  - cbn [snapshot_loop]. cbn [bind fst snd app].
    destruct (f t0 t1 v) eqn:F; cbn [bind fst snd];
      (destruct (get ts t1) as [v'|x]; cbn [bind]; [|reflexivity]);
      rewrite IH, (collect_acc (fun _ _ _ => true) ts e rest t1 v'
                               [(t0, t1, v)]);
      (destruct (snapshot_loop (fun _ _ _ => true) collect rest e t1 v'
                                  [] ts) as [r|x]; [|reflexivity]);
      cbn [fst snd app filter]; rewrite F; [|reflexivity].
    now rewrite <- app_assoc.
Qed.

Lemma iterperiods_filtered (ts : TS) (start end_ : option T)
      (a : value_arg T) :
  iterperiods ts start end_ a
  = (ps <- iterperiods ts start end_ NoFilter ;;
     Ok (filter (period_passes a) ps)).
Proof.
  rewrite !iterperiods_snapshot. unfold for_snapshot.
  destruct (_check_boundaries ts start end_ true) as [b|x]; [|reflexivity].
  cbn [bind].
  destruct (if 0 <? bisect_right (_d ts) (fst (fst b))
            then k <- iloc (_d ts) (bisect_right (_d ts) (fst (fst b)) - 1) ;;
                 getitem (_d ts) k
            else default ts) as [v0|x]; [|reflexivity].
  cbn [bind]. rewrite collect_filter. unfold _value_function at 2.
  destruct (snapshot_loop _ _ _ _ _ _ _ _) as [r|x]; reflexivity.
Qed.

(** The [value] argument of [iterperiods] only filters: the periods
    yielded with a constant or a predicate are those yielded without,
    with the same bounds, that pass it.  Adjacent periods that pass are
    not joined. *)
Theorem iterperiods_value_filter (ts : TS) (start end_ : option T)
        (a : value_arg T) :
  iterperiods ts start end_ a
  = (ps <- iterperiods ts start end_ NoFilter ;;
     Ok (filter (period_passes a) ps)).
Proof. apply iterperiods_filtered. Qed.

(** The periods, by a consumer that collects them: they follow one
    another from the start to the end, and the series is constant on
    each. *)
Lemma chain_loop (ts : TS) (e : T) :
  wf ts -> is_floating ts = false ->
  forall rest t0 v (acc : list period),
    chain_ok e t0 rest -> get ts t0 = Ok v ->
    (forall x, In x (_d ts) -> tlt t0 (fst x) = true ->
               tlt e (fst x) = false -> In (fst x) rest) ->
    exists ps : list period,
      snapshot_loop (fun _ _ _ => true) collect rest e t0 v acc ts
      = Ok (acc ++ ps, ts) /\
      chained t0 ps e /\ Forall (period_const ts) ps.
Proof.
  intros W NF. induction rest as [|t1 rest IH]; intros t0 v acc C G K.
  - assert (Const : period_const ts (t0, e, v)).
    { intros t L0 L1. cbn [fst snd] in *. rewrite <- G.
      rewrite !get_floor by trivial. rewrite (floor_same (_d ts) t0 t);
        trivial.
      intros x I Lx. destruct (tlt t (fst x)) eqn:E; trivial.
      destruct (K x I Lx). torder. }
    cbn [snapshot_loop]. simpl in C. destruct (tlt t0 e) eqn:L.
    + exists [(t0, e, v)]. simpl. auto.
    + exists []. rewrite app_nil_r. simpl. repeat split; trivial. torder.
  - destruct C as [L C]. pose proof (chain_ok_le _ _ _ C) as Le.
    destruct (get_ok ts t1 W NF) as [v' G'].
    destruct (IH t1 v' (acc ++ [(t0, t1, v)]) C G') as (ps & R & Ch & F).
    { intros x I Lx Lxe. assert (Lx0 : tlt t0 (fst x) = true) by torder.
      destruct (K x I Lx0 Lxe) as [E|J]; trivial.
      rewrite E, tlt_irrefl in Lx. discriminate. }
    exists ((t0, t1, v) :: ps). cbn [snapshot_loop bind fst snd].
    rewrite G'. cbn [bind]. rewrite R, <- app_assoc. split; [reflexivity|].
    split; [simpl; auto|]. constructor; trivial.
    intros t L0 L1. cbn [fst snd] in *. rewrite <- G.
    rewrite !get_floor by trivial. rewrite (floor_same (_d ts) t0 t); trivial.
    intros x I Lx. destruct (tlt t (fst x)) eqn:E; trivial. exfalso.
    assert (Lxe : tlt e (fst x) = false) by torder.
    destruct (K x I Lx Lxe) as [E1|J].
    + rewrite <- E1 in E. torder.
    + clear - J C L1 E H. remember (fst x) as k eqn:Ek. clear Ek x.
      revert t1 C L1.
      induction rest as [|t2 rest IHr]; intros t1 C L1; [destruct J|].
      destruct C as [L2 C]. destruct J as [<-|J].
      * torder.
      * apply (IHr J t2 C). torder.
Qed.

Lemma periods_chained (ts : TS) (start end_ : option T) :
  wf ts -> is_floating ts = false ->
  tlt (lower_bound start) (upper_bound end_) = true ->
  exists ps : list period,
    iterperiods ts start end_ NoFilter = Ok ps /\
    chained (lower_bound start) ps (upper_bound end_) /\
    Forall (period_const ts) ps.
Proof.
  intros W NF L. rewrite iterperiods_snapshot. unfold for_snapshot.
  destruct (check_boundaries_inf ts start end_ L) as [m ->].
  cbn [bind fst snd]. rewrite start_value_get.
  destruct (get_ok ts (lower_bound start) W NF) as [v0 G]. rewrite G.
  cbn [bind]. rewrite keys_slice_range by (trivial; torder).
  destruct (chain_loop ts (upper_bound end_) W NF
              (keys_upto (lower_bound start) (upper_bound end_) (_d ts))
              (lower_bound start) v0 [] (chain_ok_upto _ _ _ W L) G)
    as (ps & R & Ch & F).
  { intros x I L1 L2. unfold keys_upto. apply filter_In. split.
    - apply in_keys. exists (snd x). now destruct x.
    - unfold tle. now rewrite L1, L2. }
  unfold _value_function. rewrite R. cbn [bind fst app]. eauto.
Qed.

Lemma chained_bounds (ps : list period) :
  forall lo hi, chained lo ps hi ->
    tlt hi lo = false /\
    forall p, In p ps ->
      tlt (fst (fst p)) lo = false /\ tlt (fst (fst p)) (snd (fst p)) = true /\
      tlt hi (snd (fst p)) = false.
Proof.
  induction ps as [|[[t0 t1] v] ps IH]; intros lo hi C.
  - simpl in C. subst. split; [apply tlt_irrefl|]. intros p [].
  - destruct C as (E & L & C). cbn [fst snd] in *. subst t0.
    destruct (IH _ _ C) as [Le B]. split; [torder|].
    intros p [<-|I]; cbn [fst snd].
    + repeat split; trivial. apply tlt_irrefl.
    + destruct (B p I) as (B1 & B2 & B3). repeat split; trivial. torder.
Qed.

Lemma chained_covers (ps : list period) :
  forall lo hi t, chained lo ps hi ->
    tlt t lo = false -> tlt t hi = true ->
    exists p, In p ps /\ tlt t (fst (fst p)) = false /\
              tlt t (snd (fst p)) = true.
Proof.
  induction ps as [|[[t0 t1] v] ps IH]; intros lo hi t C L0 L1.
  - simpl in C. subst. congruence.
  - destruct C as (E & L & C). cbn [fst snd] in *. subst t0.
    destruct (tlt t t1) eqn:Lt.
    + exists (lo, t1, v). simpl. auto.
    + destruct (IH _ _ t C Lt L1) as (p & I & A & B).
      exists p. simpl. auto.
Qed.

(** The periods of [iterperiods(start, end)] tile the window: they
    follow one another from [start] to [end] (the infinities when a
    bound is not given), every time of the window is in one of them, and
    the series has the value of the period at every time of it. *)
Theorem iterperiods_cover (ts : TS) (start end_ : option T) :
  wf ts -> is_floating ts = false ->
  tlt (lower_bound start) (upper_bound end_) = true ->
  exists ps : list period,
    iterperiods ts start end_ NoFilter = Ok ps /\
    chained (lower_bound start) ps (upper_bound end_) /\
    (forall p t, In p ps ->
       tle (fst (fst p)) t = true -> tlt t (snd (fst p)) = true ->
       get ts t = Ok (snd p)) /\
    (forall t, tle (lower_bound start) t = true ->
       tlt t (upper_bound end_) = true ->
       exists p, In p ps /\ tle (fst (fst p)) t = true /\
                 tlt t (snd (fst p)) = true).
Proof.
  intros W NF L. destruct (periods_chained ts start end_ W NF L)
    as (ps & R & C & F).
  exists ps. split; [exact R|]. split; [exact C|]. split.
  - intros p t I L0 L1. rewrite Forall_forall in F. apply (F p I); trivial.
    torder.
  - intros t L0 L1. destruct (chained_covers ps _ _ t C) as (p & I & A & B);
      trivial; [torder|].
    exists p. unfold tle. rewrite A. auto.
Qed.

End PeriodSemantics.

(** ** Intervals of a domain and counting points *)

Section CountFacts.
Context {T : Type} `{TimeType T}.

Local Abbreviation TS := (TimeSeries T).
Local Abbreviation dict := (list (T * value)).
Local Abbreviation period := (T * T * value)%type.

(** The intervals of a [Domain] (of any series that has a value) are
    non-empty, the value is [== True] all over each of them, and every
    time below [+inf] where the value is [== True] is in one of them.
    The domain is empty exactly when there is no interval. *)
Theorem intervals_spec (ts : TS) :
  wf ts -> is_floating ts = false -> tlt neg_inf pos_inf = true ->
  exists ivs, intervals ts = Ok ivs /\
    is_empty ts = Ok (match ivs with [] => true | _ :: _ => false end) /\
    (forall iv, In iv ivs ->
       tlt (fst iv) (snd iv) = true /\
       forall t, tle (fst iv) t = true -> tlt t (snd iv) = true ->
         exists v, get ts t = Ok v /\ py_eq v (VBool true) = true) /\
    (forall t v, tlt t pos_inf = true -> get ts t = Ok v ->
       py_eq v (VBool true) = true ->
       exists iv, In iv ivs /\ tle (fst iv) t = true /\
                  tlt t (snd iv) = true).
Proof.
  intros W NF L.
  destruct (periods_chained ts None None W NF L) as (ps & R & C & F).
  cbn [lower_bound upper_bound] in C. rewrite Forall_forall in F.
  set (keep := filter (period_passes (Constant (VBool true))) ps).
  assert (RI : intervals ts = Ok (map fst keep)).
  { unfold intervals. rewrite iterperiods_filtered, R. reflexivity. }
  exists (map fst keep). split; [exact RI|]. split; [|split].
  - unfold is_empty. rewrite RI. reflexivity.
  - intros iv I. apply in_map_iff in I. destruct I as (p & <- & I).
    apply filter_In in I. destruct I as [I P].
    destruct (chained_bounds ps _ _ C) as [_ B].
    destruct (B p I) as (_ & B2 & _). split; [exact B2|].
    intros t L0 L1. exists (snd p). split; [|exact P].
    apply (F p I); trivial. torder.
  - intros t v L1 G Q.
    destruct (chained_covers ps _ _ t C (neg_inf_least t) L1)
      as (p & I & A & B).
    pose proof (F p I t A B) as G'. rewrite G in G'. inversion G'; subst v.
    exists (fst p). split.
    + apply in_map. apply filter_In. split; trivial.
    + unfold tle. rewrite A. auto.
Qed.

(** The mask that [_check_boundaries] builds from [start < end] has
    the single interval from [start] to [end]. *)
Lemma mask_intervals (s e : T) :
  tlt s e = true ->
  intervals (mkTS [(s, VBool true); (e, VBool false)]
                  (Explicit (VBool false)))
  = Ok [(s, e)].
Proof.
  intros L.
  pose (m := mkTS [(s, VBool true); (e, VBool false)] (Explicit (VBool false))).
  assert (Wm : wf m) by (unfold wf, m; simpl; now rewrite L).
  assert (Gs : get m s = Ok (VBool true))
    by (apply get_at_key; [exact Wm|simpl; auto]).
  assert (Ge : get m e = Ok (VBool false))
    by (apply get_at_key; [exact Wm|simpl; auto]).
  assert (A1 : tlt s neg_inf = false) by apply neg_inf_least.
  assert (A3 : tlt pos_inf s = false) by apply pos_inf_greatest.
  assert (A4 : tlt pos_inf e = false) by apply pos_inf_greatest.
  assert (A5 : tlt neg_inf pos_inf = true) by torder.
  assert (A6 : tlt e s = false) by torder.
  assert (G0 : tlt neg_inf s = true -> get m neg_inf = Ok (VBool false)).
  { intros B1. rewrite get_floor by exact Wm. unfold m. simpl.
    now rewrite B1. }
  unfold m in Gs, Ge, G0. clear Wm. clear m.
  unfold intervals. rewrite iterperiods_snapshot. unfold for_snapshot.
  destruct (check_boundaries_inf
              (mkTS [(s, VBool true); (e, VBool false)]
                    (Explicit (VBool false))) None None A5) as [mm ->].
  cbn [bind fst snd lower_bound upper_bound]. rewrite start_value_get.
  unfold keys_slice, _value_function. cbn [_d].
  cbn [bisect_right keys map fst]. rewrite A3, A4.
  destruct (tlt neg_inf s) eqn:B1.
  - rewrite G0 by reflexivity.
    cbn [bind fst snd firstn skipn Nat.sub snapshot_loop py_eq Bool.eqb].
    rewrite Gs. cbn [bind py_eq Bool.eqb fst snd]. rewrite Ge.
    cbn [bind py_eq Bool.eqb fst snd]. now destruct (tlt e pos_inf).
  - assert (E : neg_inf = s) by torder. rewrite E, Gs, L.
    cbn [bind fst snd firstn skipn Nat.sub snapshot_loop py_eq Bool.eqb].
    rewrite Ge. cbn [bind py_eq Bool.eqb fst snd].
    now destruct (tlt e pos_inf).
Qed.

Lemma bisect_left_count (d : dict) (t : T) :
  sorted_keys d = true ->
  bisect_left d t = length (filter (fun kv => tlt (fst kv) t) d).
Proof.
  induction d as [|[k v] d IH]; intros S; [reflexivity|].
  pose proof (sorted_tail _ _ S) as S'. simpl. destruct (tlt k t) eqn:L.
  - simpl. now rewrite IH.
  - rewrite filter_none; trivial. intros x I.
    pose proof (sorted_head_lt _ _ _ _ S I). torder.
Qed.

Lemma bisect_right_count (d : dict) (t : T) :
  sorted_keys d = true ->
  bisect_right d t = length (filter (fun kv => tle (fst kv) t) d).
Proof.
  induction d as [|[k v] d IH]; intros S; [reflexivity|].
  pose proof (sorted_tail _ _ S) as S'. simpl. unfold tle at 1. simpl.
  destruct (tlt t k) eqn:L; simpl.
  - rewrite filter_none; trivial. intros x I.
    pose proof (sorted_head_lt _ _ _ _ S I). unfold tle.
    apply negb_false_iff. torder.
  - now rewrite IH.
Qed.

Lemma count_difference {A : Type} (hi lo : A -> bool) (l : list A) :
  (forall x, lo x = true -> hi x = true) ->
  (Z.of_nat (length (filter hi l)) - Z.of_nat (length (filter lo l)))%Z
  = Z.of_nat (length (filter (fun x => hi x && negb (lo x)) l)).
Proof.
  intros Sub. induction l as [|a l IH]; [reflexivity|].
  cbn [filter]. destruct (lo a) eqn:La.
  - rewrite (Sub a La). cbn [andb negb length]. lia.
  - destruct (hi a); cbn [andb negb length]; lia.
Qed.

(** [n_points(start, end)] without a mask counts the measurements of
    the window from [start] to [end], each end being included or not as
    the two flags say (by default the start is and the end is not).  A
    series without measurements counts 0 whatever the bounds are; a
    series with measurements rejects [start >= end]. *)
Theorem n_points_count (ts : TS) (s e : T) (include_start include_end : bool) :
  wf ts ->
  (tlt s e = true ->
   n_points ts (Some s) (Some e) None include_start include_end
   = Ok (Z.of_nat (length (filter (in_range include_start include_end s e)
                                  (items ts))))) /\
  (tlt s e = false ->
   n_points ts (Some s) (Some e) None include_start include_end
   = if Nat.eqb (len ts) 0 then Ok 0%Z else Raise ValueError).
Proof.
  intros W. unfold n_points, n_measurements, items, len.
  split; intros L; destruct (Nat.eqb (length (_d ts)) 0) eqn:E; trivial.
  - apply Nat.eqb_eq, length_zero_iff_nil in E. now rewrite E.
  - unfold _check_boundaries_mask. cbn [bind _check_boundary]. unfold tge.
    rewrite L. cbn [negb]. rewrite set_plain. cbn [bind].
    rewrite set_plain. cbn [bind snd].
    unfold with_d, Domain_new. cbn [_d _default setitem].
    replace (tlt e s) with false by (symmetry; torder). rewrite L.
    rewrite mask_intervals by exact L. cbn [bind fold_left fst snd].
    f_equal. rewrite Z.add_0_l.
    set (hi := fun kv : T * value =>
                 if include_end then tle (fst kv) e else tlt (fst kv) e).
    set (lo := fun kv : T * value =>
                 if include_start then tlt (fst kv) s else tle (fst kv) s).
    replace (Z.of_nat (if include_end then bisect_right (_d ts) e
                       else bisect_left (_d ts) e))
      with (Z.of_nat (length (filter hi (_d ts))))
      by (unfold hi; destruct include_end;
          now rewrite ?bisect_right_count, ?bisect_left_count).
    replace (Z.of_nat (if include_start then bisect_left (_d ts) s
                       else bisect_right (_d ts) s))
      with (Z.of_nat (length (filter lo (_d ts))))
      by (unfold lo; destruct include_start;
          now rewrite ?bisect_right_count, ?bisect_left_count).
    rewrite count_difference.
    + f_equal. f_equal. apply filter_ext. intros kv.
      unfold hi, lo, in_range, tle. f_equal.
      destruct include_start; trivial. now rewrite negb_involutive.
    + intros x. unfold lo, hi, tle.
      destruct include_start, include_end; intros A;
        try apply negb_true_iff in A; try apply negb_true_iff; torder.
  - unfold _check_boundaries_mask. cbn [bind _check_boundary]. unfold tge.
    now rewrite L.
Qed.

End CountFacts.

(** ** Loops that only read the series, and [to_domain] *)

Section ToDomainFacts.
Context {T : Type} `{TimeType T}.

Local Abbreviation TS := (TimeSeries T).
Local Abbreviation dict := (list (T * value)).
Local Abbreviation period := (T * T * value)%type.
Local Abbreviation collect :=
  (fun (acc : list period) (p : period) (ts' : TS) => Ok (acc ++ [p], ts')).

Lemma collect_total (f : T -> T -> value -> bool) (ts : TS) (e : T) :
  wf ts -> is_floating ts = false ->
  forall rest t0 v (acc : list period),
    exists ps, snapshot_loop f collect rest e t0 v acc ts
               = Ok (acc ++ ps, ts).
Proof.
  intros W NF. induction rest as [|t1 rest IH]; intros t0 v acc.
  - cbn [snapshot_loop]. destruct (tlt t0 e), (f t0 e v); eauto;
      exists []; now rewrite app_nil_r.
  - cbn [snapshot_loop]. destruct (get_ok ts t1 W NF) as [v' G].
    destruct (f t0 t1 v); cbn [bind fst snd]; rewrite G; cbn [bind].
    + destruct (IH t1 v' (acc ++ [(t0, t1, v)])) as [ps R].
      exists ((t0, t1, v) :: ps). rewrite R, <- app_assoc. reflexivity.
    + apply IH.
Qed.

(** A consumer whose body leaves the series alone sees the periods that
    a collecting consumer sees. *)
Lemma loop_pure {A : Type} (f : T -> T -> value -> bool)
      (body : A -> period -> TS -> result (A * TS)) (ts : TS) (e : T) :
  wf ts -> is_floating ts = false ->
  (forall acc p r, body acc p ts = Ok r -> snd r = ts) ->
  forall rest t0 v (acc : A),
    snapshot_loop f body rest e t0 v acc ts
    = match snapshot_loop f collect rest e t0 v [] ts with
      | Ok r => a <- fold_result (pure_body body ts) (fst r) acc ;; Ok (a, ts)
      | Raise x => Raise x
      end.
Proof.
  intros W NF Keep.
  assert (Step : forall acc p,
            body acc p ts = (a <- pure_body body ts acc p ;; Ok (a, ts))).
  { intros acc p. unfold pure_body. destruct (body acc p ts) as [r|x] eqn:B;
      trivial. cbn [bind]. rewrite <- (Keep _ _ _ B). now destruct r. }
  induction rest as [|t1 rest IH]; intros t0 v acc.
  - cbn [snapshot_loop]. destruct (tlt t0 e); [destruct (f t0 e v)|];
      cbn [fst snd app fold_result bind]; trivial.
    rewrite Step. now destruct (pure_body body ts acc (t0, e, v)).
  - cbn [snapshot_loop]. destruct (get_ok ts t1 W NF) as [v' G].
    destruct (f t0 t1 v); cbn [bind fst snd app].
    + rewrite G. cbn [bind].
      rewrite (collect_acc f ts e rest t1 v' [(t0, t1, v)]).
      destruct (collect_total f ts e W NF rest t1 v' []) as [ps R].
      rewrite R. cbn [fst snd app fold_result]. rewrite Step.
      destruct (pure_body body ts acc (t0, t1, v)) as [a|x]; trivial.
      cbn [bind fst snd]. rewrite G. cbn [bind]. rewrite IH, R. reflexivity.
    + rewrite G. cbn [bind]. apply IH.
Qed.

Lemma for_iterperiods_pure {A : Type} (ts : TS) (start end_ : option T)
      (a : value_arg T) (body : A -> period -> TS -> result (A * TS))
      (acc : A) :
  wf ts -> is_floating ts = false ->
  (forall acc p r, body acc p ts = Ok r -> snd r = ts) ->
  for_iterperiods ts start end_ a body acc
  = (ps <- iterperiods ts start end_ a ;;
     r <- fold_result (pure_body body ts) ps acc ;; Ok (r, ts)).
Proof.
  intros W NF Keep. rewrite for_iterperiods_kept by exact Keep.
  rewrite iterperiods_snapshot. unfold for_snapshot.
  destruct (_check_boundaries ts start end_ true) as [b|x]; [|reflexivity].
  cbn [bind].
  destruct (if 0 <? bisect_right (_d ts) (fst (fst b))
            then k <- iloc (_d ts) (bisect_right (_d ts) (fst (fst b)) - 1) ;;
                 getitem (_d ts) k
            else default ts) as [v0|x]; [|reflexivity].
  cbn [bind]. rewrite (loop_pure _ body ts _ W NF Keep).
  destruct (snapshot_loop _ _ _ _ _ _ _ _) as [r|x]; reflexivity.
Qed.

Lemma to_domain_keeps (ts : TS) (res : TS) (p : period) (r : TS * TS) :
  to_domain_step res p ts = Ok r -> snd r = ts.
Proof.
  unfold to_domain_step. destruct p as [[t0 t1] v].
  destruct (truthy v); [|intros E; now inversion E].
  destruct (set res t0 (VBool true) true) as [res'|x]; [|discriminate].
  cbn [bind].
  destruct (set res' t1 (VBool false) true) as [res''|x]; [|discriminate].
  cbn [bind]. intros E. now inversion E.
Qed.

Lemma set_compact_writes (res : TS) (t : T) (v cur : value) :
  get res t = Ok cur -> py_eq cur v = false ->
  set res t v true = Ok (with_d res (setitem (_d res) t v)).
Proof.
  intros G Q. unfold set. destruct (Nat.eqb (len res) 0); trivial.
  cbn [negb]. rewrite G. cbn [bind andb]. unfold py_ne. now rewrite Q.
Qed.

Lemma to_domain_one (ts res : TS) (s t0 t1 : T) (v : value) :
  tlt t0 t1 = true -> period_const ts (t0, t1, v) ->
  domain_upto ts s res t0 ->
  exists res', pure_body to_domain_step ts res (t0, t1, v) = Ok res' /\
               domain_upto ts s res' t1.
Proof.
  intros L Const (W & D & Ls & Kb & In_ & Before & After).
  unfold period_const in Const. cbn [fst snd] in Const.
  unfold pure_body, to_domain_step. destruct (truthy v) eqn:Tv.
  - pose proof (After t0 (tlt_irrefl t0)) as G0.
    rewrite (set_compact_writes res t0 (VBool true) _ G0 eq_refl). cbn [bind].
    destruct (setitem_get res t0 (VBool true) W) as (W1 & A1 & _ & C1).
    set (res1 := with_d res (setitem (_d res) t0 (VBool true))) in *.
    assert (K1 : forall x, In x (_d res1) -> tlt t0 (fst x) = false).
    { intros x I. unfold res1 in I. cbn [_d with_d] in I.
      apply setitem_In in I; trivial.
      destruct I as [->|[I _]]; [apply tlt_irrefl|auto]. }
    assert (G1 : forall t, tlt t t0 = false -> get res1 t = Ok (VBool true)).
    { intros t Lt. apply A1; trivial. intros x I Lx.
      rewrite (Kb x I) in Lx. discriminate. }
    rewrite (set_compact_writes res1 t1 (VBool false) _
               (G1 t1 (tlt_asym _ _ L)) eq_refl).
    cbn [bind fst].
    destruct (setitem_get res1 t1 (VBool false) W1) as (W2 & A2 & _ & C2).
    set (res2 := with_d res1 (setitem (_d res1) t1 (VBool false))) in *.
    eexists. split; [reflexivity|]. fold res2.
    assert (Old : forall t, tlt t t0 = true -> get res2 t = get res t).
    { intros t Lt. rewrite (C2 t (VBool false)); [|torder|exact D].
      apply (C1 t (VBool false)); trivial. }
    split; [exact W2|]. split; [exact D|]. split; [torder|].
    split; [|split; [|split]].
    + intros x I. unfold res2 in I. cbn [_d with_d] in I.
      apply setitem_In in I; trivial.
      destruct I as [->|[I _]]; [apply tlt_irrefl|].
      pose proof (K1 x I). torder.
    + intros t Lt Lt1. destruct (tlt t t0) eqn:Lt0.
      * rewrite Old by trivial. now apply In_.
      * exists v. split; [now apply Const|]. rewrite Tv.
        rewrite (C2 t (VBool false)); trivial. now apply G1.
    + intros t Lt. rewrite Old by torder. now apply Before.
    + intros t Lt. apply A2; trivial. intros x I Lx.
      pose proof (K1 x I). exfalso. torder.
  - cbn [bind fst]. eexists. split; [reflexivity|].
    split; [exact W|]. split; [exact D|]. split; [torder|].
    split; [|split; [|split]]; trivial.
    + intros x I. pose proof (Kb x I). torder.
    + intros t Lt Lt1. destruct (tlt t t0) eqn:Lt0; [now apply In_|].
      exists v. split; [now apply Const|]. rewrite Tv. now apply After.
    + intros t Lt. apply After. torder.
Qed.

Lemma to_domain_fold (ts : TS) (s : T) (ps : list period) :
  forall lo hi res,
    chained lo ps hi -> Forall (period_const ts) ps ->
    domain_upto ts s res lo ->
    exists res', fold_result (pure_body to_domain_step ts) ps res = Ok res' /\
                 domain_upto ts s res' hi.
Proof.
  induction ps as [|[[t0 t1] v] ps IH]; intros lo hi res C F I.
  - simpl in C. subst hi. exists res. auto.
  - destruct C as (E & L & C). cbn [fst snd] in *. subst t0.
    inversion F as [|p l Fp F']; subst.
    destruct (to_domain_one ts res s lo t1 v L Fp I) as (res1 & R1 & I1).
    cbn [fold_result]. rewrite R1. cbn [bind]. now apply (IH t1 hi).
Qed.

(** [to_domain(start, end)] builds the [Domain] of the times where the
    series is true: between [start] and [end] (the infinities when not
    given) the result is [True] exactly where the value of the series
    is true, and it is [False] before [start] and from [end] on. *)
Theorem to_domain_spec (ts : TS) (start end_ : option T) :
  wf ts -> is_floating ts = false ->
  tlt (lower_bound start) (upper_bound end_) = true ->
  exists r, to_domain ts start end_ = Ok r /\ wf r /\ is_domain r /\
    (forall t, tle (lower_bound start) t = true ->
       tlt t (upper_bound end_) = true ->
       exists v, get ts t = Ok v /\ get r t = Ok (VBool (truthy v))) /\
    (forall t, tlt t (lower_bound start) = true \/
               tle (upper_bound end_) t = true ->
       get r t = Ok (VBool false)).
Proof.
  intros W NF L. unfold to_domain.
  rewrite for_iterperiods_pure; trivial;
    [|intros acc p r; apply to_domain_keeps].
  destruct (periods_chained ts start end_ W NF L) as (ps & R & C & F).
  rewrite R. cbn [bind].
  destruct (to_domain_fold ts (lower_bound start) ps _ _ Domain_new C F)
    as (r & Rr & Wr & Dr & _ & _ & In_ & Before & After).
  { unfold domain_upto, Domain_new. cbn [_d _default].
    split; [reflexivity|]. split; [reflexivity|].
    split; [apply tlt_irrefl|]. split; [intros x []|].
    split; [intros t L0 L1; congruence|].
    split; intros t _; reflexivity. }
  rewrite Rr. cbn [bind fst]. exists r. split; [reflexivity|].
  split; [exact Wr|]. split; [exact Dr|]. split.
  - intros t L0 L1. apply In_; trivial. torder.
  - intros t [Lt|Lt]; [now apply Before|]. apply After. torder.
Qed.

End ToDomainFacts.

(** ** [slice], default bounds and element-wise operations *)

Section OperationFacts.
Context {T : Type} `{TimeType T}.

Local Abbreviation TS := (TimeSeries T).
Local Abbreviation dict := (list (T * value)).

Lemma fill_empty_In (f : T -> value) (ks : list T) (x : T * value) :
  In x (fill f ks []) <-> In (fst x) ks /\ snd x = f (fst x).
Proof.
  destruct x as [k v]. rewrite fill_In by reflexivity. simpl. tauto.
Qed.

(** A series built by writing [f k] at each key of [ks] reads, at a
    time that has a key of [ks] at or before it, the value written at
    the greatest such key. *)
Lemma fill_get (f : T -> value) (ks : list T) (dflt : Default) (t : T) :
  (exists k, In k ks /\ tlt t k = false) ->
  exists k, In k ks /\ tlt t k = false /\
            (forall k', In k' ks -> tlt t k' = false -> tlt k k' = false) /\
            get (mkTS (fill f ks []) dflt) t = Ok (f k).
Proof.
  intros (k0 & I0 & L0).
  assert (W : wf (mkTS (fill f ks []) dflt))
    by (apply fill_sorted; reflexivity).
  rewrite get_floor by exact W. cbn [_d].
  destruct (floor (fill f ks []) t) as [[k v]|] eqn:F.
  - pose proof (floor_In _ _ _ F) as I. apply fill_empty_In in I.
    cbn [fst snd] in I. destruct I as [I ->].
    exists k. split; [exact I|]. split; [apply (floor_le _ _ _ F)|].
    split; [|reflexivity]. intros k' I' L'.
    apply (floor_greatest _ _ _ W F (k', f k')); trivial.
    apply fill_empty_In. auto.
  - assert (I : In (k0, f k0) (fill f ks [])) by (apply fill_empty_In; auto).
    pose proof (floor_None _ _ W F _ I) as C. simpl in C. congruence.
Qed.

(** [slice(start, end)] agrees with the series on the whole window,
    both ends included; after the window it keeps the value at [end],
    and before it has the default of the series as an explicit default.
    Its points are [start], the recorded keys strictly inside the
    window, and [end]. *)
Theorem slice_agrees (ts : TS) (s e : T) :
  wf ts -> is_floating ts = false -> tlt s e = true ->
  exists r dv, slice ts s e = Ok r /\ wf r /\
    default ts = Ok dv /\ _default r = Explicit dv /\
    (forall k, In k (keys (items r)) <->
               k = s \/ In k (keys_between s e (items ts)) \/ k = e) /\
    (forall t, tle s t = true -> tle t e = true -> get r t = get ts t) /\
    (forall t, tlt e t = true -> get r t = get ts e) /\
    (forall t, tlt t s = true -> get r t = Ok dv).
Proof.
  intros W NF L. destruct (slice_result ts s e W NF L) as (dv & D & R).
  set (ks := s :: keys_between s e (_d ts) ++ [e]) in *.
  assert (Ks : forall k, In k ks <->
                 k = s \/ In k (keys_between s e (_d ts)) \/ k = e).
  { intros k. unfold ks. simpl. rewrite in_app_iff. simpl. intuition. }
  assert (Kb : forall k, In k ks -> tlt k s = false /\ tlt e k = false).
  { intros k I. apply Ks in I. destruct I as [->|[I| ->]].
    - split; [apply tlt_irrefl|torder].
    - unfold keys_between in I. apply filter_In in I. destruct I as [_ I].
      apply andb_true_iff in I. destruct I. split; torder.
    - split; [torder|apply tlt_irrefl]. }
  assert (Wr : wf (mkTS (fill (value_at ts) ks []) (Explicit dv)))
    by (apply fill_sorted; reflexivity).
  eexists. exists dv. split; [exact R|]. split; [exact Wr|].
  split; [exact D|]. split; [reflexivity|]. unfold items. cbn [_d].
  split; [|split; [|split]].
  - intros k. rewrite <- Ks, in_keys. split.
    + intros [v I]. apply fill_empty_In in I. tauto.
    + intros I. exists (value_at ts k). apply fill_empty_In. auto.
  - intros t L0 L1.
    destruct (fill_get (value_at ts) ks (Explicit dv) t) as (k & I & Lk & G & ->).
    { exists s. split; [apply Ks; auto|torder]. }
    rewrite <- (get_value_at ts k W NF). rewrite !get_floor by trivial.
    rewrite (floor_same (_d ts) k t); [reflexivity|exact W|exact Lk|].
    intros x Ix Lx. destruct (tlt t (fst x)) eqn:E; trivial. exfalso.
    destruct (Kb k I) as [Bk _].
    assert (Ik : In (fst x) ks).
    { apply Ks. destruct (tlt (fst x) e) eqn:Le; [|right; right; torder].
      right. left. unfold keys_between. apply filter_In. split.
      - apply in_keys. exists (snd x). now destruct x.
      - rewrite Le, andb_true_r. torder. }
    pose proof (G _ Ik E). torder.
  - intros t Lt.
    destruct (fill_get (value_at ts) ks (Explicit dv) t) as (k & I & Lk & G & ->).
    { exists e. split; [apply Ks; auto|torder]. }
    destruct (Kb k I) as [_ Bk].
    assert (k = e).
    { assert (Ie : In e ks) by (apply Ks; auto).
      pose proof (G e Ie (tlt_asym _ _ Lt)). torder. }
    subst k. symmetry. now apply get_value_at.
  - intros t Lt. rewrite get_floor by exact Wr. cbn [_d].
    rewrite floor_above; [reflexivity|].
    intros x I. apply fill_empty_In in I. destruct I as [I _].
    destruct (Kb _ I). torder.
Qed.

Lemma peek_last_In (d : dict) (kv : T * value) :
  peek_last d = Ok kv -> In kv d.
Proof.
  unfold peek_last. destruct (rev d) as [|x r] eqn:E; [discriminate|].
  intros Q. inversion Q; subst x. apply in_rev. rewrite E. now left.
Qed.

Lemma peek_last_cons (x y : T * value) (d : dict) :
  peek_last (x :: y :: d) = peek_last (y :: d).
Proof.
  unfold peek_last. simpl. destruct (rev d ++ [y]) as [|z r] eqn:E.
  - now destruct (rev d).
  - reflexivity.
Qed.

Lemma peek_last_ok (x : T * value) (d : dict) :
  exists kv, peek_last (x :: d) = Ok kv.
Proof.
  unfold peek_last. simpl. destruct (rev d ++ [x]) as [|z r] eqn:E; eauto.
  now destruct (rev d).
Qed.

(** The default bounds of an operation that does not allow infinite
    ones are the first and the last measurement time.  They need two
    measurements: an empty series raises [KeyError], a series with a
    single measurement raises [ValueError], since its start is not
    before its end. *)
Theorem default_bounds (ts : TS) :
  wf ts ->
  (len ts = 0 -> _check_boundaries ts None None false = Raise KeyError) /\
  (len ts = 1 -> _check_boundaries ts None None false = Raise ValueError) /\
  (2 <= len ts ->
   exists k0 v0 kn vn m,
     first_item ts = Ok (k0, v0) /\ last_item ts = Ok (kn, vn) /\
     tlt k0 kn = true /\
     _check_boundaries ts None None false = Ok (k0, kn, m) /\
     intervals m = Ok [(k0, kn)]).
Proof.
  intros W. unfold len, _check_boundaries, _check_boundary, first_item,
    last_item. unfold wf in W.
  destruct (_d ts) as [|[k0 v0] [|y d]] eqn:E; simpl length.
  - split; [reflexivity|]. split; [discriminate|lia].
  - split; [discriminate|]. split; [|lia]. intros _.
    cbn. unfold tge. now rewrite tlt_irrefl.
  - split; [discriminate|]. split; [intros Q; lia|]. intros _.
    destruct (peek_last_ok y d) as [[kn vn] P].
    rewrite peek_last_cons, P. cbn [peek_first bind fst].
    assert (L : tlt k0 kn = true).
    { apply (sorted_head_lt _ _ _ _ W (peek_last_In _ _ P)). }
    unfold tge. rewrite L. cbn [negb]. rewrite set_plain. cbn [bind].
    rewrite set_plain. cbn [bind]. unfold with_d, Domain_new.
    cbn [_d _default setitem]. rewrite L.
    replace (tlt kn k0) with false by (symmetry; torder).
    exists k0, v0, kn, vn. eexists. repeat split; trivial.
    now apply mask_intervals.
Qed.

Lemma operation_self_run (f : value -> value -> result value)
      (g : value -> value -> value) (self other : TS) :
  (forall t, f (value_at self t) (value_at other t)
             = Ok (g (value_at self t) (value_at other t))) ->
  wf other -> is_floating other = false ->
  forall its res,
    Forall (fun kv => get self (fst kv) = Ok (snd kv)) its ->
    operation_self f other its res
    = Ok (with_d res (fill (fun k => g (value_at self k) (value_at other k))
                           (keys its) (_d res))).
Proof.
  intros Tot W NF. induction its as [|[time v] its IH]; intros res F.
  - simpl. unfold fill. simpl. now rewrite with_d_same.
  - inversion F as [|x l Hx F']; subst. simpl in Hx.
    assert (E : value_at self time = v) by (unfold value_at; now rewrite Hx).
    cbn [operation_self]. rewrite (get_value_at other time W NF).
    cbn [bind]. rewrite <- E, Tot. cbn [bind]. rewrite set_plain. cbn [bind].
    rewrite (IH _ F').
    unfold keys. cbn [map fst]. unfold fill at 2. cbn [fold_left].
    reflexivity.
Qed.

Lemma operation_other_run (f : value -> value -> result value)
      (g : value -> value -> value) (self other : TS) :
  (forall t, f (value_at self t) (value_at other t)
             = Ok (g (value_at self t) (value_at other t))) ->
  wf self -> is_floating self = false ->
  forall its res,
    Forall (fun kv => get other (fst kv) = Ok (snd kv)) its ->
    operation_other f self its res
    = Ok (with_d res (fill (fun k => g (value_at self k) (value_at other k))
                           (keys its) (_d res))).
Proof.
  intros Tot W NF. induction its as [|[time v] its IH]; intros res F.
  - simpl. unfold fill. simpl. now rewrite with_d_same.
  - inversion F as [|x l Hx F']; subst. simpl in Hx.
    assert (E : value_at other time = v) by (unfold value_at; now rewrite Hx).
    cbn [operation_other]. rewrite (get_value_at self time W NF).
    cbn [bind]. rewrite <- E, Tot. cbn [bind]. rewrite set_plain. cbn [bind].
    rewrite (IH _ F').
    unfold keys. cbn [map fst]. unfold fill at 2. cbn [fold_left].
    reflexivity.
Qed.

Lemma items_get (ts : TS) :
  wf ts -> Forall (fun kv => get ts (fst kv) = Ok (snd kv)) (items ts).
Proof.
  intros W. apply Forall_forall. intros [k v] I. now apply get_at_key.
Qed.

(** The value of a series at [t] is its value at any earlier time [k]
    that has no recorded key between it and [t]. *)
Lemma value_at_same (ts : TS) (k t : T) :
  wf ts -> tlt t k = false ->
  (forall x, In x (_d ts) -> tlt k (fst x) = true -> tlt t (fst x) = true) ->
  value_at ts t = value_at ts k.
Proof.
  intros W L N. unfold value_at. rewrite !get_floor by trivial.
  now rewrite (floor_same (_d ts) k t).
Qed.

(** The two loops of [operation] between two series, for a function
    that does not raise on the pairs of values that the two series
    take at one time. *)
Lemma operation_series_run (self other : TS)
      (f : value -> value -> result value) (g : value -> value -> value)
      (dflt : Default) :
  wf self -> wf other ->
  is_floating self = false -> is_floating other = false ->
  (forall t, f (value_at self t) (value_at other t)
             = Ok (g (value_at self t) (value_at other t))) ->
  exists r, operation self (OtherSeries other) f [] dflt = Ok r /\
    wf r /\ _default r = dflt /\
    (forall k, In k (keys (items r)) <->
               In k (keys (items self)) \/ In k (keys (items other))) /\
    (forall t x, In x (items r) -> tle (fst x) t = true ->
       exists a b, get self t = Ok a /\ get other t = Ok b /\
                   get r t = Ok (g a b)).
Proof.
  intros Ws Wo Ns No Tot. unfold operation, TimeSeries_new, from_items.
  cbn [fold_left].
  rewrite (operation_self_run f g self other Tot Wo No _ _ (items_get self Ws)).
  cbn [bind].
  rewrite (operation_other_run f g self other Tot Ws Ns _ _
             (items_get other Wo)).
  unfold with_d. cbn [_d _default]. rewrite <- fill_app.
  set (F := fun k => g (value_at self k) (value_at other k)).
  set (ks := keys (items self) ++ keys (items other)).
  eexists. split; [reflexivity|].
  split; [apply fill_sorted; reflexivity|]. split; [reflexivity|].
  unfold items at 1 3. cbn [_d]. split.
  - intros k. rewrite in_keys. unfold ks. rewrite <- in_app_iff. split.
    + intros [v I]. apply fill_empty_In in I. tauto.
    + intros I. exists (F k). apply fill_empty_In. auto.
  - intros t x I L. apply fill_empty_In in I. destruct I as [I _].
    destruct (fill_get F ks dflt t) as (k & Ik & Lk & G & R).
    { exists (fst x). split; [exact I|torder]. }
    exists (value_at self t), (value_at other t).
    split; [now apply get_value_at|]. split; [now apply get_value_at|].
    rewrite R. unfold F. f_equal. f_equal.
    + symmetry. apply value_at_same; trivial. intros y Iy Ly.
      destruct (tlt t (fst y)) eqn:E; trivial. exfalso.
      assert (J : In (fst y) ks).
      { unfold ks. apply in_app_iff. left. apply in_keys.
        exists (snd y). now destruct y. }
      pose proof (G _ J E). torder.
    + symmetry. apply value_at_same; trivial. intros y Iy Ly.
      destruct (tlt t (fst y)) eqn:E; trivial. exfalso.
      assert (J : In (fst y) ks).
      { unfold ks. apply in_app_iff. right. apply in_keys.
        exists (snd y). now destruct y. }
      pose proof (G _ J E). torder.
Qed.

(** [operation(other, function)] between two series, for a function
    that does not raise: the result has the measurement times of both
    series, and at every time that has one of them at or before it its
    value is the function of the two values at that time. *)
Theorem operation_series (self other : TS)
        (f : value -> value -> result value) (g : value -> value -> value)
        (dflt : Default) :
  wf self -> wf other ->
  is_floating self = false -> is_floating other = false ->
  (forall x y, f x y = Ok (g x y)) ->
  exists r, operation self (OtherSeries other) f [] dflt = Ok r /\
    wf r /\ _default r = dflt /\
    (forall k, In k (keys (items r)) <->
               In k (keys (items self)) \/ In k (keys (items other))) /\
    (forall t x, In x (items r) -> tle (fst x) t = true ->
       exists a b, get self t = Ok a /\ get other t = Ok b /\
                   get r t = Ok (g a b)).
Proof.
  intros Ws Wo Ns No Tot.
  apply operation_series_run; trivial.
Qed.

Lemma setitem_append (d : dict) (k : T) (v : value) :
  (forall x, In x d -> tlt (fst x) k = true) -> setitem d k v = d ++ [(k, v)].
Proof.
  induction d as [|[k' v'] d IH]; intros A; [reflexivity|].
  pose proof (A (k', v') (or_introl eq_refl)) as L. simpl in L.
  simpl. rewrite (tlt_asym _ _ L), L. f_equal. apply IH.
  intros x I. apply A. now right.
Qed.

Lemma operation_constant_run (f : value -> value -> result value)
      (g : value -> value -> value) (c : value) (dflt : Default) :
  forall its pre,
    Forall (fun kv => f (snd kv) c = Ok (g (snd kv) c)) its ->
    sorted_keys (pre ++ its) = true ->
    operation_constant f c its
      (mkTS (map (fun kv => (fst kv, g (snd kv) c)) pre) dflt)
    = Ok (mkTS (map (fun kv => (fst kv, g (snd kv) c)) (pre ++ its)) dflt).
Proof.
  induction its as [|[time v] its IH]; intros pre Tot S.
  - now rewrite app_nil_r.
  - inversion Tot as [|x l Tv Tot']; subst. cbn [snd] in Tv.
    cbn [operation_constant]. rewrite Tv. cbn [bind]. rewrite set_plain.
    cbn [bind]. unfold with_d. cbn [_d _default].
    rewrite setitem_append.
    + specialize (IH (pre ++ [(time, v)])). rewrite <- app_assoc in IH.
      rewrite map_app in IH. apply IH; [exact Tot'|exact S].
    + intros x I. apply in_map_iff in I. destruct I as (y & <- & I).
      destruct (sorted_app _ _ S) as (_ & _ & C).
      apply (C y (time, v) I). now left.
Qed.

(** [operation(other, function)] with a constant, for a function that
    does not raise, keeps the measurement times and maps each value. *)
Theorem operation_constant_spec (self : TS)
        (f : value -> value -> result value) (g : value -> value -> value)
        (c : value) (dflt : Default) :
  wf self -> (forall x y, f x y = Ok (g x y)) ->
  operation self (OtherConstant c) f [] dflt
  = Ok (mkTS (map (fun kv => (fst kv, g (snd kv) c)) (items self)) dflt).
Proof.
  intros W Tot. unfold operation, TimeSeries_new, from_items.
  cbn [fold_left].
  apply (operation_constant_run f g c dflt (items self) []); [|exact W].
  apply Forall_forall. intros x _. apply Tot.
Qed.

(** [to_bool()] keeps the measurement times and replaces every value
    by its truth value ([invert] negates it).  The result has no
    explicit default, whatever the default of the series was. *)
Theorem to_bool_spec (ts : TS) (invert : bool) :
  wf ts ->
  to_bool ts invert
  = Ok (mkTS (map (fun kv => (fst kv, VBool (xorb invert (truthy (snd kv)))))
                  (items ts))
             EXTEND_BACK).
Proof.
  intros W. unfold to_bool, operation, TimeSeries_new, from_items.
  cbn [fold_left].
  etransitivity.
  - apply (operation_constant_run _
             (fun x _ => VBool (if invert then negb (truthy x) else truthy x))
             VNone EXTEND_BACK (items ts) []); [|exact W].
    apply Forall_forall. intros x _. reflexivity.
  - reflexivity.
Qed.

End OperationFacts.

(** ** Interval writes *)

Section IntervalWrite.
Context {T : Type} `{TimeType T}.

Local Abbreviation TS := (TimeSeries T).
Local Abbreviation dict := (list (T * value)).
Local Abbreviation period := (T * T * value)%type.
Local Abbreviation collect :=
  (fun (acc : list period) (p : period) (ts' : TS) => Ok (acc ++ [p], ts')).
Local Abbreviation run body :=
  (fun st p => body (fst st) p (snd st)).

(** A consumer that only touches the series at or before the start of
    the period it was handed sees the periods of the untouched series:
    the generator reads the series at recorded keys that are still to
    come. *)
Lemma loop_local {A : Type} (body : A -> period -> TS -> result (A * TS))
      (ts : TS) (e : T) :
  wf ts -> is_floating ts = false ->
  (forall acc p ts' r,
     sorted_keys (_d ts') = true ->
     (forall x, In x (_d ts) -> tlt (fst (fst p)) (fst x) = true ->
                In x (_d ts')) ->
     body acc p ts' = Ok r ->
     sorted_keys (_d (snd r)) = true /\
     forall x, In x (_d ts) -> tlt (fst (fst p)) (fst x) = true ->
               In x (_d (snd r))) ->
  forall rest t0 v (acc : A) ts',
    chain_ok e t0 rest ->
    (forall k, In k rest -> In k (keys (_d ts))) ->
    sorted_keys (_d ts') = true ->
    (forall x, In x (_d ts) -> tlt t0 (fst x) = true -> In x (_d ts')) ->
    snapshot_loop (fun _ _ _ => true) body rest e t0 v acc ts'
    = match snapshot_loop (fun _ _ _ => true) collect rest e t0 v [] ts with
      | Ok r => fold_result (run body) (fst r) (acc, ts')
      | Raise x => Raise x
      end.
Proof.
  intros W NF Local.
  induction rest as [|t1 rest IH]; intros t0 v acc ts' C Sub S Keep.
  - cbn [snapshot_loop].
    destruct (tlt t0 e); cbn [fst snd app fold_result]; trivial.
    destruct (body acc (t0, e, v) ts'); reflexivity.
  - destruct C as [L C]. cbn [snapshot_loop bind fst snd app].
    destruct (proj1 (in_keys _ _) (Sub t1 (or_introl eq_refl))) as [w I].
    rewrite (get_at_key ts t1 w W I). cbn [bind].
    rewrite (collect_acc _ ts e rest t1 w [(t0, t1, v)]).
    destruct (collect_total (fun _ _ _ => true) ts e W NF rest t1 w [])
      as [ps R].
    rewrite R. cbn [fst snd app fold_result].
    destruct (body acc (t0, t1, v) ts') as [r|x] eqn:B; [|reflexivity].
    cbn [bind]. destruct (Local acc (t0, t1, v) ts' r S Keep B) as [S1 Keep1].
    cbn [fst] in Keep1.
    rewrite (get_at_key (snd r) t1 w S1 (Keep1 _ I L)). cbn [bind].
    rewrite (IH t1 w (fst r) (snd r) C); trivial.
    + rewrite R. now destruct r.
    + intros k J. apply Sub. now right.
    + intros x Ix Lx. apply Keep1; trivial. cbn [fst]. torder.
Qed.

Lemma set_interval_local (v : value) (c : bool) (ts : TS) :
  forall (acc : nat * option value) (p : period) (ts' : TS)
         (r : (nat * option value) * TS),
    sorted_keys (_d ts') = true ->
    (forall x, In x (_d ts) -> tlt (fst (fst p)) (fst x) = true ->
               In x (_d ts')) ->
    set_interval_step v c acc p ts' = Ok r ->
    sorted_keys (_d (snd r)) = true /\
    forall x, In x (_d ts) -> tlt (fst (fst p)) (fst x) = true ->
              In x (_d (snd r)).
Proof.
  intros acc [[t0 t1] pv] ts' r S Keep. unfold set_interval_step.
  cbn [fst] in *. destruct (Nat.eqb (fst acc) 0).
  - assert (Q : set ts' t0 v c = Ok ts' \/
                set ts' t0 v c = Ok (with_d ts' (setitem (_d ts') t0 v)) \/
                exists x, set ts' t0 v c = Raise x).
    { unfold set. destruct (Nat.eqb (len ts') 0); [auto|].
      destruct c; cbn [negb]; [|auto].
      destruct (get ts' t0) as [cur|x]; cbn [bind]; [|eauto].
      destruct (true && py_ne cur v); auto. }
    destruct Q as [Q|[Q|[x Q]]]; rewrite Q; cbn [bind]; intros E;
      inversion E; subst r; cbn [snd _d with_d]; auto.
    split; [now apply setitem_sorted|]. intros x I L.
    apply setitem_In; trivial. right. split; auto. torder.
  - unfold remove. rewrite delitem_spec by exact S.
    destruct (has_key (_d ts') t0); cbn [bind]; intros E; inversion E; subst r.
    cbn [snd _d with_d]. split; [now apply discard_sorted|].
    intros x I L. apply discard_In. split; auto. torder.
Qed.

Lemma remove_fold (v : value) (c : bool) (dflt : Default)
      (ps : list period) :
  forall i lv d,
    sorted_keys d = true ->
    NoDup (map (fun p : period => fst (fst p)) ps) ->
    (forall p, In p ps -> In (fst (fst p)) (keys d)) ->
    fold_result (run (set_interval_step v c)) ps ((S i, lv), mkTS d dflt)
    = Ok ((S i + length ps,
           fold_left (fun _ (p : period) => Some (snd p)) ps lv),
          mkTS (discard_all d (map (fun p : period => fst (fst p)) ps)) dflt).
Proof.
  induction ps as [|[[t0 t1] pv] ps IH]; intros i lv d S N K.
  - simpl. now rewrite Nat.add_0_r.
  - cbn [fold_result fst snd]. unfold set_interval_step at 1.
    cbn [fst Nat.eqb]. unfold remove. cbn [_d]. rewrite delitem_spec by exact S.
    assert (Hk : has_key d t0 = true).
    { apply has_key_In. apply in_keys. apply (K (t0, t1, pv)). now left. }
    rewrite Hk. cbn [bind]. unfold with_d. cbn [_default].
    inversion N as [|a l Na N']; subst.
    rewrite IH; trivial.
    + cbn [length map fst fold_left]. unfold discard_all. cbn [fold_left].
      now rewrite Nat.add_succ_r.
    + now apply discard_sorted.
    + intros p I. specialize (K p (or_intror I)). apply in_keys in K.
      destruct K as [w K]. apply in_keys. exists w. apply discard_In.
      split; trivial. cbn [fst]. intros E. apply Na. rewrite <- E.
      now apply (in_map (fun p : period => fst (fst p))).
Qed.

Lemma sorted_NoDup (d : dict) : sorted_keys d = true -> NoDup (keys d).
Proof.
  induction d as [|[k v] d IH]; intros S; [constructor|].
  simpl. constructor.
  - intros I. pose proof (sorted_head_lt_key _ _ _ _ S I) as L.
    rewrite tlt_irrefl in L. discriminate.
  - apply IH. eapply sorted_tail; eauto.
Qed.

Lemma last_period (ps : list period) (lo hi : T) (lv : option value) :
  chained lo ps hi -> ps <> [] ->
  exists p, In p ps /\ snd (fst p) = hi /\
            fold_left (fun _ (q : period) => Some (snd q)) ps lv
            = Some (snd p).
Proof.
  revert lo lv. induction ps as [|p ps IH]; intros lo lv C N; [congruence|].
  destruct C as (_ & _ & C). destruct ps as [|q ps].
  - simpl in C. exists p. simpl. auto.
  - destruct (IH _ (Some (snd p)) C) as (p' & I & E & F); [discriminate|].
    exists p'. split; [now right|]. split; [exact E|exact F].
Qed.

(** What [set_interval(s, e, v)] leaves in the dictionary: the point
    [(s, v)], a point at [e], and the old measurements outside the
    closed window. *)
Lemma set_interval_result (ts : TS) (s e : T) (v : value) :
  wf ts -> is_floating ts = false -> tlt s e = true ->
  length (keys_upto s e (_d ts)) <= 1 ->
  exists ps p,
    iterperiods ts (Some s) (Some e) NoFilter = Ok ps /\
    chained s ps e /\ Forall (period_const ts) ps /\
    In p ps /\ snd (fst p) = e /\
    set_interval ts s e v false
    = Ok (with_d ts
            (setitem (discard_all (setitem (_d ts) s v)
                                  (keys_between s e (_d ts)))
                     e (snd p))).
Proof.
  intros W NF L N1.
  assert (Ch := chain_ok_upto (_d ts) s e W L).
  destruct (get_ok ts s W NF) as [v0 G].
  destruct (collect_loop ts e W NF _ s v0 [] Ch G) as (ps & R & A & _ & _).
  destruct (chain_loop ts e W NF _ s v0 [] Ch G) as (ps' & R' & C & F).
  { intros x I L1 L2. unfold keys_upto. apply filter_In. split.
    - apply in_keys. exists (snd x). now destruct x.
    - unfold tle. now rewrite L1, L2. }
  rewrite R in R'. inversion R'; subst ps'. clear R'.
  cbn [filter] in A. rewrite L, upto_below in A. cbn [app] in R.
  destruct ps as [|[[t0 t1] pv] ps]; [discriminate|].
  cbn [map fst] in A. inversion A as [[E0 A']]. subst t0.
  destruct (last_period _ _ _ (Some pv) C) as (p & Ip & Ep & Fp);
    [discriminate|].
  exists ((s, t1, pv) :: ps), p.
  assert (RI : iterperiods ts (Some s) (Some e) NoFilter
               = Ok ((s, t1, pv) :: ps)).
  { rewrite iterperiods_snapshot. unfold for_snapshot.
    destruct (check_boundaries_some ts s e L) as [m ->].
    cbn [bind fst snd]. rewrite start_value_get, G. cbn [bind].
    rewrite keys_slice_range by (trivial; torder).
    unfold _value_function. rewrite R. reflexivity. }
  split; [exact RI|]. split; [exact C|]. split; [exact F|].
  split; [exact Ip|]. split; [exact Ep|].
  unfold set_interval. rewrite for_iterperiods_short by trivial.
  unfold for_snapshot.
  destruct (check_boundaries_some ts s e L) as [m ->].
  cbn [bind fst snd]. rewrite start_value_get, G. cbn [bind].
  rewrite keys_slice_range by (trivial; torder). unfold _value_function.
  rewrite (loop_local (set_interval_step v false) ts e W NF
             (set_interval_local v false ts)); trivial.
  - rewrite R. cbn [fst fold_result snd].
    unfold set_interval_step at 1. cbn [fst Nat.eqb]. rewrite set_plain.
    cbn [bind]. destruct ts as [d dflt]. unfold with_d. cbn [_d _default] in *.
    rewrite remove_fold.
    + cbn [bind fst snd]. cbn [fold_left snd] in Fp. rewrite A', Fp.
      now rewrite set_plain.
    + apply setitem_sorted. exact W.
    + rewrite A'. unfold keys_between. apply NoDup_filter.
      now apply sorted_NoDup.
    + intros q Iq.
      assert (J : In (fst (fst q)) (keys_between s e d)).
      { rewrite <- A'. now apply (in_map (fun p : period => fst (fst p))). }
      unfold keys_between in J. apply filter_In in J. destruct J as [J B].
      apply andb_true_iff in B. destruct B as [B _].
      apply in_keys in J. destruct J as [w J]. apply in_keys. exists w.
      apply setitem_In; trivial. right. split; trivial. cbn [fst]. torder.
  - intros k I. unfold keys_upto in I. now apply filter_In in I.
Qed.

(** [set_interval(s, e, v)] without [compact], on a series that has a
    value, for [s < e] and when at most one recorded key lies in
    [(s, e]]: the generator reads the keys of that window one by one
    from the dictionary that the loop is writing to, and a single key is
    read before the first write.  The series then reads [v] all over
    [[s, e)].
    At [e], and after [e] up to the next recorded key, it reads [w], the
    value that the series had just before [e]; when no measurement was
    recorded at [e] this is the value it had at [e].  Reads at or after
    a key greater than [e] are unchanged, and so are reads before [s]
    that have a key at or before them, or an explicit default.  The
    stored points are [(s, v)], [(e, w)] and the old ones outside the
    closed window. *)
Theorem set_interval_spec (ts : TS) (s e : T) (v : value) :
  wf ts -> is_floating ts = false -> tlt s e = true ->
  length (keys_upto s e (items ts)) <= 1 ->
  exists r w, set_interval ts s e v false = Ok r /\ wf r /\
    _default r = _default ts /\
    (forall x, In x (items r) <->
       x = (s, v) \/ x = (e, w) \/
       (In x (items ts) /\
        (tlt (fst x) s = true \/ tlt e (fst x) = true))) /\
    (exists t0, tle s t0 = true /\ tlt t0 e = true /\
       forall t, tle t0 t = true -> tlt t e = true -> get ts t = Ok w) /\
    (has_key (_d ts) e = false -> get ts e = Ok w) /\
    (forall t, tle s t = true -> tlt t e = true -> get r t = Ok v) /\
    (forall t, tle e t = true ->
       (forall x, In x (items ts) -> tlt e (fst x) = true ->
                  tlt t (fst x) = true) ->
       get r t = Ok w) /\
    (forall t x, In x (items ts) -> tlt e (fst x) = true ->
       tle (fst x) t = true -> get r t = get ts t) /\
    (forall t, tlt t s = true ->
       (exists x, In x (items ts) /\ tle (fst x) t = true) \/
       (exists dv, _default ts = Explicit dv) ->
       get r t = get ts t).
Proof.
  intros W NF L One.
  destruct (set_interval_result ts s e v W NF L One)
    as (ps & p & _ & C & F & Ip & Ep & R).
  clear One.
  set (w := snd p) in *.
  rewrite Forall_forall in F.
  destruct (chained_bounds ps _ _ C) as [_ Bd].
  destruct (Bd p Ip) as (B1 & B2 & _). rewrite Ep in B2.
  assert (Const : forall t, tlt t (fst (fst p)) = false ->
                            tlt t e = true -> get ts t = Ok w).
  { intros t L0 L1. apply (F p Ip); trivial. now rewrite Ep. }
  clear Ep Bd F C Ip.
  set (d' := setitem (discard_all (setitem (_d ts) s v)
                                  (keys_between s e (_d ts))) e w) in *.
  assert (S2 : sorted_keys (discard_all (setitem (_d ts) s v)
                                        (keys_between s e (_d ts))) = true)
    by (apply discard_all_sorted; now apply setitem_sorted).
  assert (W' : wf (with_d ts d')) by (apply setitem_sorted; exact S2).
  assert (M : forall x, In x d' <->
     x = (s, v) \/ x = (e, w) \/
     (In x (_d ts) /\ (tlt (fst x) s = true \/ tlt e (fst x) = true))).
  { intros x. unfold d'. rewrite setitem_In by exact S2.
    rewrite discard_all_In, setitem_In by exact W.
    unfold keys_between. rewrite filter_In, in_keys. split.
    - intros [E|[[[E|[I N1]] N2] N3]]; auto.
      right. right. split; trivial.
      destruct (tlt (fst x) s) eqn:A; [auto|right].
      destruct (tlt e (fst x)) eqn:B; trivial. exfalso. apply N2. split.
      + exists (snd x). now destruct x.
      + apply andb_true_iff. split; torder.
    - intros [E|[E|[I D]]]; auto.
      + subst x. right. cbn [fst]. split; [|torder]. split; auto.
        intros [_ B]. apply andb_true_iff in B. destruct B as [B _].
        rewrite tlt_irrefl in B. discriminate.
      + right. split; [|destruct D; torder]. split.
        * right. split; trivial. destruct D; torder.
        * intros [_ B]. apply andb_true_iff in B. destruct B as [Q1 Q2].
          destruct D; torder. }
  exists (with_d ts d'), w. split; [exact R|]. split; [exact W'|].
  split; [reflexivity|]. unfold items. cbn [_d with_d].
  split; [exact M|]. split; [|split; [|split; [|split; [|split]]]].
  - exists (fst (fst p)). unfold tle. rewrite B1. split; trivial.
    split; trivial. intros t L0 L1. apply Const; trivial. torder.
  - intros Hk. rewrite get_floor by exact W.
    destruct (floor (_d ts) e) as [kv|] eqn:Fl.
    + pose proof (floor_In _ _ _ Fl) as Ik.
      pose proof (floor_le _ _ _ Fl) as Lk.
      assert (Lke : tlt (fst kv) e = true).
      { destruct (tlt (fst kv) e) eqn:A; trivial. exfalso.
        assert (E : fst kv = e) by torder.
        assert (Hk' : has_key (_d ts) e = true).
        { apply has_key_In. exists (snd kv). rewrite <- E. now destruct kv. }
        congruence. }
      destruct (tlt (fst kv) (fst (fst p))) eqn:A.
      * rewrite <- (Const (fst (fst p)) (tlt_irrefl _) B2).
        rewrite get_floor by exact W.
        rewrite <- (floor_same (_d ts) (fst (fst p)) e), Fl; trivial.
        -- torder.
        -- intros x I Lx. destruct (tlt e (fst x)) eqn:Q; trivial.
           pose proof (floor_greatest _ _ _ W Fl x I Q). exfalso. torder.
      * rewrite <- (Const (fst kv) A Lke).
        symmetry. apply get_at_key; trivial. now destruct kv.
    + rewrite <- (Const (fst (fst p)) (tlt_irrefl _) B2).
      rewrite get_floor by exact W. rewrite floor_above; trivial.
      intros x I. pose proof (floor_None _ _ W Fl x I). torder.
  - intros t L0 L1. rewrite get_floor by exact W'. cbn [_d with_d].
    rewrite (floor_intro d' t (s, v)); trivial.
    + apply M. auto.
    + cbn [fst]. torder.
    + intros x I Lx. apply M in I. cbn [fst].
      destruct I as [->|[->|[I D]]]; cbn [fst] in *;
        [apply tlt_irrefl|exfalso; torder|].
      destruct D; [torder|exfalso; torder].
  - intros t L0 N. rewrite get_floor by exact W'. cbn [_d with_d].
    rewrite (floor_intro d' t (e, w)); trivial.
    + apply M. auto.
    + cbn [fst]. torder.
    + intros x I Lx. apply M in I. cbn [fst].
      destruct I as [->|[->|[I D]]]; cbn [fst] in *;
        [torder|apply tlt_irrefl|].
      destruct D as [D|D]; [torder|].
      rewrite (N x I D) in Lx. discriminate.
  - intros t x I Lx Lt. rewrite !get_floor by trivial. cbn [_d with_d].
    destruct (floor (_d ts) t) as [kv|] eqn:Fl.
    + pose proof (floor_greatest _ _ _ W Fl x I) as G.
      assert (Lk : tlt e (fst kv) = true).
      { assert (tlt (fst kv) (fst x) = false) by (apply G; torder). torder. }
      rewrite (floor_intro d' t kv); trivial.
      * apply M. right. right. split; [eapply floor_In; eauto|auto].
      * eapply floor_le; eauto.
      * intros y J Ly. apply M in J.
        destruct J as [->|[->|[J _]]]; cbn [fst] in *; [torder|torder|].
        now apply (floor_greatest _ _ _ W Fl).
    + pose proof (floor_None _ _ W Fl x I). exfalso. torder.
  - intros t Lt Hyp. rewrite !get_floor by trivial. cbn [_d with_d].
    assert (Fe : floor d' t = floor (_d ts) t).
    { apply floor_ext; trivial. intros x Lx. rewrite M. split.
      - intros [->|[->|[I _]]]; cbn [fst] in *; trivial; exfalso; torder.
      - intros I. right. right. split; trivial. left. torder. }
    rewrite Fe. destruct (floor (_d ts) t) as [kv|] eqn:Fl; trivial.
    destruct Hyp as [(x & I & Lx)|(dv & D)].
    + pose proof (floor_None _ _ W Fl x I). exfalso. torder.
    + unfold default, is_floating. cbn [_default with_d]. now rewrite D.
Qed.

End IntervalWrite.

(** ** What the merge computes *)

Section MergeSemantics.
Context {T : Type} `{TimeType T}.

Local Abbreviation TS := (TimeSeries T).
Local Abbreviation queue_t := (list (entry T)).
Local Abbreviation yield := (T * nat * list value)%type.

Lemma list_set_nth (state : list value) (i : nat) (v : value)
      (state' : list value) :
  list_set state i v = Ok state' ->
  length state' = length state /\ nth i state' VNone = v /\
  forall j, j <> i -> nth j state' VNone = nth j state VNone.
Proof.
  revert i state'. induction state as [|x state IH]; intros i state' E.
  - discriminate.
  - destruct i as [|i]; simpl in E.
    + inversion E; subst. repeat split. intros [|j] N; [congruence|trivial].
    + destruct (list_set state i v) as [s2|] eqn:E2; [|discriminate].
      simpl in E. inversion E; subst.
      destruct (IH i s2 E2) as (L & V & O). simpl.
      repeat split; [now rewrite L|exact V|].
      intros [|j] N; trivial. apply O. congruence.
Qed.

Lemma pending_put (e : entry T) (q : queue_t) (ev : T * nat * value) :
  In ev (pending (queue_put e q)) <-> In ev (entry_events e) \/ In ev (pending q).
Proof.
  unfold pending. induction q as [|x q IH].
  - cbn [queue_put flat_map In]. rewrite app_nil_r. tauto.
  - cbn [queue_put]. destruct (entry_lt e x); cbn [flat_map];
      rewrite !in_app_iff.
    + tauto.
    + rewrite IH. tauto.
Qed.

Lemma pending_next (e : entry T) (q : queue_t) (ev : T * nat * value) :
  In ev (pending (e :: q)) <->
  ev = (e_t e, e_index e, e_value e) \/ In ev (pending (next_queue e q)).
Proof.
  unfold next_queue. destruct (e_iterator e) as [|[t v] it] eqn:E.
  - unfold pending at 1. simpl. rewrite in_app_iff. unfold entry_events.
    rewrite E. simpl. intuition.
  - rewrite pending_put. unfold pending at 1. simpl. rewrite in_app_iff.
    unfold entry_events. rewrite E. simpl. intuition.
Qed.

(** The loop of [_iter_merge] reports every pending measurement, and
    each yield differs from the state before it at its own index only. *)
Lemma merge_loop_trace (n : nat) (q : queue_t) (state : list value) :
  Forall (entry_ok n) q -> NoDup (map e_index q) ->
  lex_ascending (map entry_key q) -> length state = n ->
  exists ys, merge_loop q state = (ys, Exhausted) /\
    (forall ev, In ev (map event_of ys) <-> In ev (pending q)) /\
    scan state ys.
Proof.
  revert n.
  apply (merge_loop_elim (fun q state r => forall n,
    Forall (entry_ok n) q -> NoDup (map e_index q) ->
    lex_ascending (map entry_key q) -> length state = n ->
    exists ys, r = (ys, Exhausted) /\
      (forall ev, In ev (map event_of ys) <-> In ev (pending q)) /\
      scan state ys)).
  - intros st n _ _ _ _. exists []. simpl. tauto.
  - intros e q' st st' IH Hset n F N A L.
    destruct (next_queue_ok n e q' F N A) as (F' & N' & A' & _).
    destruct (list_set_nth _ _ _ _ Hset) as (L' & V & O).
    destruct (IH n F' N' A') as (ys & -> & Ev & Sc); [congruence|].
    exists ((e_t e, e_index e, st') :: ys). unfold push_yield.
    split; [reflexivity|]. split.
    + intros ev. rewrite pending_next, <- Ev. cbn [map In].
      unfold event_of at 1. cbn [fst snd]. rewrite V. intuition.
    + cbn [scan fst snd]. auto.
  - intros e q' st x Hset n F _ _ L. exfalso.
    inversion F as [|? ? [_ Ie] _]; subst.
    destruct (list_set_ok st (e_index e) (e_value e) Ie) as (s2 & E2 & _).
    congruence.
Qed.

Lemma seed_pending (l : list TS) :
  forall i q ev,
    In ev (pending (seed_queue i l q)) <->
    In ev (pending q) \/
    exists j ts, nth_error l j = Some ts /\
                 In (fst (fst ev), snd ev) (items ts) /\
                 snd (fst ev) = i + j.
Proof.
  induction l as [|ts l IH]; intros i q ev.
  - simpl. split; [auto|]. intros [I|(j & ts & E & _)]; trivial.
    now destruct j.
  - cbn [seed_queue]. rewrite IH.
    assert (Q : In ev (pending (match items ts with
                                | [] => q
                                | (t, v) :: it =>
                                    queue_put (mkEntry t i v it) q
                                end)) <->
                In ev (pending q) \/
                (In (fst (fst ev), snd ev) (items ts) /\ snd (fst ev) = i)).
    { destruct (items ts) as [|[t v] it].
      - simpl. tauto.
      - rewrite pending_put. unfold entry_events.
        cbn [e_t e_value e_iterator e_index]. rewrite in_map_iff.
        destruct ev as [[k j] w]. cbn [fst snd]. split.
        + intros [(kv & E & I)|I]; auto. inversion E; subst.
          right. split; trivial. now destruct kv.
        + intros [I|[I ->]]; auto. left. exists (k, w). auto. }
    rewrite Q. split.
    + intros [[I|[I E]]|(j & ts' & E & I & Ei)]; auto.
      * right. exists 0, ts. rewrite Nat.add_0_r. auto.
      * right. exists (S j), ts'. split; trivial. split; trivial. lia.
    + intros [I|(j & ts' & E & I & Ei)]; auto. destruct j as [|j].
      * simpl in E. inversion E; subst ts'. rewrite Nat.add_0_r in Ei. auto.
      * right. exists j, ts'. simpl in E. split; trivial. split; trivial. lia.
Qed.

Lemma defaults_nth (l : list TS) :
  forall st j ts,
    defaults l = Ok st -> nth_error l j = Some ts ->
    default ts = Ok (nth j st VNone).
Proof.
  induction l as [|ts0 l IH]; intros st j ts D E; [now destruct j|].
  simpl in D. destruct (default ts0) as [d0|] eqn:D0; [|discriminate].
  simpl in D. destruct (defaults l) as [ds|] eqn:Dl; [|discriminate].
  simpl in D. inversion D; subst st. destruct j as [|j]; simpl in *.
  - now inversion E; subst.
  - now apply IH.
Qed.

Lemma scan_length (ys : list yield) :
  forall state y, scan state ys -> In y ys -> length (snd y) = length state.
Proof.
  induction ys as [|z ys IH]; intros state y Sc I; [destruct I|].
  destruct Sc as (L & _ & Sc). destruct I as [<-|I]; trivial.
  rewrite <- L. now apply IH.
Qed.

Lemma scan_prefix (ys1 ys2 : list yield) :
  forall state, scan state (ys1 ++ ys2) -> scan state ys1.
Proof.
  induction ys1 as [|z ys1 IH]; intros state Sc; [exact I|].
  destruct Sc as (L & O & Sc). simpl. auto.
Qed.

(** The state of a yield at index [j] is the one it started from, or
    the one of the latest yield of series [j] so far. *)
Lemma scan_last (ys1 : list yield) (y : yield) (j : nat) :
  forall state, scan state (ys1 ++ [y]) ->
    (nth j (snd y) VNone = nth j state VNone /\
     forall z, In z (ys1 ++ [y]) -> snd (fst z) <> j) \/
    (exists a y' b, ys1 ++ [y] = a ++ y' :: b /\ snd (fst y') = j /\
                    (forall z, In z b -> snd (fst z) <> j) /\
                    nth j (snd y) VNone = nth j (snd y') VNone).
Proof.
  induction ys1 as [|z ys1 IH]; intros state Sc.
  - destruct Sc as (_ & O & _). simpl.
    destruct (Nat.eq_dec (snd (fst y)) j) as [E|N].
    + right. exists [], y, []. simpl. repeat split; trivial. intros ? [].
    + left. split; [apply O; congruence|]. intros z [<-|[]]. exact N.
  - destruct Sc as (_ & O & Sc).
    destruct (IH _ Sc) as [[E No]|(a & y' & b & E & Ej & No & En)].
    + destruct (Nat.eq_dec (snd (fst z)) j) as [Ez|N].
      * right. exists [], z, (ys1 ++ [y]). simpl. auto.
      * left. split; [rewrite E; apply O; congruence|].
        intros z' [<-|I]; auto.
    + right. exists (z :: a), y', b. simpl. rewrite E. auto.
Qed.

Lemma lex_before (l1 l2 : list yield) :
  lex_ascending (map yield_key (l1 ++ l2)) ->
  forall x y, In x l1 -> In y l2 -> key_lt (yield_key x) (yield_key y).
Proof.
  induction l1 as [|a l1 IH]; intros A x y Ix Iy; [destruct Ix|].
  simpl in A. destruct A as [Aa A]. destruct Ix as [<-|Ix].
  - apply Aa. apply in_map. apply in_app_iff. auto.
  - now apply IH.
Qed.

(** At the last yield of a time [t], the state holds the value of
    every series at [t]. *)
Lemma trace_value (ys1 ys2 : list yield) (y : yield) (state0 : list value)
      (ts : TS) (j : nat) :
  lex_ascending (map yield_key (ys1 ++ y :: ys2)) ->
  scan state0 (ys1 ++ y :: ys2) ->
  wf ts -> default ts = Ok (nth j state0 VNone) ->
  (forall k v, In (k, j, v) (map event_of (ys1 ++ y :: ys2))
               <-> In (k, v) (items ts)) ->
  (forall z, In z ys2 -> tlt (fst (fst y)) (fst (fst z)) = true) ->
  get ts (fst (fst y)) = Ok (nth j (snd y) VNone).
Proof.
  intros A Sc W D Ev Last. set (t := fst (fst y)) in *.
  assert (Split : ys1 ++ y :: ys2 = (ys1 ++ [y]) ++ ys2)
    by now rewrite <- app_assoc.
  assert (Sc1 : scan state0 (ys1 ++ [y]))
    by (apply (scan_prefix _ ys2); now rewrite <- Split).
  assert (Here : forall z, In z (ys1 ++ [y]) -> tlt t (fst (fst z)) = false).
  { intros z I. apply in_app_iff in I. destruct I as [I|[<-|[]]].
    - apply key_lt_nondecreasing.
      apply (lex_before ys1 (y :: ys2) A); simpl; auto.
    - apply tlt_irrefl. }
  assert (Ev' : forall k v, In (k, v) (items ts) ->
            exists z, In z (ys1 ++ y :: ys2) /\ fst (fst z) = k /\
                      snd (fst z) = j).
  { intros k v I. apply Ev in I. apply in_map_iff in I.
    destruct I as (z & E & I). exists z. split; trivial.
    unfold event_of in E. inversion E. auto. }
  rewrite get_floor by exact W.
  destruct (scan_last ys1 y j state0 Sc1)
    as [[E No]|(a & y' & b & E & Ej & No & En)].
  - rewrite floor_above.
    + now rewrite E.
    + intros [k v] I. destruct (Ev' k v I) as (z & Iz & <- & Ez).
      rewrite Split in Iz. apply in_app_iff in Iz. destruct Iz as [Iz|Iz].
      * elim (No z Iz Ez).
      * simpl. now apply Last.
  - assert (Iy' : In (fst (fst y'), nth j (snd y') VNone) (items ts)).
    { apply Ev. apply in_map_iff. exists y'. unfold event_of.
      rewrite Ej. split; trivial. rewrite Split, E.
      apply in_app_iff. left. apply in_app_iff. simpl. auto. }
    rewrite (floor_intro (_d ts) t (fst (fst y'), nth j (snd y') VNone));
      trivial.
    + simpl. now rewrite En.
    + simpl. apply Here. rewrite E. apply in_app_iff. simpl. auto.
    + intros [k v] I Lk. simpl in *.
      destruct (Ev' k v I) as (z & Iz & <- & Ez).
      rewrite Split, E in Iz. rewrite Split, E in A.
      apply in_app_iff in Iz. destruct Iz as [Iz|Iz].
      * apply in_app_iff in Iz. destruct Iz as [Iz|[<-|Iz]].
        -- apply key_lt_nondecreasing. rewrite <- app_assoc in A.
           apply (lex_before a (y' :: b ++ ys2) A); simpl; auto.
        -- apply tlt_irrefl.
        -- elim (No z Iz Ez).
      * rewrite (Last z Iz) in Lk. discriminate.
Qed.

Lemma set_cases (res : TS) (k : T) (v : value) (c : bool) :
  wf res ->
  exists res', set res k v c = Ok res' /\
    (res' = with_d res (setitem (_d res) k v) \/
     (c = true /\ res' = res /\ _d res <> [] /\
      exists cur, get res k = Ok cur /\ py_eq cur v = true)).
Proof.
  intros W. unfold set. destruct (Nat.eqb (len res) 0) eqn:E; [eauto|].
  destruct c; cbn [negb]; [|eauto].
  apply Nat.eqb_neq in E.
  destruct (get_ok res k W (nonempty_not_floating res E)) as [cur G].
  rewrite G. cbn [bind andb]. unfold py_ne.
  destruct (py_eq cur v) eqn:Q; cbn [negb]; [|eauto].
  exists res. split; trivial. right. repeat split; eauto.
  intros N. apply E. unfold len. now rewrite N.
Qed.

Lemma ascending_app (l1 l2 : list T) (x : T) :
  ascending (l1 ++ x :: l2) -> forall y, In y l1 -> tlt y x = true.
Proof.
  induction l1 as [|a l1 IH]; intros A y I; [destruct I|].
  simpl in A. destruct A as [Aa A]. destruct I as [<-|I].
  - apply Aa. apply in_app_iff. simpl. auto.
  - now apply IH.
Qed.

(** One more write of [merge] keeps what was written. *)
Lemma written_step (c : bool) (op : option (list value -> value)) (res : TS)
      (done : list (T * list value)) (k : T) (st : list value) :
  ascending (map fst (done ++ [(k, st)])) ->
  written c op res done ->
  exists res', set res k (merged_value op st) c = Ok res' /\
               written c op res' (done ++ [(k, st)]).
Proof.
  intros A (W & Ks & First & All & Get).
  set (v := merged_value op st).
  assert (Old : forall y, In y done -> tlt (fst y) k = true).
  { intros y I. rewrite map_app in A. simpl in A.
    apply (ascending_app _ _ _ A). now apply in_map. }
  assert (Below : forall x, In x (_d res) -> tlt (fst x) k = true).
  { intros x I. specialize (Ks x I). apply in_map_iff in Ks.
    destruct Ks as (y & <- & Iy). now apply Old. }
  assert (Pick : forall y, In y (done ++ [(k, st)]) ->
                           In y done \/ y = (k, st)).
  { intros y I. apply in_app_iff in I. simpl in I. intuition. }
  assert (Lead : forall t y, In y done -> tlt t (fst y) = false ->
                 exists x, In x (_d res) /\ tlt t (fst x) = false).
  { intros t y I L. destruct done as [|y0 rest]; [destruct I|].
    pose proof (First y0 rest eq_refl) as K0. apply in_keys in K0.
    destruct K0 as [w K0]. exists (fst y0, w). split; trivial. simpl.
    destruct I as [<-|I]; trivial.
    simpl in A. destruct A as [A0 _].
    assert (tlt (fst y0) (fst y) = true).
    { apply A0. apply in_map. apply in_app_iff. auto. }
    torder. }
  destruct (set_cases res k v c W)
    as (res' & R & [->|(Ec & -> & Ne & cur & G & Q)]).
  - exists (with_d res (setitem (_d res) k v)). split; [exact R|].
    destruct (setitem_get res k v W) as (W1 & G1 & G2 & _).
    split; [exact W1|]. cbn [_d with_d].
    split; [|split; [|split]].
    + intros x I. apply setitem_In in I; trivial. rewrite map_app.
      apply in_app_iff. destruct I as [->|[I _]]; [simpl; auto|auto].
    + intros y rest E. apply in_keys. destruct done as [|y0 rest0].
      * simpl in E. inversion E; subst. exists v. apply setitem_In; auto.
      * simpl in E. inversion E; subst.
        pose proof (First y rest0 eq_refl) as K0. apply in_keys in K0.
        destruct K0 as [w K0]. exists w. apply setitem_In; trivial.
        right. split; trivial. simpl.
        pose proof (Old y (or_introl eq_refl)). torder.
    + intros Ec y I. apply in_keys. destruct (Pick y I) as [J| ->].
      * pose proof (All Ec y J) as K0. apply in_keys in K0.
        destruct K0 as [w K0]. exists w. apply setitem_In; trivial.
        right. split; trivial. simpl. pose proof (Old y J). torder.
      * exists v. apply setitem_In; auto.
    + intros t y I L Max. destruct (tlt t k) eqn:Lk.
      * destruct (Pick y I) as [J| ->]; [|simpl in L; congruence].
        destruct (Lead t y J L) as (x & Ix & Lx).
        rewrite (G2 t x Ix Lx (or_introl Lk)).
        apply (Get t y J L). intros y' J' L'. apply Max; trivial.
        apply in_app_iff. auto.
      * assert (E : y = (k, st)).
        { destruct (Pick y I) as [J|E]; trivial.
          assert (tlt (fst y) k = false).
          { apply (Max (k, st)); trivial. apply in_app_iff. simpl. auto. }
          rewrite (Old y J) in *. discriminate. }
        subst y. exists v. split; [|apply py_eq_refl].
        apply G1; trivial. intros x Ix Lx.
        rewrite (tlt_asym _ _ (Below x Ix)) in Lx. discriminate.
  - exists res. split; [exact R|]. split; [exact W|].
    assert (Nd : done <> []).
    { intros ->. destruct (_d res) as [|x d]; [congruence|].
      elim (Ks x (or_introl eq_refl)). }
    split; [|split; [|split]].
    + intros x I. rewrite map_app. apply in_app_iff. auto.
    + intros y rest E. destruct done as [|y0 rest0]; [congruence|].
      simpl in E. inversion E; subst. now apply (First y rest0).
    + congruence.
    + intros t y I L Max. destruct (tlt t k) eqn:Lk.
      * destruct (Pick y I) as [J| ->]; [|simpl in L; congruence].
        apply (Get t y J L). intros y' J' L'. apply Max; trivial.
        apply in_app_iff. auto.
      * assert (E : y = (k, st)).
        { destruct (Pick y I) as [J|E]; trivial.
          assert (tlt (fst y) k = false).
          { apply (Max (k, st)); trivial. apply in_app_iff. simpl. auto. }
          rewrite (Old y J) in *. discriminate. }
        subst y. exists cur. split; [|exact Q]. rewrite <- G.
        rewrite !get_floor by trivial.
        rewrite (floor_same (_d res) k t); trivial.
        intros x Ix Lx.
        rewrite (tlt_asym _ _ (Below x Ix)) in Lx. discriminate.
Qed.

Lemma merge_writes_written (c : bool) (op : option (list value -> value))
      (out : list (T * list value)) :
  forall done res,
    ascending (map fst (done ++ out)) ->
    written c op res done ->
    exists r, merge_writes c op out res = Ok r /\
              written c op r (done ++ out).
Proof.
  induction out as [|[k st] out IH]; intros done res A Wr.
  - exists res. rewrite app_nil_r. auto.
  - assert (A1 : ascending (map fst (done ++ [(k, st)]))).
    { clear - A. induction done as [|y done IHd]; simpl in *.
      - split; [intros ? []|exact I].
      - destruct A as [A0 A]. split; [|auto].
        intros z Iz. apply A0. rewrite map_app in *. simpl.
        apply in_app_iff in Iz. apply in_app_iff. simpl in *. intuition. }
    destruct (written_step c op res done k st A1 Wr) as (res' & R & Wr').
    cbn [merge_writes]. fold (merged_value op st). rewrite R. cbn [bind].
    replace (done ++ (k, st) :: out) with ((done ++ [(k, st)]) ++ out)
      by now rewrite <- app_assoc.
    apply IH; trivial. now rewrite <- app_assoc.
Qed.

(** Among the yields at or before [t] there is a latest one. *)
Lemma latest_yield (out : list (T * list value)) (t : T) :
  (forall y, In y out -> tlt t (fst y) = true) \/
  exists y, In y out /\ tlt t (fst y) = false /\
    forall y', In y' out -> tlt t (fst y') = false ->
               tlt (fst y) (fst y') = false.
Proof.
  induction out as [|a out IH]; [left; intros ? []|].
  destruct (tlt t (fst a)) eqn:La.
  - destruct IH as [No|(y & I & L & Max)].
    + left. intros y [<-|I]; auto.
    + right. exists y. split; [now right|]. split; trivial.
      intros y' [<-|I'] L'; [congruence|auto].
  - right. destruct IH as [No|(y & I & L & Max)].
    + exists a. split; [now left|]. split; trivial.
      intros y' [<-|I'] L'; [apply tlt_irrefl|].
      rewrite (No y' I') in L'. discriminate.
    + destruct (tlt (fst y) (fst a)) eqn:C.
      * exists a. split; [now left|]. split; trivial.
        intros y' [<-|I'] L'; [apply tlt_irrefl|].
        pose proof (Max y' I' L'). torder.
      * exists y. split; [now right|]. split; trivial.
        intros y' [<-|I'] L'; auto.
Qed.

Lemma nth_map_ext {A : Type} (f : A -> value) (l : list A) :
  forall st, length st = length l ->
    (forall j x, nth_error l j = Some x -> nth j st VNone = f x) ->
    st = map f l.
Proof.
  induction l as [|a l IH]; intros [|v st] L N; simpl in L; try lia; trivial.
  simpl. f_equal.
  - apply (N 0 a eq_refl).
  - apply IH; [lia|]. intros j x E. apply (N (S j) x E).
Qed.

(** The yields of [iter_merge], for sorted series that all have a
    value: its times are the measurement times of the series, and each
    yield carries the values of all the series at its time. *)
Lemma iter_merge_values (l : list TS) :
  l <> [] -> Forall wf l -> Forall (fun ts => is_floating ts = false) l ->
  exists out, iter_merge l = (out, Exhausted) /\
    ascending (map fst out) /\
    (forall k, In k (map fst out) <->
               exists ts, In ts l /\ In k (keys (items ts))) /\
    (forall y, In y out ->
               snd y = map (fun ts => value_at ts (fst y)) l).
Proof.
  intros Ne W NF.
  destruct (defaults_ok l NF) as (state0 & D & Ls).
  destruct (seed_queue_ok (length l) l W 0 [] (le_n _) (Forall_nil _)
              (NoDup_nil _) I (fun x (i : In x []) => match i with end))
    as (F & N & A).
  destruct (merge_loop_order (length l) (seed_queue 0 l []) state0 F N A Ls)
    as (ys & R & O & _).
  destruct (merge_loop_trace (length l) (seed_queue 0 l []) state0 F N A Ls)
    as (ys' & R' & Ev & Sc).
  rewrite R in R'. inversion R'; subst ys'. clear R'.
  set (drop := fun y : yield => (fst (fst y), snd y)).
  assert (RM : _iter_merge l = (map drop ys, Exhausted)).
  { unfold _iter_merge, _iter_merge_indexed. now rewrite D, R. }
  assert (ND : nondecreasing (map fst (map drop ys))).
  { rewrite map_map. unfold drop. cbn [fst].
    replace (map (fun y : yield => fst (fst y)) ys)
      with (map fst (map yield_key ys))
      by (rewrite map_map; reflexivity).
    now apply lex_ascending_nondecreasing. }
  destruct (collapse_ties_spec _ None ND) as (out & C & Asc & M & G).
  cbn beta iota in M, G.
  assert (Evs : forall k j v,
            In (k, j, v) (map event_of ys) <->
            exists ts, nth_error l j = Some ts /\ In (k, v) (items ts)).
  { intros k j v. rewrite Ev, seed_pending. cbn [fst snd]. split.
    - intros [[]|(j' & ts & E & Ik & Ej)]. simpl in Ej. subst j'. eauto.
    - intros (ts & E & Ik). right. exists j, ts. auto. }
  exists out. split; [|split; [exact Asc|split]].
  - unfold iter_merge. destruct l as [|ts l']; [congruence|].
    rewrite existsb_floating by exact NF. rewrite RM. exact C.
  - intros k. rewrite M. rewrite map_map. unfold drop. cbn [fst]. split.
    + intros I0. apply in_map_iff in I0. destruct I0 as (y & <- & Iy).
      assert (Iev : In (event_of y) (map event_of ys)) by now apply in_map.
      unfold event_of in Iev. apply Evs in Iev.
      destruct Iev as (ts & E & Ik). exists ts. split.
      * eapply nth_error_In; eauto.
      * apply in_keys. eauto.
    + intros (ts & Its & Ik). apply in_keys in Ik. destruct Ik as [v Ik].
      destruct (In_nth_error _ _ Its) as [j E].
      assert (Iev : In (k, j, v) (map event_of ys)) by (apply Evs; eauto).
      apply in_map_iff in Iev. destruct Iev as (y & Ey & Iy).
      apply in_map_iff. exists y. split; trivial.
      unfold event_of in Ey. now inversion Ey.
  - intros [t st] Iy. cbn [fst snd].
    destruct (G t st Iy) as (l1 & l2 & E & Far).
    apply map_eq_app in E. destruct E as (ys1 & ys2' & -> & E1 & E2).
    apply map_eq_cons in E2. destruct E2 as (y & ys2 & -> & Ey & E2).
    unfold drop in Ey. inversion Ey as [[Et Est]].
    assert (Last : forall z, In z ys2 ->
                             tlt (fst (fst y)) (fst (fst z)) = true).
    { intros z Iz.
      assert (K : key_lt (yield_key y) (yield_key z)).
      { apply (lex_before (ys1 ++ [y]) ys2).
        - now rewrite <- app_assoc.
        - apply in_app_iff. simpl. auto.
        - exact Iz. }
      apply key_lt_nondecreasing in K. unfold yield_key in K.
      assert (Nz : fst (drop z) <> t).
      { apply Far. rewrite <- E2. now apply in_map. }
      unfold drop in Nz. cbn [fst] in Nz. rewrite Et.
      destruct (tlt t (fst (fst z))) eqn:Q; trivial. exfalso.
      rewrite Et in K. apply Nz. torder. }
    apply nth_map_ext.
    + rewrite <- Ls. apply (scan_length _ state0 y Sc).
      apply in_app_iff. simpl. auto.
    + intros j ts E.
      assert (Wts : wf ts).
      { rewrite Forall_forall in W. apply W. eapply nth_error_In; eauto. }
      assert (NFts : is_floating ts = false).
      { rewrite Forall_forall in NF. apply NF. eapply nth_error_In; eauto. }
      pose proof (trace_value ys1 ys2 y state0 ts j O Sc Wts
                    (defaults_nth l state0 j ts D E)) as TV.
      unfold value_at. rewrite TV; trivial.
      intros k v. rewrite Evs. split.
      * intros (ts' & E' & Ik). congruence.
      * intros Ik. eauto.
Qed.

(** [merge(ts_list, compact, operation, default)] on sorted series that
    all have a value.  The measurement times of the result are
    measurement times of the series (all of them without [compact]);
    and at every time that has a measurement of some series at or
    before it, the result reads a value [==] to the operation applied
    to the list of the values of all the series at that time (the list
    itself when no operation is given).  When no default is given the
    defaults of the series must be hashable. *)
Theorem merge_pointwise (l : list TS) (c : bool)
        (op : option (list value -> value)) (dflt : option Default) :
  l <> [] -> Forall wf l -> Forall (fun ts => is_floating ts = false) l ->
  (dflt = None -> Forall (fun ts => default_hashable (_default ts) = true) l) ->
  exists r, merge l c op dflt = Ok r /\ wf r /\
    (forall k, In k (keys (items r)) ->
               exists ts, In ts l /\ In k (keys (items ts))) /\
    (c = false -> forall ts k, In ts l -> In k (keys (items ts)) ->
                  In k (keys (items r))) /\
    (forall t ts k, In ts l -> In k (keys (items ts)) -> tle k t = true ->
       exists cur, get r t = Ok cur /\
         py_eq cur (merged_value op (map (fun ts' => value_at ts' t) l))
         = true).
Proof.
  intros Ne W NF Hh.
  destruct (iter_merge_values l Ne W NF) as (out & R & Asc & Times & Vals).
  assert (D0 : exists d0, match dflt with
                          | Some d => Ok d
                          | None => merge_default l
                          end = Ok d0).
  { destruct dflt as [d|]; [eauto|]. unfold merge_default.
    replace (forallb (fun ts => default_hashable (_default ts)) l) with true.
    - destruct l as [|ts l']; [eauto|].
      destruct (forallb _ l'); eauto.
    - symmetry. apply forallb_forall. intros ts I.
      specialize (Hh eq_refl). rewrite Forall_forall in Hh. now apply Hh. }
  destruct D0 as [d0 D0].
  destruct (merge_writes_written c op out [] (mkTS [] d0)) as (r & Rw & Wr).
  { exact Asc. }
  { unfold written. cbn [_d]. split; [reflexivity|].
    split; [intros x []|]. split; [discriminate|].
    split; intros; contradiction. }
  cbn [app] in Wr. destruct Wr as (Wr & Ks & _ & All & Get).
  exists r. split.
  - unfold merge. destruct l as [|ts l']; [congruence|].
    rewrite D0. cbn [bind]. rewrite R. cbn [fst snd]. rewrite Rw.
    reflexivity.
  - split; [exact Wr|]. unfold items. split; [|split].
    + intros k I. apply in_keys in I. destruct I as [v I].
      apply Times. apply (Ks _ I).
    + intros Ec ts k Its Ik.
      assert (Io : In k (map fst out)) by (apply Times; eauto).
      apply in_map_iff in Io. destruct Io as (y & <- & Iy).
      now apply All.
    + intros t ts k Its Ik L.
      assert (Io : In k (map fst out)) by (apply Times; eauto).
      apply in_map_iff in Io. destruct Io as (y0 & E0 & Iy0).
      destruct (latest_yield out t) as [No|(y & Iy & Ly & Max)].
      { specialize (No y0 Iy0). rewrite E0 in No. exfalso. torder. }
      destruct (Get t y Iy Ly Max) as (cur & G & Q).
      exists cur. split; trivial. rewrite (Vals y Iy) in Q.
      replace (map (fun ts' : TS => value_at ts' t) l)
        with (map (fun ts' : TS => value_at ts' (fst y)) l); trivial.
      apply map_ext_in. intros ts' Its'. symmetry.
      apply value_at_same; trivial.
      * rewrite Forall_forall in W. now apply W.
      * intros x Ix Lx. destruct (tlt t (fst x)) eqn:Q'; trivial. exfalso.
        assert (Ix' : In (fst x) (map fst out)).
        { apply Times. exists ts'. split; trivial. apply in_keys.
          exists (snd x). now destruct x. }
        apply in_map_iff in Ix'. destruct Ix' as (y' & E' & Iy').
        assert (tlt (fst y) (fst y') = false)
          by (apply Max; trivial; now rewrite E').
        rewrite E' in *. torder.
Qed.

End MergeSemantics.

(** ** The merge of a single series *)

Section SingletonMerge.
Context {T : Type} `{TimeType T}.

Local Abbreviation TS := (TimeSeries T).
Local Abbreviation dict := (list (T * value)).








(** [merge] without a [default] argument collects the defaults of the
    series in a set before anything else: when one of them is a list it
    raises [TypeError], whatever the series hold, floating ones
    included. *)
Theorem merge_unhashable_default (l : list TS) (c : bool)
        (op : option (list value -> value)) :
  Exists (fun ts => default_hashable (_default ts) = false) l ->
  merge l c op None = Raise TypeError.
Proof.
  intros E. unfold merge, merge_default.
  destruct l as [|ts l']; [inversion E|].
  replace (forallb (fun ts0 => default_hashable (_default ts0)) (ts :: l'))
    with false; [reflexivity|].
  symmetry. apply not_true_is_false. intros F.
  rewrite forallb_forall in F. apply Exists_exists in E.
  destruct E as (x & I & N). rewrite (F x I) in N. discriminate.
Qed.

End SingletonMerge.

(** ** Arithmetic on series of numbers, and the two ends of a series *)

Section ArithmeticFacts.
Context {T : Type} `{TimeType T}.

Local Abbreviation TS := (TimeSeries T).
Local Abbreviation dict := (list (T * value)).

Lemma numeric_value_at (ts : TS) (t : T) :
  wf ts -> is_floating ts = false -> numeric ts = true ->
  is_number (value_at ts t) = true.
Proof.
  intros W NF N. unfold numeric in N. apply andb_true_iff in N.
  destruct N as [Ni Nd]. rewrite forallb_forall in Ni.
  unfold value_at. rewrite get_floor by trivial.
  destruct (floor (_d ts) t) as [kv|] eqn:E.
  - apply Ni. unfold items. now apply floor_In in E.
  - destruct (default_ok ts NF) as (v & -> & M).
    destruct (_default ts) as [|dv].
    + destruct M as (k0 & rest & I).
      apply (Ni (k0, v)). rewrite I. now left.
    + now subst v.
Qed.

Lemma is_number_as (v : value) :
  is_number v = true -> exists n, as_number v = Some n.
Proof.
  unfold is_number. destruct (as_number v) as [n|]; [eauto|discriminate].
Qed.

(** The five element-wise operators on two numbers. *)
Lemma py_sub_numbers (x y : value) (p q : Z) :
  as_number x = Some p -> as_number y = Some q ->
  py_sub x y = Ok (VInt (p - q)).
Proof. unfold py_sub. now intros -> ->. Qed.

Lemma py_mul_numbers (x y : value) (p q : Z) :
  as_number x = Some p -> as_number y = Some q ->
  py_mul x y = Ok (VInt (p * q)).
Proof.
  destruct x, y; simpl; try discriminate; intros P Q;
    inversion P; inversion Q; reflexivity.
Qed.

Lemma truthy_number (x : value) (p : Z) :
  as_number x = Some p -> truthy x = negb (p =? 0)%Z.
Proof.
  destruct x as [|b|z|l]; simpl; try discriminate; intros P; inversion P.
  - now destruct b.
  - reflexivity.
Qed.

Lemma py_int_number (x : value) (p : Z) :
  as_number x = Some p -> py_int x = Ok (VInt p).
Proof.
  destruct x as [|b|z|l]; simpl; try discriminate; intros P; now inversion P.
Qed.

Lemma py_and_numbers (x y : value) (p q : Z) :
  as_number x = Some p -> as_number y = Some q ->
  py_int (py_and x y) = Ok (VInt (if (p =? 0)%Z then 0 else q)).
Proof.
  intros P Q. unfold py_and. rewrite (truthy_number x p P).
  destruct (p =? 0)%Z eqn:E; simpl.
  - apply Z.eqb_eq in E. subst p. now apply py_int_number.
  - now apply py_int_number.
Qed.

Lemma py_or_numbers (x y : value) (p q : Z) :
  as_number x = Some p -> as_number y = Some q ->
  py_int (py_or x y) = Ok (VInt (if (p =? 0)%Z then q else p)).
Proof.
  intros P Q. unfold py_or. rewrite (truthy_number x p P).
  destruct (p =? 0)%Z eqn:E; simpl; now apply py_int_number.
Qed.

(** [operation] between two series of numbers, for a function that
    does not raise on two numbers. *)
Lemma numeric_operation (self other : TS)
      (f : value -> value -> result value) (g : Z -> Z -> Z) :
  wf self -> wf other ->
  is_floating self = false -> is_floating other = false ->
  numeric self = true -> numeric other = true ->
  (forall x y p q, as_number x = Some p -> as_number y = Some q ->
                   f x y = Ok (VInt (g p q))) ->
  exists r, operation self (OtherSeries other) f [] EXTEND_BACK = Ok r /\
    forall t k p q,
      In k (keys (items self)) \/ In k (keys (items other)) ->
      tle k t = true ->
      as_number (value_at self t) = Some p ->
      as_number (value_at other t) = Some q ->
      get r t = Ok (VInt (g p q)).
Proof.
  intros Ws Wo Ns No Ms Mo Tot.
  set (G := fun x y =>
              match as_number x, as_number y with
              | Some p, Some q => VInt (g p q)
              | _, _ => VNone
              end).
  destruct (operation_series_run self other f G EXTEND_BACK Ws Wo Ns No)
    as (r & R & _ & _ & K & V).
  { intros t.
    destruct (is_number_as _ (numeric_value_at self t Ws Ns Ms)) as [p P].
    destruct (is_number_as _ (numeric_value_at other t Wo No Mo)) as [q Q].
    unfold G. rewrite P, Q. now apply Tot. }
  exists r. split; [exact R|]. intros t k p q I L P Q.
  apply K in I. apply in_keys in I. destruct I as [v I].
  destruct (V t (k, v) I L) as (a & b & Ga & Gb & Gr).
  rewrite Gr. unfold G.
  assert (Ea : value_at self t = a) by (unfold value_at; now rewrite Ga).
  assert (Eb : value_at other t = b) by (unfold value_at; now rewrite Gb).
  now rewrite <- Ea, <- Eb, P, Q.
Qed.

(** [difference], [multiply], [logical_and], [logical_or] and
    [logical_xor] of two series of numbers do not raise, and at every
    time that has a measurement of one of the two series at or before
    it each result reads the operator applied to the two numbers [p]
    and [q] that the series read at that time: [p - q], [p * q],
    [int(p and q)] (0 when [p] is 0, else [q]), [int(p or q)] ([q] when
    [p] is 0, else [p]) and [int(bool(p) ^ bool(q))]. *)
Theorem arithmetic_series (self other : TS) :
  wf self -> wf other ->
  is_floating self = false -> is_floating other = false ->
  numeric self = true -> numeric other = true ->
  exists d m a o x,
    difference self (OtherSeries other) = Ok d /\
    multiply self (OtherSeries other) = Ok m /\
    logical_and self (OtherSeries other) = Ok a /\
    logical_or self (OtherSeries other) = Ok o /\
    logical_xor self (OtherSeries other) = Ok x /\
    forall t k,
      In k (keys (items self)) \/ In k (keys (items other)) ->
      tle k t = true ->
      exists u v p q,
        get self t = Ok u /\ as_number u = Some p /\
        get other t = Ok v /\ as_number v = Some q /\
        get d t = Ok (VInt (p - q)) /\
        get m t = Ok (VInt (p * q)) /\
        get a t = Ok (VInt (if (p =? 0)%Z then 0 else q)) /\
        get o t = Ok (VInt (if (p =? 0)%Z then q else p)) /\
        get x t = Ok (VInt (Z.b2z (xorb (negb (p =? 0)%Z)
                                        (negb (q =? 0)%Z)))).
Proof.
  intros Ws Wo Ns No Ms Mo.
  destruct (numeric_operation self other py_sub Z.sub Ws Wo Ns No Ms Mo)
    as (d & Rd & Vd); [apply py_sub_numbers|].
  destruct (numeric_operation self other py_mul Z.mul Ws Wo Ns No Ms Mo)
    as (m & Rm & Vm); [apply py_mul_numbers|].
  destruct (numeric_operation self other (fun x y => py_int (py_and x y))
              (fun p q => if (p =? 0)%Z then 0%Z else q) Ws Wo Ns No Ms Mo)
    as (a & Ra & Va); [apply py_and_numbers|].
  destruct (numeric_operation self other (fun x y => py_int (py_or x y))
              (fun p q => if (p =? 0)%Z then q else p) Ws Wo Ns No Ms Mo)
    as (o & Ro & Vo); [apply py_or_numbers|].
  destruct (numeric_operation self other
              (fun x y => Ok (VInt (Z.b2z (xorb (truthy x) (truthy y)))))
              (fun p q => Z.b2z (xorb (negb (p =? 0)%Z) (negb (q =? 0)%Z)))
              Ws Wo Ns No Ms Mo)
    as (x & Rx & Vx).
  { intros u v p q P Q.
    now rewrite (truthy_number u p P), (truthy_number v q Q). }
  exists d, m, a, o, x. repeat (split; [assumption|]).
  intros t k I L.
  pose proof (numeric_value_at self t Ws Ns Ms) as Np.
  pose proof (numeric_value_at other t Wo No Mo) as Nq.
  destruct (is_number_as _ Np) as [p P].
  destruct (is_number_as _ Nq) as [q Q].
  exists (value_at self t), (value_at other t), p, q.
  split; [now apply get_value_at|]. split; [exact P|].
  split; [now apply get_value_at|]. split; [exact Q|].
  rewrite (Vd t k p q I L P Q), (Vm t k p q I L P Q), (Va t k p q I L P Q),
    (Vo t k p q I L P Q), (Vx t k p q I L P Q).
  repeat split; reflexivity.
Qed.

(** [threshold(c)] on recorded values that are numbers, with a number
    [c]: the measurement times are kept and each value becomes the
    boolean [value > c], or [value >= c] when [inclusive]. *)
Theorem threshold_spec (self : TS) (c : value) (n : Z) (inclusive : bool) :
  wf self -> as_number c = Some n ->
  forallb (fun kv => is_number (snd kv)) (items self) = true ->
  exists r, threshold self c inclusive = Ok r /\
    _default r = EXTEND_BACK /\
    keys (items r) = keys (items self) /\
    forall k v, In (k, v) (items self) ->
      exists p, as_number v = Some p /\
        In (k, VBool (if inclusive then (n <=? p)%Z else (n <? p)%Z))
           (items r).
Proof.
  intros W C N. rewrite forallb_forall in N.
  set (g := fun (x _ : value) =>
              match as_number x with
              | Some p => VBool (if inclusive then (n <=? p)%Z
                                 else (n <? p)%Z)
              | None => VNone
              end).
  assert (R : threshold self c inclusive
              = Ok (mkTS (map (fun kv => (fst kv, g (snd kv) c)) (items self))
                         EXTEND_BACK)).
  { unfold threshold, operation, TimeSeries_new, from_items.
    cbn [fold_left].
    apply (operation_constant_run _ g c EXTEND_BACK (items self) []);
      [|exact W].
    apply Forall_forall. intros kv I.
    destruct (is_number_as _ (N kv I)) as [p P]. unfold g. rewrite P.
    destruct (snd kv) as [|b|z|l]; simpl in P; try discriminate;
      simpl; rewrite C; simpl; inversion P; now destruct inclusive. }
  eexists. split; [exact R|]. split; [reflexivity|].
  unfold items at 1 3. cbn [_d]. split.
  - unfold keys. rewrite map_map. reflexivity.
  - intros k v I. destruct (is_number_as _ (N (k, v) I)) as [p P].
    exists p. split; [exact P|]. apply in_map_iff. exists (k, v).
    split; [|exact I]. unfold g. cbn [fst snd]. simpl in P. now rewrite P.
Qed.

Lemma peek_last_greatest (d : dict) (b : T * value) :
  sorted_keys d = true -> peek_last d = Ok b ->
  forall x, In x d -> tle (fst x) (fst b) = true.
Proof.
  induction d as [|[k v] d IH]; intros S P x I; [contradiction|].
  destruct d as [|y d].
  - unfold peek_last in P. simpl in P. inversion P; subst b.
    destruct I as [<-|[]]. unfold tle. now rewrite tlt_irrefl.
  - rewrite peek_last_cons in P.
    pose proof (IH (sorted_tail _ _ S) P) as G.
    destruct I as [<-|I]; [|now apply G].
    pose proof (sorted_head_lt _ _ _ y S (or_introl eq_refl)) as L.
    pose proof (G y (or_introl eq_refl)) as Ly. cbn [fst].
    torder.
Qed.

(** [first_item()] and [last_item()] raise [IndexError] on a series
    without measurements, where a domain has the bounds [-inf] and
    [inf]; otherwise they return the measurements with the least and
    the greatest time, which are the bounds [lower] and [upper] of a
    domain. *)
Theorem first_last_item (ts : TS) :
  wf ts ->
  (items ts = [] ->
     first_item ts = Raise IndexError /\ last_item ts = Raise IndexError /\
     Domain_lower ts = neg_inf /\ Domain_upper ts = pos_inf) /\
  (items ts <> [] ->
     exists a b, first_item ts = Ok a /\ last_item ts = Ok b /\
       In a (items ts) /\ In b (items ts) /\
       Domain_lower ts = fst a /\ Domain_upper ts = fst b /\
       forall x, In x (items ts) ->
         tle (fst a) (fst x) = true /\ tle (fst x) (fst b) = true).
Proof.
  intros W. unfold Domain_lower, Domain_upper, Domain_start, Domain_end,
    first_item, last_item, items. unfold wf in W.
  destruct (_d ts) as [|[k v] d] eqn:E.
  - split; [|intros N; now contradiction N]. intros _.
    repeat split; reflexivity.
  - split; [discriminate|]. intros _.
    destruct (peek_last_ok (k, v) d) as [b B].
    exists (k, v), b. rewrite B. cbn [peek_first].
    split; [reflexivity|]. split; [reflexivity|].
    split; [now left|]. split; [now apply peek_last_In|].
    split; [reflexivity|]. split; [reflexivity|].
    intros x I. split; [|apply (peek_last_greatest _ b W B x I)].
    destruct I as [<-|I]; [unfold tle; now rewrite tlt_irrefl|].
    pose proof (sorted_head_lt _ _ _ x W I) as L. cbn [fst]. torder.
Qed.

End ArithmeticFacts.

(** ** Interval writes with [compact] *)

Section CompactWrite.
Context {T : Type} `{TimeType T}.

Local Abbreviation TS := (TimeSeries T).
Local Abbreviation dict := (list (T * value)).
Local Abbreviation period := (T * T * value)%type.
Local Abbreviation run body :=
  (fun st p => body (fst st) p (snd st)).

(** [set_interval] is its three steps run one after the other, on the
    periods of the series as it was: the write at [s], the deletion of
    the keys strictly between [s] and [e], and the write at [e] of the
    value of the last period. *)
Lemma set_interval_steps (ts : TS) (s e : T) (v : value) (c : bool) :
  wf ts -> is_floating ts = false -> tlt s e = true ->
  length (keys_upto s e (_d ts)) <= 1 ->
  exists (p : period) (ts1 : TS),
    tlt (fst (fst p)) s = false /\ tlt (fst (fst p)) e = true /\
    (forall t, tlt t (fst (fst p)) = false -> tlt t e = true ->
               get ts t = Ok (snd p)) /\
    set ts s v c = Ok ts1 /\
    set_interval ts s e v c
    = set (with_d ts1 (discard_all (_d ts1) (keys_between s e (_d ts))))
          e (snd p) c.
Proof.
  intros W NF L N1.
  assert (Ch := chain_ok_upto (_d ts) s e W L).
  destruct (get_ok ts s W NF) as [v0 G].
  destruct (collect_loop ts e W NF _ s v0 [] Ch G) as (ps & R & A & _ & _).
  destruct (chain_loop ts e W NF _ s v0 [] Ch G) as (ps' & R' & C & F).
  { intros x I L1 L2. unfold keys_upto. apply filter_In. split.
    - apply in_keys. exists (snd x). now destruct x.
    - unfold tle. now rewrite L1, L2. }
  rewrite R in R'. inversion R'; subst ps'. clear R'.
  cbn [filter] in A. rewrite L, upto_below in A. cbn [app] in R.
  destruct ps as [|[[t0 t1] pv] ps]; [discriminate|].
  cbn [map fst] in A. inversion A as [[E0 A']]. subst t0.
  destruct (last_period _ _ _ (Some pv) C) as (p & Ip & Ep & Fp);
    [discriminate|].
  destruct (set_cases ts s v c W) as (ts1 & E1 & Cs).
  exists p, ts1.
  rewrite Forall_forall in F.
  destruct (chained_bounds _ _ _ C) as [_ Bd].
  destruct (Bd p Ip) as (B1 & B2 & _). rewrite Ep in B2.
  split; [exact B1|]. split; [exact B2|].
  split. { intros t L0 L1. apply (F p Ip); trivial. now rewrite Ep. }
  split; [exact E1|].
  clear F Bd B1 B2 Ip Ep C.
  unfold set_interval. rewrite for_iterperiods_short by trivial.
  unfold for_snapshot.
  destruct (check_boundaries_some ts s e L) as [m ->].
  cbn [bind fst snd]. rewrite start_value_get, G. cbn [bind].
  rewrite keys_slice_range by (trivial; torder). unfold _value_function.
  rewrite (loop_local (set_interval_step v c) ts e W NF
             (set_interval_local v c ts)); trivial.
  - rewrite R. cbn [fst fold_result snd].
    unfold set_interval_step at 1. cbn [fst Nat.eqb]. rewrite E1.
    cbn [bind fst snd].
    assert (S1 : sorted_keys (_d ts1) = true).
    { destruct Cs as [->|(_ & -> & _)]; [now apply setitem_sorted|exact W]. }
    assert (K1 : forall x, In x (_d ts) -> tlt s (fst x) = true ->
                           In x (_d ts1)).
    { intros x I Lx. destruct Cs as [->|(_ & -> & _)]; trivial.
      cbn [_d with_d]. apply setitem_In; trivial. right. split; trivial.
      intros E. rewrite E, tlt_irrefl in Lx. discriminate. }
    destruct ts1 as [d1 dflt1]. cbn [_d] in *.
    rewrite remove_fold; trivial.
    + cbn [bind fst snd]. cbn [fold_left snd] in Fp. rewrite A', Fp.
      reflexivity.
    + rewrite A'. unfold keys_between. apply NoDup_filter.
      now apply sorted_NoDup.
    + intros q Iq.
      assert (J : In (fst (fst q)) (keys_between s e (_d ts))).
      { rewrite <- A'. now apply (in_map (fun p : period => fst (fst p))). }
      unfold keys_between in J. apply filter_In in J. destruct J as [J B].
      apply andb_true_iff in B. destruct B as [B _].
      apply in_keys in J. destruct J as [w J]. apply in_keys. exists w.
      now apply K1.
  - intros k I. unfold keys_upto in I. now apply filter_In in I.
Qed.


Lemma default_explicit (ts : TS) (dv : value) :
  _default ts = Explicit dv -> default ts = Ok dv.
Proof. intros E. unfold default, is_floating. now rewrite E. Qed.

(** [set_interval(s, e, v, compact=True)] on a series that has a
    value, for [s < e], when at most one recorded key lies in [(s, e]]
    and the series has a measurement at or before [s] or an explicit
    default.  The series then reads a value [== v]
    all over [[s, e)].  At [e], and after [e] up to the next recorded
    key, it reads a value [== w], where [w] is the value that the series
    had just before [e].  Reads at or after a key greater than [e] are
    unchanged, and so are reads before [s] that have a key at or before
    them, or an explicit default.  No key is left strictly between [s]
    and [e]; the measurements before [s] and after [e] are kept. *)
Theorem set_interval_compact (ts : TS) (s e : T) (v : value) :
  wf ts -> is_floating ts = false -> tlt s e = true ->
  length (keys_upto s e (items ts)) <= 1 ->
  (exists x, In x (items ts) /\ tle (fst x) s = true) \/
  (exists dv, _default ts = Explicit dv) ->
  exists r w, set_interval ts s e v true = Ok r /\ wf r /\
    _default r = _default ts /\
    (forall x, In x (items r) ->
       x = (s, v) \/ x = (e, w) \/
       (In x (items ts) /\
        (tle (fst x) s = true \/ tle e (fst x) = true))) /\
    (forall x, In x (items ts) ->
       tlt (fst x) s = true \/ tlt e (fst x) = true -> In x (items r)) /\
    (exists t0, tle s t0 = true /\ tlt t0 e = true /\
       forall t, tle t0 t = true -> tlt t e = true -> get ts t = Ok w) /\
    (forall t, tle s t = true -> tlt t e = true ->
       exists a, get r t = Ok a /\ py_eq a v = true) /\
    (forall t, tle e t = true ->
       (forall x, In x (items ts) -> tlt e (fst x) = true ->
                  tlt t (fst x) = true) ->
       exists a, get r t = Ok a /\ py_eq a w = true) /\
    (forall t x, In x (items ts) -> tlt e (fst x) = true ->
       tle (fst x) t = true -> get r t = get ts t) /\
    (forall t, tlt t s = true ->
       (exists x, In x (items ts) /\ tle (fst x) t = true) \/
       (exists dv, _default ts = Explicit dv) ->
       get r t = get ts t).
Proof.
  intros W NF L N1 Hs.
  destruct (set_interval_steps ts s e v true W NF L N1)
    as (p & ts1 & B1 & B2 & Const & E1 & R).
  set (w := snd p) in *.
  set (ks := keys_between s e (_d ts)) in *.
  destruct (set_cases ts s v true W) as (ts1' & E1' & Cs).
  rewrite E1 in E1'. inversion E1'; subst ts1'. clear E1'.
  assert (S1 : sorted_keys (_d ts1) = true).
  { destruct Cs as [->|(_ & -> & _)]; [now apply setitem_sorted|exact W]. }
  assert (D1 : _default ts1 = _default ts).
  { destruct Cs as [->|(_ & -> & _)]; reflexivity. }
  assert (In1 : forall x, In x (_d ts1) -> x = (s, v) \/ In x (_d ts)).
  { intros x I. destruct Cs as [->|(_ & -> & _)]; auto.
    cbn [_d with_d] in I. apply setitem_In in I; trivial. tauto. }
  assert (Keep1 : forall x, In x (_d ts) -> fst x <> s -> In x (_d ts1)).
  { intros x I N. destruct Cs as [->|(_ & -> & _)]; trivial.
    cbn [_d with_d]. apply setitem_In; auto. }
  assert (Ks : forall k, In k ks <->
                         In k (keys (_d ts)) /\ tlt s k = true /\ tlt k e = true).
  { intros k. unfold ks, keys_between. rewrite filter_In, andb_true_iff.
    tauto. }
  remember (with_d ts1 (discard_all (_d ts1) ks)) as ts2 eqn:E2.
  assert (S2 : wf ts2).
  { subst ts2. unfold wf. cbn [_d with_d]. now apply discard_all_sorted. }
  assert (D2 : _default ts2 = _default ts) by (subst ts2; exact D1).
  assert (M2 : forall x, In x (_d ts2) <-> In x (_d ts1) /\ ~ In (fst x) ks).
  { intros x. subst ts2. cbn [_d with_d]. apply discard_all_In. }
  assert (In2 : forall x, In x (_d ts2) ->
            x = (s, v) \/
            (In x (_d ts) /\ (tle (fst x) s = true \/ tle e (fst x) = true))).
  { intros x I. apply M2 in I. destruct I as [I N].
    destruct (In1 x I) as [->|J]; [now left|right]. split; trivial.
    unfold tle. destruct (tlt s (fst x)) eqn:A; [|now left].
    destruct (tlt (fst x) e) eqn:B; [|now right]. exfalso. apply N.
    apply Ks. split; [|auto]. apply in_keys. exists (snd x). now destruct x. }
  assert (Keep2 : forall x, In x (_d ts) ->
            tlt (fst x) s = true \/ tle e (fst x) = true -> In x (_d ts2)).
  { intros x I D. apply M2. split.
    - apply Keep1; trivial. intros E. unfold tle in D. rewrite E in D.
      destruct D as [D|D]; [now rewrite tlt_irrefl in D|].
      rewrite L in D. discriminate.
    - intros J. apply Ks in J. destruct J as (_ & J1 & J2). unfold tle in D.
      destruct D as [D|D]; [|now rewrite J2 in D].
      rewrite (tlt_asym _ _ J1) in D. discriminate. }
  (* keys at or before [s] are the same in [ts2] as in [ts] if [s] was
     not written *)
  assert (A2 : forall t, tle s t = true -> tlt t e = true ->
            exists a, get ts2 t = Ok a /\ py_eq a v = true /\
              ((exists x, In x (_d ts2) /\ tle (fst x) t = true) \/
               (exists dv, _default ts = Explicit dv))).
  { intros t L0 L1. unfold tle in L0. apply negb_true_iff in L0.
    destruct Cs as [Cw|(_ & Cn & Ne & cur & Gs & Pv)].
    - assert (I2 : In (s, v) (_d ts2)).
      { apply M2. split.
        - rewrite Cw. cbn [_d with_d]. apply setitem_In; auto.
        - cbn [fst]. intros J. apply Ks in J. destruct J as (_ & J & _).
          now rewrite tlt_irrefl in J. }
      exists v. split; [|split; [apply py_eq_refl|]].
      + rewrite get_floor by exact S2.
        rewrite (floor_intro (_d ts2) t (s, v)); trivial.
        intros x I Lx. cbn [fst].
        destruct (In2 x I) as [->|[_ [D|D]]]; cbn [fst].
        * apply tlt_irrefl.
        * unfold tle in D. now apply negb_true_iff in D.
        * exfalso. unfold tle in D. apply negb_true_iff in D. torder.
      + left. exists (s, v). split; trivial. cbn [fst]. unfold tle.
        now rewrite L0.
    - subst ts1.
      assert (Fe : floor (_d ts2) t = floor (_d ts) s).
      { rewrite (floor_same (_d ts2) s t); trivial.
        - apply floor_ext; trivial. intros x Lx. split.
          + intros I. destruct (In2 x I) as [->|[J _]]; trivial.
            apply M2 in I. tauto.
          + intros I. apply M2. split; trivial. intros J. apply Ks in J.
            destruct J as (_ & J & _). congruence.
        - intros x I Lx. destruct (tlt t (fst x)) eqn:A; trivial. exfalso.
          apply M2 in I. destruct I as [I N]. apply N. apply Ks.
          split; [apply in_keys; exists (snd x); now destruct x|].
          split; trivial. torder. }
      rewrite get_floor in Gs by exact W.
      rewrite get_floor by exact S2. rewrite Fe.
      destruct (floor (_d ts) s) as [kv|] eqn:Fl.
      + exists (snd kv). inversion Gs; subst cur.
        split; [reflexivity|]. split; [exact Pv|]. left.
        exists kv. split.
        * apply M2. split; [eapply floor_In; eauto|]. intros J.
          apply Ks in J. destruct J as (_ & J & _).
          pose proof (floor_le _ _ _ Fl). congruence.
        * unfold tle. apply negb_true_iff.
          pose proof (floor_le _ _ _ Fl). torder.
      + destruct Hs as [(x & I & Lx)|(dv & D)].
        * pose proof (floor_None _ _ W Fl x I) as C. unfold tle in Lx.
          rewrite C in Lx. discriminate.
        * exists dv. rewrite (default_explicit ts dv D) in Gs.
          inversion Gs; subst cur.
          split; [apply default_explicit; congruence|].
          split; [exact Pv|]. right. eauto. }
  destruct (set_cases ts2 e w true S2) as (r & E3 & Cr).
  exists r, w. split; [rewrite R; exact E3|].
  assert (Sr : wf r).
  { destruct Cr as [->|(_ & -> & _)]; [|exact S2].
    apply setitem_sorted. exact S2. }
  assert (Dr : _default r = _default ts).
  { destruct Cr as [->|(_ & -> & _)]; exact D2. }
  assert (InR : forall x, In x (_d r) ->
            x = (s, v) \/ x = (e, w) \/
            (In x (_d ts) /\ (tle (fst x) s = true \/ tle e (fst x) = true))).
  { intros x I. destruct Cr as [Cw|(_ & Cn & _)].
    - rewrite Cw in I. cbn [_d with_d] in I.
      apply setitem_In in I; [|exact S2].
      destruct I as [->|[I _]]; auto. destruct (In2 x I); auto.
    - rewrite Cn in I. destruct (In2 x I); auto. }
  assert (KeepR : forall x, In x (_d ts) ->
            tlt (fst x) s = true \/ tlt e (fst x) = true -> In x (_d r)).
  { intros x I D.
    assert (I2 : In x (_d ts2)).
    { apply Keep2; trivial. destruct D as [D|D]; [now left|right].
      unfold tle. now rewrite (tlt_asym _ _ D). }
    destruct Cr as [->|(_ & -> & _)]; trivial. cbn [_d with_d].
    apply setitem_In; [exact S2|]. right. split; trivial. intros E.
    rewrite E in D. destruct D as [D|D].
    - rewrite (tlt_asym _ _ L) in D. discriminate.
    - rewrite tlt_irrefl in D. discriminate. }
  split; [exact Sr|]. split; [exact Dr|]. unfold items.
  split; [exact InR|]. split; [exact KeepR|].
  split.
  { exists (fst (fst p)). unfold tle. rewrite B1. repeat split; trivial.
    intros t L0 L1. apply Const; trivial. now apply negb_true_iff in L0. }
  split; [|split; [|split]].
  - intros t L0 L1. destruct (A2 t L0 L1) as (a & Ga & Pa & Ex).
    exists a. split; trivial.
    destruct Cr as [Cw|(_ & Cn & _)]; [|now rewrite Cn].
    rewrite Cw. destruct (setitem_get ts2 e w S2) as (_ & _ & G2 & G3).
    destruct Ex as [(x & I & Lx)|(dv & D)].
    + rewrite (G2 t x I); trivial; [|now left].
      unfold tle in Lx. now apply negb_true_iff in Lx.
    + rewrite (G3 t dv L1); trivial. congruence.
  - intros t L0 N. unfold tle in L0. apply negb_true_iff in L0.
    assert (N2 : forall x, In x (_d ts2) -> tlt e (fst x) = true ->
                           tlt t (fst x) = true).
    { intros x I Lx. destruct (In2 x I) as [->|[J _]]; [|now apply N].
      cbn [fst] in Lx. rewrite (tlt_asym _ _ L) in Lx. discriminate. }
    destruct Cr as [Cw|(_ & Cn & Ne & cur & Ge & Pe)].
    + exists w. split; [|apply py_eq_refl]. rewrite Cw.
      destruct (setitem_get ts2 e w S2) as (_ & G1 & _ & _).
      now apply G1.
    + exists cur. split; trivial. rewrite Cn, <- Ge.
      rewrite !get_floor by exact S2.
      now rewrite (floor_same (_d ts2) e t).
  - intros t x I Lx Lt. unfold tle in Lt. apply negb_true_iff in Lt.
    rewrite !get_floor by trivial.
    destruct (floor (_d ts) t) as [kv|] eqn:Fl.
    + pose proof (floor_greatest _ _ _ W Fl x I Lt) as G.
      assert (Lk : tlt e (fst kv) = true) by torder.
      rewrite (floor_intro (_d r) t kv); trivial.
      * apply KeepR; [eapply floor_In; eauto|now right].
      * eapply floor_le; eauto.
      * intros y J Ly. apply InR in J.
        destruct J as [->|[->|[J _]]]; cbn [fst] in *; [torder|torder|].
        now apply (floor_greatest _ _ _ W Fl).
    + pose proof (floor_None _ _ W Fl x I) as C. congruence.
  - intros t Lt Hyp. rewrite !get_floor by trivial.
    assert (Fe : floor (_d r) t = floor (_d ts) t).
    { apply floor_ext; trivial. intros x Lx. split.
      - intros I. apply InR in I.
        destruct I as [->|[->|[I _]]]; cbn [fst] in *; trivial;
          exfalso; torder.
      - intros I. apply KeepR; trivial. left. torder. }
    rewrite Fe. destruct (floor (_d ts) t) as [kv|] eqn:Fl; trivial.
    destruct Hyp as [(x & I & Lx)|(dv & D)].
    + pose proof (floor_None _ _ W Fl x I) as C. unfold tle in Lx.
      rewrite C in Lx. discriminate.
    + rewrite (default_explicit ts dv D). apply default_explicit.
      congruence.
Qed.

End CompactWrite.

(** ** More concrete instances *)

(** Closes a goal about concrete series by evaluation. *)
Ltac evaluate :=
  first
    [ vm_compute; reflexivity
    | discriminate
    | intros; reflexivity
    | repeat (first [vm_compute; reflexivity | constructor])
    | intros; repeat (first [vm_compute; reflexivity | constructor]) ].

Section MoreInstances.

Local Abbreviation TS := (TimeSeries etime).
Local Abbreviation period := (etime * etime * value)%type.


(** [Domain_and_spec] on two domains over [[0, 2]]. *)
Lemma Domain_and_spec_witness :
  (wf ex_domain_a /\
   wf ex_domain_b /\
   is_domain ex_domain_a /\
   is_domain ex_domain_b) /\
  (let lo := tmax (Domain_lower ex_domain_a) (Domain_lower ex_domain_b) in
   let hi := tmin (Domain_upper ex_domain_a) (Domain_upper ex_domain_b) in
   (tlt lo hi = false -> Domain_and ex_domain_a ex_domain_b = Ok Domain_new) /\
   (tlt lo hi = true ->
   exists sa sb r,
   slice ex_domain_a lo hi = Ok sa /\ slice ex_domain_b lo hi = Ok sb /\
   Domain_and ex_domain_a ex_domain_b = Ok r /\ wf r /\ is_domain r /\
   (forall k, In k (keys (items sa)) <->
   k = lo \/ In k (keys_between lo hi (items ex_domain_a)) \/ k = hi) /\
   (forall k, In k (keys (items sb)) <->
   k = lo \/ In k (keys_between lo hi (items ex_domain_b)) \/ k = hi) /\
   (forall k, In k (keys (items r)) <->
   In k (keys (items sa)) \/ In k (keys (items sb))) /\
   (forall k v, In (k, v) (items r) ->
   exists va vb, get ex_domain_a k = Ok va /\ get ex_domain_b k = Ok vb /\
   v = py_and va vb))).
Proof.
  assert (H1 : wf ex_domain_a) by evaluate.
  assert (H2 : wf ex_domain_b) by evaluate.
  assert (H3 : is_domain ex_domain_a) by evaluate.
  assert (H4 : is_domain ex_domain_b) by evaluate.
  split; [repeat split; assumption|].
  exact (Domain_and_spec ex_domain_a ex_domain_b H1 H2 H3 H4).
Defined.

(** [interval_bounds_rejected] on the series of [test_init_data], from 4 to 2. *)
Lemma interval_bounds_rejected_witness :
  (tlt (tz 4) (tz 2) = false) /\
  (iterperiods ex_init_data (Some (tz 4)) (Some (tz 2)) NoFilter = Raise ValueError /\
   set_interval ex_init_data (tz 4) (tz 2) (VInt 5) false = Raise ValueError /\
   remove_points_from_interval ex_init_data (tz 4) (tz 2) = Raise ValueError /\
   slice ex_init_data (tz 4) (tz 2) = Raise ValueError /\
   to_domain ex_init_data (Some (tz 4)) (Some (tz 2)) = Raise ValueError).
Proof.
  assert (H1 : tlt (tz 4) (tz 2) = false) by evaluate.
  split; [exact H1|].
  exact (interval_bounds_rejected ex_init_data (tz 4) (tz 2) NoFilter (VInt 5) false H1).
Defined.

(** [floating_series_raises] on [TimeSeries()], as [test_set_interval] has it: [set_interval(2, 4, 5)] raises [KeyError]. *)
Lemma floating_series_raises_witness :
  (is_floating ex_empty = true /\
   tlt (tz 2) (tz 4) = true) /\
  (get ex_empty (tz 2) = Raise KeyError /\
   iterperiods ex_empty (Some (tz 2)) (Some (tz 4)) NoFilter = Raise KeyError /\
   set_interval ex_empty (tz 2) (tz 4) (VInt 5) false = Raise KeyError /\
   remove_points_from_interval ex_empty (tz 2) (tz 4) = Raise KeyError /\
   slice ex_empty (tz 2) (tz 4) = Raise KeyError /\
   to_domain ex_empty (Some (tz 2)) (Some (tz 4)) = Raise KeyError /\
   merge [ex_empty] false None None = Raise KeyError /\
   n_points ex_empty (Some (tz 2)) (Some (tz 4)) None true false = Ok 0%Z /\
   compact ex_empty = Ok ex_empty).
Proof.
  assert (H1 : is_floating ex_empty = true) by evaluate.
  assert (H2 : tlt (tz 2) (tz 4) = true) by evaluate.
  split; [repeat split; assumption|].
  exact (floating_series_raises ex_empty (tz 2) (tz 4) NoFilter (VInt 5) false H1 H2).
Defined.

(** [set_get] on the series of [test_init_data]: [set(7, 1, compact=True)]. *)
Lemma set_get_witness :
  (wf ex_init_data) /\
  (exists ts', set ex_init_data (tz 7) (VInt 1) true = Ok ts' /\ wf ts' /\
   _default ts' = _default ex_init_data /\
   (true = false ->
   forall x, In x (items ts') <->
   x = ((tz 7), (VInt 1)) \/ (In x (items ex_init_data) /\ fst x <> (tz 7))) /\
   (forall t', tle (tz 7) t' = true ->
   (forall x, In x (items ex_init_data) -> tlt (tz 7) (fst x) = true ->
   tlt t' (fst x) = true) ->
   exists cur, get ts' t' = Ok cur /\ py_eq cur (VInt 1) = true) /\
   (forall t' x, In x (items ex_init_data) -> tle (fst x) t' = true ->
   tlt t' (tz 7) = true \/ tlt (tz 7) (fst x) = true -> get ts' t' = get ex_init_data t') /\
   (forall t' dv, tlt t' (tz 7) = true -> _default ex_init_data = Explicit dv ->
   get ts' t' = get ex_init_data t')).
Proof.
  assert (H1 : wf ex_init_data) by evaluate.
  split; [exact H1|].
  exact (set_get ex_init_data (tz 7) (VInt 1) true H1).
Defined.

(** [remove_spec] on the series of [test_init_data] at the key 6. *)
Lemma remove_spec_witness :
  (wf ex_init_data) /\
  ((has_key (_d ex_init_data) (tz 6) = false ->
   remove ex_init_data (tz 6) = Raise KeyError /\
   (ts' <- set ex_init_data (tz 6) (VInt 0) false ;; remove ts' (tz 6)) = Ok ex_init_data) /\
   (has_key (_d ex_init_data) (tz 6) = true ->
   exists ts', remove ex_init_data (tz 6) = Ok ts' /\ wf ts' /\
   _default ts' = _default ex_init_data /\
   forall x, In x (items ts') <-> In x (items ex_init_data) /\ fst x <> (tz 6))).
Proof.
  assert (H1 : wf ex_init_data) by evaluate.
  split; [exact H1|].
  exact (remove_spec ex_init_data (tz 6) (VInt 0) H1).
Defined.

(** [compact_is_compact] on a series with a repeated value. *)
Lemma compact_is_compact_witness :
  (wf ex_repeated) /\
  (exists ts', compact ex_repeated = Ok ts' /\
   is_compact (items ts') = true /\
   compact ts' = Ok ts' /\
   (is_compact (items ex_repeated) = true -> ts' = ex_repeated)).
Proof.
  assert (H1 : wf ex_repeated) by evaluate.
  split; [exact H1|].
  exact (compact_is_compact ex_repeated H1).
Defined.

(** [iterperiods_cover] on the series of [test_init_data] from 1.5 on. *)
Lemma iterperiods_cover_witness :
  (wf ex_init_data /\
   is_floating ex_init_data = false /\
   tlt (lower_bound (Some (tq 3 2))) (upper_bound None) = true) /\
  (exists ps : list period,
   iterperiods ex_init_data (Some (tq 3 2)) None NoFilter = Ok ps /\
   chained (lower_bound (Some (tq 3 2))) ps (upper_bound None) /\
   (forall p t, In p ps ->
   tle (fst (fst p)) t = true -> tlt t (snd (fst p)) = true ->
   get ex_init_data t = Ok (snd p)) /\
   (forall t, tle (lower_bound (Some (tq 3 2))) t = true ->
   tlt t (upper_bound None) = true ->
   exists p, In p ps /\ tle (fst (fst p)) t = true /\
   tlt t (snd (fst p)) = true)).
Proof.
  assert (H1 : wf ex_init_data) by evaluate.
  assert (H2 : is_floating ex_init_data = false) by evaluate.
  assert (H3 : tlt (lower_bound (Some (tq 3 2))) (upper_bound None) = true) by evaluate.
  split; [repeat split; assumption|].
  exact (iterperiods_cover ex_init_data (Some (tq 3 2)) None H1 H2 H3).
Defined.

(** [intervals_spec] on a domain with a redundant point. *)
Lemma intervals_spec_witness :
  (wf ex_domain_b /\
   is_floating ex_domain_b = false /\
   tlt neg_inf pos_inf = true) /\
  (exists ivs, intervals ex_domain_b = Ok ivs /\
   is_empty ex_domain_b = Ok (match ivs with [] => true | _ :: _ => false end) /\
   (forall iv, In iv ivs ->
   tlt (fst iv) (snd iv) = true /\
   forall t, tle (fst iv) t = true -> tlt t (snd iv) = true ->
   exists v, get ex_domain_b t = Ok v /\ py_eq v (VBool true) = true) /\
   (forall t v, tlt t pos_inf = true -> get ex_domain_b t = Ok v ->
   py_eq v (VBool true) = true ->
   exists iv, In iv ivs /\ tle (fst iv) t = true /\
   tlt t (snd iv) = true)).
Proof.
  assert (H1 : wf ex_domain_b) by evaluate.
  assert (H2 : is_floating ex_domain_b = false) by evaluate.
  assert (H3 : tlt neg_inf pos_inf = true) by evaluate.
  split; [repeat split; assumption|].
  exact (intervals_spec ex_domain_b H1 H2 H3).
Defined.

(** [n_points_count] on the series of [test_init_data] over [[2, 8)]. *)
Lemma n_points_count_witness :
  (wf ex_init_data) /\
  ((tlt (tz 2) (tz 8) = true ->
   n_points ex_init_data (Some (tz 2)) (Some (tz 8)) None true false
   = Ok (Z.of_nat (length (filter (in_range true false (tz 2) (tz 8))
   (items ex_init_data))))) /\
   (tlt (tz 2) (tz 8) = false ->
   n_points ex_init_data (Some (tz 2)) (Some (tz 8)) None true false
   = if Nat.eqb (len ex_init_data) 0 then Ok 0%Z else Raise ValueError)).
Proof.
  assert (H1 : wf ex_init_data) by evaluate.
  split; [exact H1|].
  exact (n_points_count ex_init_data (tz 2) (tz 8) true false H1).
Defined.

(** [to_domain_spec] on the series of [test_remove_points_from_interval]. *)
Lemma to_domain_spec_witness :
  (wf ex_remove_points /\
   is_floating ex_remove_points = false /\
   tlt (lower_bound None) (upper_bound None) = true) /\
  (exists r, to_domain ex_remove_points None None = Ok r /\ wf r /\ is_domain r /\
   (forall t, tle (lower_bound None) t = true ->
   tlt t (upper_bound None) = true ->
   exists v, get ex_remove_points t = Ok v /\ get r t = Ok (VBool (truthy v))) /\
   (forall t, tlt t (lower_bound None) = true \/
   tle (upper_bound None) t = true ->
   get r t = Ok (VBool false))).
Proof.
  assert (H1 : wf ex_remove_points) by evaluate.
  assert (H2 : is_floating ex_remove_points = false) by evaluate.
  assert (H3 : tlt (lower_bound None) (upper_bound None) = true) by evaluate.
  split; [repeat split; assumption|].
  exact (to_domain_spec ex_remove_points None None H1 H2 H3).
Defined.

(** [slice_agrees] on the series of [test_init_data] over [[1.5, 7]]. *)
Lemma slice_agrees_witness :
  (wf ex_init_data /\
   is_floating ex_init_data = false /\
   tlt (tq 3 2) (tz 7) = true) /\
  (exists r dv, slice ex_init_data (tq 3 2) (tz 7) = Ok r /\ wf r /\
   default ex_init_data = Ok dv /\ _default r = Explicit dv /\
   (forall k, In k (keys (items r)) <->
   k = (tq 3 2) \/ In k (keys_between (tq 3 2) (tz 7) (items ex_init_data)) \/ k = (tz 7)) /\
   (forall t, tle (tq 3 2) t = true -> tle t (tz 7) = true -> get r t = get ex_init_data t) /\
   (forall t, tlt (tz 7) t = true -> get r t = get ex_init_data (tz 7)) /\
   (forall t, tlt t (tq 3 2) = true -> get r t = Ok dv)).
Proof.
  assert (H1 : wf ex_init_data) by evaluate.
  assert (H2 : is_floating ex_init_data = false) by evaluate.
  assert (H3 : tlt (tq 3 2) (tz 7) = true) by evaluate.
  split; [repeat split; assumption|].
  exact (slice_agrees ex_init_data (tq 3 2) (tz 7) H1 H2 H3).
Defined.

(** [default_bounds] on the series of [test_init_data]. *)
Lemma default_bounds_witness :
  (wf ex_init_data) /\
  ((len ex_init_data = 0 -> _check_boundaries ex_init_data None None false = Raise KeyError) /\
   (len ex_init_data = 1 -> _check_boundaries ex_init_data None None false = Raise ValueError) /\
   (2 <= len ex_init_data ->
   exists k0 v0 kn vn m,
   first_item ex_init_data = Ok (k0, v0) /\ last_item ex_init_data = Ok (kn, vn) /\
   tlt k0 kn = true /\
   _check_boundaries ex_init_data None None false = Ok (k0, kn, m) /\
   intervals m = Ok [(k0, kn)])).
Proof.
  assert (H1 : wf ex_init_data) by evaluate.
  split; [exact H1|].
  exact (default_bounds ex_init_data H1).
Defined.

(** [operation_series] with the function of [logical_xor]. *)
Lemma operation_series_witness :
  (wf ex_init_data /\
   wf ex_two_points /\
   is_floating ex_init_data = false /\
   is_floating ex_two_points = false /\
   (forall x y, (fun x y => Ok (VInt (Z.b2z (xorb (truthy x) (truthy y))))) x y = Ok ((fun x y => VInt (Z.b2z (xorb (truthy x) (truthy y)))) x y))) /\
  (exists r, operation ex_init_data (OtherSeries ex_two_points) (fun x y => Ok (VInt (Z.b2z (xorb (truthy x) (truthy y))))) [] EXTEND_BACK = Ok r /\
   wf r /\ _default r = EXTEND_BACK /\
   (forall k, In k (keys (items r)) <->
   In k (keys (items ex_init_data)) \/ In k (keys (items ex_two_points))) /\
   (forall t x, In x (items r) -> tle (fst x) t = true ->
   exists a b, get ex_init_data t = Ok a /\ get ex_two_points t = Ok b /\
   get r t = Ok ((fun x y => VInt (Z.b2z (xorb (truthy x) (truthy y)))) a b))).
Proof.
  assert (H1 : wf ex_init_data) by evaluate.
  assert (H2 : wf ex_two_points) by evaluate.
  assert (H3 : is_floating ex_init_data = false) by evaluate.
  assert (H4 : is_floating ex_two_points = false) by evaluate.
  assert (H5 : (forall x y, (fun x y => Ok (VInt (Z.b2z (xorb (truthy x) (truthy y))))) x y = Ok ((fun x y => VInt (Z.b2z (xorb (truthy x) (truthy y)))) x y))) by evaluate.
  split; [repeat split; assumption|].
  exact (operation_series ex_init_data ex_two_points (fun x y => Ok (VInt (Z.b2z (xorb (truthy x) (truthy y))))) (fun x y => VInt (Z.b2z (xorb (truthy x) (truthy y)))) EXTEND_BACK H1 H2 H3 H4 H5).
Defined.

(** [operation_constant_spec] with the function of [logical_xor] and 0. *)
Lemma operation_constant_spec_witness :
  (wf ex_init_data /\
   (forall x y, (fun x y => Ok (VInt (Z.b2z (xorb (truthy x) (truthy y))))) x y = Ok ((fun x y => VInt (Z.b2z (xorb (truthy x) (truthy y)))) x y))) /\
  (operation ex_init_data (OtherConstant (VInt 0)) (fun x y => Ok (VInt (Z.b2z (xorb (truthy x) (truthy y))))) [] EXTEND_BACK
   = Ok (mkTS (map (fun kv => (fst kv, (fun x y => VInt (Z.b2z (xorb (truthy x) (truthy y)))) (snd kv) (VInt 0))) (items ex_init_data)) EXTEND_BACK)).
Proof.
  assert (H1 : wf ex_init_data) by evaluate.
  assert (H2 : (forall x y, (fun x y => Ok (VInt (Z.b2z (xorb (truthy x) (truthy y))))) x y = Ok ((fun x y => VInt (Z.b2z (xorb (truthy x) (truthy y)))) x y))) by evaluate.
  split; [repeat split; assumption|].
  exact (operation_constant_spec ex_init_data (fun x y => Ok (VInt (Z.b2z (xorb (truthy x) (truthy y))))) (fun x y => VInt (Z.b2z (xorb (truthy x) (truthy y)))) (VInt 0) EXTEND_BACK H1 H2).
Defined.

(** [to_bool_spec] on the series of [test_remove_points_from_interval]. *)
Lemma to_bool_spec_witness :
  (wf ex_remove_points) /\
  (to_bool ex_remove_points false
   = Ok (mkTS (map (fun kv => (fst kv, VBool (xorb false (truthy (snd kv)))))
   (items ex_remove_points))
   EXTEND_BACK)).
Proof.
  assert (H1 : wf ex_remove_points) by evaluate.
  split; [exact H1|].
  exact (to_bool_spec ex_remove_points false H1).
Defined.

(** [set_interval_spec] where the end of the interval is a recorded key: [set_interval(1, 2, 7)] on [[(0,1),(2,3)]]. *)
Lemma set_interval_spec_witness :
  (wf ex_two_points /\
   is_floating ex_two_points = false /\
   tlt (tz 1) (tz 2) = true /\
   length (keys_upto (tz 1) (tz 2) (items ex_two_points)) <= 1) /\
  (exists r w, set_interval ex_two_points (tz 1) (tz 2) (VInt 7) false = Ok r /\ wf r /\
   _default r = _default ex_two_points /\
   (forall x, In x (items r) <->
   x = ((tz 1), (VInt 7)) \/ x = ((tz 2), w) \/
   (In x (items ex_two_points) /\
   (tlt (fst x) (tz 1) = true \/ tlt (tz 2) (fst x) = true))) /\
   (exists t0, tle (tz 1) t0 = true /\ tlt t0 (tz 2) = true /\
   forall t, tle t0 t = true -> tlt t (tz 2) = true -> get ex_two_points t = Ok w) /\
   (has_key (_d ex_two_points) (tz 2) = false -> get ex_two_points (tz 2) = Ok w) /\
   (forall t, tle (tz 1) t = true -> tlt t (tz 2) = true -> get r t = Ok (VInt 7)) /\
   (forall t, tle (tz 2) t = true ->
   (forall x, In x (items ex_two_points) -> tlt (tz 2) (fst x) = true ->
   tlt t (fst x) = true) ->
   get r t = Ok w) /\
   (forall t x, In x (items ex_two_points) -> tlt (tz 2) (fst x) = true ->
   tle (fst x) t = true -> get r t = get ex_two_points t) /\
   (forall t, tlt t (tz 1) = true ->
   (exists x, In x (items ex_two_points) /\ tle (fst x) t = true) \/
   (exists dv, _default ex_two_points = Explicit dv) ->
   get r t = get ex_two_points t)).
Proof.
  assert (H1 : wf ex_two_points) by evaluate.
  assert (H2 : is_floating ex_two_points = false) by evaluate.
  assert (H3 : tlt (tz 1) (tz 2) = true) by evaluate.
  assert (H4 : length (keys_upto (tz 1) (tz 2) (items ex_two_points)) <= 1)
    by (vm_compute; constructor).
  split; [repeat split; assumption|].
  exact (set_interval_spec ex_two_points (tz 1) (tz 2) (VInt 7) H1 H2 H3 H4).
Defined.

(** [merge_pointwise] on two series, with [compact] and no operation. *)
Lemma merge_pointwise_witness :
  ([ex_repeated; ex_two_points] <> [] /\
   Forall wf [ex_repeated; ex_two_points] /\
   Forall (fun ts => is_floating ts = false) [ex_repeated; ex_two_points] /\
   (@None Default = None ->
    Forall (fun ts => default_hashable (_default ts) = true) [ex_repeated; ex_two_points])) /\
  (exists r, merge [ex_repeated; ex_two_points] true None None = Ok r /\ wf r /\
   (forall k, In k (keys (items r)) ->
   exists ts, In ts [ex_repeated; ex_two_points] /\ In k (keys (items ts))) /\
   (true = false -> forall ts k, In ts [ex_repeated; ex_two_points] -> In k (keys (items ts)) ->
   In k (keys (items r))) /\
   (forall t ts k, In ts [ex_repeated; ex_two_points] -> In k (keys (items ts)) -> tle k t = true ->
   exists cur, get r t = Ok cur /\
   py_eq cur (merged_value None (map (fun ts' => value_at ts' t) [ex_repeated; ex_two_points]))
   = true)).
Proof.
  assert (H1 : [ex_repeated; ex_two_points] <> []) by evaluate.
  assert (H2 : Forall wf [ex_repeated; ex_two_points]) by evaluate.
  assert (H3 : Forall (fun ts => is_floating ts = false) [ex_repeated; ex_two_points]) by evaluate.
  assert (H4 : (@None Default = None ->
    Forall (fun ts => default_hashable (_default ts) = true) [ex_repeated; ex_two_points])) by evaluate.
  split; [repeat split; assumption|].
  exact (merge_pointwise [ex_repeated; ex_two_points] true None None H1 H2 H3 H4).
Defined.

(** [arithmetic_series] on two series of integers of the tests. *)
Lemma arithmetic_series_witness :
  (wf ex_init_data /\
   wf ex_two_points /\
   is_floating ex_init_data = false /\
   is_floating ex_two_points = false /\
   numeric ex_init_data = true /\
   numeric ex_two_points = true) /\
  (exists d m a o x,
   difference ex_init_data (OtherSeries ex_two_points) = Ok d /\
   multiply ex_init_data (OtherSeries ex_two_points) = Ok m /\
   logical_and ex_init_data (OtherSeries ex_two_points) = Ok a /\
   logical_or ex_init_data (OtherSeries ex_two_points) = Ok o /\
   logical_xor ex_init_data (OtherSeries ex_two_points) = Ok x /\
   forall t k,
   In k (keys (items ex_init_data)) \/ In k (keys (items ex_two_points)) ->
   tle k t = true ->
   exists u v p q,
   get ex_init_data t = Ok u /\ as_number u = Some p /\
   get ex_two_points t = Ok v /\ as_number v = Some q /\
   get d t = Ok (VInt (p - q)) /\
   get m t = Ok (VInt (p * q)) /\
   get a t = Ok (VInt (if (p =? 0)%Z then 0 else q)) /\
   get o t = Ok (VInt (if (p =? 0)%Z then q else p)) /\
   get x t = Ok (VInt (Z.b2z (xorb (negb (p =? 0)%Z) (negb (q =? 0)%Z))))).
Proof.
  assert (H1 : wf ex_init_data) by evaluate.
  assert (H2 : wf ex_two_points) by evaluate.
  assert (H3 : is_floating ex_init_data = false) by evaluate.
  assert (H4 : is_floating ex_two_points = false) by evaluate.
  assert (H5 : numeric ex_init_data = true) by evaluate.
  assert (H6 : numeric ex_two_points = true) by evaluate.
  split; [repeat split; assumption|].
  exact (arithmetic_series ex_init_data ex_two_points H1 H2 H3 H4 H5 H6).
Defined.

(** [threshold_spec]: [threshold(2)] on the series of [test_init_data]. *)
Lemma threshold_spec_witness :
  (wf ex_init_data /\
   as_number (VInt 2) = Some 2%Z /\
   forallb (fun kv => is_number (snd kv)) (items ex_init_data) = true) /\
  (exists r, threshold ex_init_data (VInt 2) false = Ok r /\
   _default r = EXTEND_BACK /\
   keys (items r) = keys (items ex_init_data) /\
   forall k v, In (k, v) (items ex_init_data) ->
   exists p, as_number v = Some p /\
   In (k, VBool (if false then (2 <=? p)%Z else (2 <? p)%Z)) (items r)).
Proof.
  assert (H1 : wf ex_init_data) by evaluate.
  assert (H2 : as_number (VInt 2) = Some 2%Z) by evaluate.
  assert (H3 : forallb (fun kv => is_number (snd kv)) (items ex_init_data)
               = true) by evaluate.
  split; [repeat split; assumption|].
  exact (threshold_spec ex_init_data (VInt 2) 2%Z false H1 H2 H3).
Defined.

(** [first_last_item] on the series of [test_init_data]. *)
Lemma first_last_item_witness :
  (wf ex_init_data) /\
  ((items ex_init_data = [] ->
    first_item ex_init_data = Raise IndexError /\
    last_item ex_init_data = Raise IndexError /\
    Domain_lower ex_init_data = neg_inf /\
    Domain_upper ex_init_data = pos_inf) /\
   (items ex_init_data <> [] ->
    exists a b, first_item ex_init_data = Ok a /\
    last_item ex_init_data = Ok b /\
    In a (items ex_init_data) /\ In b (items ex_init_data) /\
    Domain_lower ex_init_data = fst a /\ Domain_upper ex_init_data = fst b /\
    forall x, In x (items ex_init_data) ->
    tle (fst a) (fst x) = true /\ tle (fst x) (fst b) = true)).
Proof.
  assert (H1 : wf ex_init_data) by evaluate.
  split; [exact H1|].
  exact (first_last_item ex_init_data H1).
Defined.

(** [set_interval_compact]: [set_interval(1, 3, 1, compact=True)] on
    [[(0,1),(1,1),(2,5)]], where the write at 1 is skipped. *)
Lemma set_interval_compact_witness :
  (wf ex_repeated /\
   is_floating ex_repeated = false /\
   tlt (tz 1) (tz 3) = true /\
   length (keys_upto (tz 1) (tz 3) (items ex_repeated)) <= 1 /\
   ((exists x, In x (items ex_repeated) /\ tle (fst x) (tz 1) = true) \/
    (exists dv, _default ex_repeated = Explicit dv))) /\
  (exists r w, set_interval ex_repeated (tz 1) (tz 3) (VInt 1) true = Ok r /\
   wf r /\
   _default r = _default ex_repeated /\
   (forall x, In x (items r) ->
    x = (tz 1, VInt 1) \/ x = (tz 3, w) \/
    (In x (items ex_repeated) /\
     (tle (fst x) (tz 1) = true \/ tle (tz 3) (fst x) = true))) /\
   (forall x, In x (items ex_repeated) ->
    tlt (fst x) (tz 1) = true \/ tlt (tz 3) (fst x) = true ->
    In x (items r)) /\
   (exists t0, tle (tz 1) t0 = true /\ tlt t0 (tz 3) = true /\
    forall t, tle t0 t = true -> tlt t (tz 3) = true ->
    get ex_repeated t = Ok w) /\
   (forall t, tle (tz 1) t = true -> tlt t (tz 3) = true ->
    exists a, get r t = Ok a /\ py_eq a (VInt 1) = true) /\
   (forall t, tle (tz 3) t = true ->
    (forall x, In x (items ex_repeated) -> tlt (tz 3) (fst x) = true ->
     tlt t (fst x) = true) ->
    exists a, get r t = Ok a /\ py_eq a w = true) /\
   (forall t x, In x (items ex_repeated) -> tlt (tz 3) (fst x) = true ->
    tle (fst x) t = true -> get r t = get ex_repeated t) /\
   (forall t, tlt t (tz 1) = true ->
    (exists x, In x (items ex_repeated) /\ tle (fst x) t = true) \/
    (exists dv, _default ex_repeated = Explicit dv) ->
    get r t = get ex_repeated t)).
Proof.
  assert (H1 : wf ex_repeated) by evaluate.
  assert (H2 : is_floating ex_repeated = false) by evaluate.
  assert (H3 : tlt (tz 1) (tz 3) = true) by evaluate.
  assert (H4 : (exists x, In x (items ex_repeated) /\
                          tle (fst x) (tz 1) = true) \/
               (exists dv, _default ex_repeated = Explicit dv)).
  { left. exists (tz 0, VInt 1). split; [|evaluate].
    vm_compute. left. reflexivity. }
  assert (H5 : length (keys_upto (tz 1) (tz 3) (items ex_repeated)) <= 1)
    by (vm_compute; constructor).
  split; [repeat split; assumption|].
  exact (set_interval_compact ex_repeated (tz 1) (tz 3) (VInt 1)
           H1 H2 H3 H5 H4).
Defined.


(** [merge_unhashable_default] on a series whose default is a list. *)
Lemma merge_unhashable_default_witness :
  Exists (fun ts => default_hashable (_default ts) = false)
         [ex_two_points; ex_list_default] /\
  merge [ex_two_points; ex_list_default] true None None
  = Raise TypeError.
Proof.
  assert (H1 : Exists (fun ts => default_hashable (_default ts) = false)
                      [ex_two_points; ex_list_default]).
  { apply Exists_cons_tl. apply Exists_cons_hd. reflexivity. }
  split; [exact H1|].
  exact (merge_unhashable_default [ex_two_points; ex_list_default]
           true None H1).
Defined.


(** C9 as stated fails: the intersection of the two domains over
    [[0, 2]] keeps the point at 1, which repeats the value at 0, so the
    result is not compact. *)
Lemma Domain_and_not_compact_counterexample :
  exists r, Domain_and ex_domain_a ex_domain_b = Ok r /\
    items r = [(tz 0, VBool true); (tz 1, VBool true); (tz 2, VBool false)] /\
    is_compact (items r) = false.
Proof.
  eexists. split; [vm_compute; reflexivity|]. split; vm_compute; reflexivity.
Qed.

End MoreInstances.
